(** * Default-agents reconciliation engine: a shallow embedding

    The development follows the JavaScript sources file by file:

    - [Js]                 the fragment of JavaScript values the engine uses
                           (JSON data, property order, [JSON.stringify]);
    - [HashUtils]          api/server/services/DefaultAgents/hashUtils.js;
    - [PosixPath]          the functions of Node's [path] module that
                           loadConfigFile.js calls;
    - [LoadConfigFile]     api/server/utils/files/loadConfigFile.js;
    - [ValidateConfigFile] api/server/utils/files/validateConfigFile.js;
    - [ActionService]      [encryptMetadata] of api/server/services/ActionService.js;
    - [Sync]               api/server/services/DefaultAgents/sync.js;
    - [Store]              the persistence calls sync.js makes (models/Agent,
                           models/Action, processIconFile), over an explicit
                           store with a trace of the calls issued;
    - [Demo]               a concrete host and declarations, used to run the
                           engine on closed inputs.

    Asynchronous functions run sequentially ([await] at every call), so they
    are embedded in a state-and-exception monad over the persistent store. *)

From Stdlib Require Import ZArith String Ascii List DecimalString Sorted Permutation.
From stdpp Require Import base option list strings gmap fin_maps sorting.

Set Warnings "-register-all".
Local Open Scope string_scope.
Local Open Scope list_scope.

(** ** Exceptions *)

(** A thrown [Error]: only its [message] is ever read by the engine. *)
Record JsError := Error { message : string }.

Inductive result (A : Type) : Type :=
| Ok (a : A)
| Err (e : JsError).
Arguments Ok {A} a.
Arguments Err {A} e.

Definition is_ok {A} (r : result A) : bool :=
  match r with Ok _ => true | Err _ => false end.

(** The double-quote character, for messages and JSON text. *)
Definition dquote : string := String "034"%char EmptyString.

Module Js.

(** A JavaScript number is an IEEE 754 double.  The engine never does
    arithmetic on the numbers of a configuration: it tests them for truth
    and prints them.  A number is therefore kept as the text that
    [Number.prototype.toString] gives it, which determines the double up to
    the sign of zero: 42, 0.7, -0.5, 1e+21, NaN, Infinity. *)
Record number := Num { num_text : string }.

(** The text of an integer below 2^53 in magnitude: its decimal notation. *)
Definition integer_to_string (n : Z) : string :=
  NilZero.string_of_int (Z.to_int n).

Definition of_integer (n : Z) : number := Num (integer_to_string n).

(** Neither [NaN] nor an infinity. *)
Definition is_finite (x : number) : bool :=
  negb (String.eqb (num_text x) "NaN" || String.eqb (num_text x) "Infinity"
        || String.eqb (num_text x) "-Infinity").

(** JSON-shaped JavaScript values.  Objects list their own properties in
    enumeration order. *)
Inductive json : Type :=
| JUndefined
| JNull
| JBool (b : bool)
| JNum (x : number)
| JStr (s : string)
| JArr (items : list json)
| JObj (props : list (string * json)).

(** [ToBoolean]: the falsy numbers are the two zeros, which both print as
    0, and [NaN]. *)
Definition truthy (v : json) : bool :=
  match v with
  | JUndefined | JNull => false
  | JBool b => b
  | JNum x => negb (String.eqb (num_text x) "0" || String.eqb (num_text x) "NaN")
  | JStr s => negb (String.eqb s "")
  | JArr _ | JObj _ => true
  end.

(** [a || b]. *)
Definition js_or (a b : json) : json := if truthy a then a else b.

(** An optional string field of a typed declaration, read as a value. *)
Definition of_opt_string (o : option string) : json :=
  match o with Some s => JStr s | None => JUndefined end.

Definition of_opt (o : option json) : json :=
  match o with Some v => v | None => JUndefined end.

Definition opt_truthy (o : option string) : bool := truthy (of_opt_string o).

(** Property lookup on a property list: [props[k]]. *)
Fixpoint lookup_prop (k : string) (props : list (string * json)) : json :=
  match props with
  | [] => JUndefined
  | (k', v) :: rest => if String.eqb k k' then v else lookup_prop k rest
  end.

(** [v.k] for a value that is not null or undefined. *)
Definition get (k : string) (v : json) : json :=
  match v with
  | JObj props => lookup_prop k props
  | _ => JUndefined
  end.

Definition has_key (k : string) (props : list (string * json)) : bool :=
  existsb (fun p => String.eqb k (fst p)) props.

Definition keys (props : list (string * json)) : list string := map fst props.

(** *** Own-property order

    An ordinary object enumerates its array-index keys first, in ascending
    numeric order, then its other string keys in insertion order. *)

Definition is_digit (c : ascii) : bool :=
  let n := N_of_ascii c in ((48 <=? n) && (n <=? 57))%N.

Fixpoint digits_value (acc : N) (s : string) : option N :=
  match s with
  | EmptyString => Some acc
  | String c rest =>
      if is_digit c
      then digits_value (acc * 10 + (N_of_ascii c - 48))%N rest
      else None
  end.

(** A canonical numeric string below 2^32 - 1. *)
Definition array_index (k : string) : option N :=
  match k with
  | EmptyString => None
  | String c rest =>
      if (Ascii.eqb c "0"%char && negb (String.eqb rest ""))%bool then None
      else match digits_value 0%N k with
           | Some n => if (n <? 4294967295)%N then Some n else None
           | None => None
           end
  end.

Fixpoint replace_prop (k : string) (v : json) (props : list (string * json))
  : list (string * json) :=
  match props with
  | [] => []
  | (k', v') :: rest =>
      if String.eqb k k' then (k', v) :: rest
      else (k', v') :: replace_prop k v rest
  end.

Fixpoint insert_index (i : N) (k : string) (v : json) (props : list (string * json))
  : list (string * json) :=
  match props with
  | [] => [(k, v)]
  | (k', v') :: rest =>
      match array_index k' with
      | Some j => if (j <? i)%N then (k', v') :: insert_index i k v rest
                  else (k, v) :: props
      | None => (k, v) :: props
      end
  end.

(** [obj[k] = v] on the own properties of an ordinary object.  An object
    that has no own property [__proto__] inherits the accessor of
    [Object.prototype] under that key: the assignment reaches its setter,
    which gives the object another prototype or does nothing, and no own
    property is added. *)
Definition set_prop (props : list (string * json)) (k : string) (v : json)
  : list (string * json) :=
  if has_key k props then replace_prop k v props
  else if String.eqb k "__proto__" then props
  else match array_index k with
       | Some i => insert_index i k v props
       | None => props ++ [(k, v)]
       end.

(** [Object.assign(target, source)]. *)
Definition object_assign (target source : list (string * json)) : list (string * json) :=
  fold_left (fun t p => set_prop t (fst p) (snd p)) source target.

(** *** Strings

    A JavaScript string is a sequence of UTF-16 code units.  The model holds
    a string as the bytes of its UTF-8 encoding, which every string without
    a lone surrogate has; its code points and code units are read back from
    the bytes. *)

(** The payload bits of a continuation byte. *)
Definition payload (c : ascii) : N := (N_of_ascii c mod 64)%N.

(** The code points of a string, each with the bytes that encode it.  A
    byte that starts no complete sequence stands for itself. *)
Fixpoint code_points (s : string) : list (N * string) :=
  match s with
  | EmptyString => []
  | String c0 rest =>
      let b0 := N_of_ascii c0 in
      let single := (b0, String c0 "") :: code_points rest in
      if (b0 <? 192)%N then single
      else if (b0 <? 224)%N then
        match rest with
        | String c1 rest' =>
            (((b0 - 192) * 64 + payload c1)%N, String c0 (String c1 ""))
            :: code_points rest'
        | _ => single
        end
      else if (b0 <? 240)%N then
        match rest with
        | String c1 (String c2 rest') =>
            ((((b0 - 224) * 64 + payload c1) * 64 + payload c2)%N,
             String c0 (String c1 (String c2 "")))
            :: code_points rest'
        | _ => single
        end
      else
        match rest with
        | String c1 (String c2 (String c3 rest')) =>
            (((((b0 - 240) * 64 + payload c1) * 64 + payload c2) * 64 + payload c3)%N,
             String c0 (String c1 (String c2 (String c3 ""))))
            :: code_points rest'
        | _ => single
        end
  end.

(** The UTF-16 code units of a code point: itself, or a surrogate pair. *)
Definition units_of (cp : N) : list N :=
  if (cp <? 65536)%N then [cp]
  else [(55296 + (cp - 65536) / 1024)%N; (56320 + (cp - 65536) mod 1024)%N].

Definition code_units (s : string) : list N :=
  flat_map (fun p => units_of (fst p)) (code_points s).

(** [s.length] *)
Definition js_length (s : string) : nat := length (code_units s).

(** [WhiteSpace] and [LineTerminator] code points. *)
Definition is_white_space (cp : N) : bool :=
  (((9 <=? cp) && (cp <=? 13)) || (cp =? 32) || (cp =? 160) || (cp =? 5760)
   || ((8192 <=? cp) && (cp <=? 8202)) || (cp =? 8232) || (cp =? 8233)
   || (cp =? 8239) || (cp =? 8287) || (cp =? 12288) || (cp =? 65279))%N.

Fixpoint drop_white_space (l : list (N * string)) : list (N * string) :=
  match l with
  | (cp, bytes) :: rest => if is_white_space cp then drop_white_space rest else l
  | [] => []
  end.

(** [s.trim()] *)
Definition trim (s : string) : string :=
  String.concat ""
    (map snd (rev (drop_white_space (rev (drop_white_space (code_points s)))))).

(** *** [Array.prototype.sort()] on strings

    Without a comparison function the elements are ordered by their code
    units.  Two strings with the same code units are the same JavaScript
    string; the comparison of the bytes only completes the order on byte
    sequences that are not UTF-8. *)

Fixpoint compare_units (l1 l2 : list N) : comparison :=
  match l1, l2 with
  | [], [] => Eq
  | [], _ :: _ => Lt
  | _ :: _, [] => Gt
  | x :: l1, y :: l2 =>
      match (x ?= y)%N with
      | Eq => compare_units l1 l2
      | c => c
      end
  end.

Definition compare_strings (a b : string) : comparison :=
  match compare_units (code_units a) (code_units b) with
  | Eq => String.compare a b
  | c => c
  end.

(** [a <= b] in code-unit order. *)
Definition units_leb (a b : string) : bool :=
  match compare_strings a b with Gt => false | _ => true end.

Fixpoint insert_sorted (k : string) (l : list string) : list string :=
  match l with
  | [] => [k]
  | k' :: rest => if units_leb k k' then k :: l else k' :: insert_sorted k rest
  end.

Definition sort_strings (l : list string) : list string :=
  fold_right insert_sorted [] l.

(** *** [JSON.stringify] *)

Definition hex_digit (n : N) : ascii :=
  ascii_of_N (if (n <? 10)%N then 48 + n else 87 + n)%N.

Definition escape_char (c : ascii) : string :=
  let n := N_of_ascii c in
  if (n =? 34)%N then "\" +:+ dquote
  else if (n =? 92)%N then "\\"
  else if (n =? 8)%N then "\b"
  else if (n =? 9)%N then "\t"
  else if (n =? 10)%N then "\n"
  else if (n =? 12)%N then "\f"
  else if (n =? 13)%N then "\r"
  else if (n <? 32)%N
       then "\u00" +:+ String (hex_digit (n / 16)) (String (hex_digit (n mod 16)) "")
  else String c "".

Fixpoint escape (s : string) : string :=
  match s with
  | EmptyString => ""
  | String c rest => escape_char c +:+ escape rest
  end.

Definition quote (s : string) : string := dquote +:+ escape s +:+ dquote.

(** [JSON.stringify] of a number: its text, or [null] when it is not
    finite. *)
Definition number_to_json (x : number) : string :=
  if is_finite x then num_text x else "null".

Fixpoint join (sep : string) (l : list string) : string :=
  match l with
  | [] => ""
  | [x] => x
  | x :: rest => x +:+ sep +:+ join sep rest
  end.

(** [None] stands for the result [undefined]: an undefined value has no
    JSON text, is skipped as a property and printed as [null] in an array. *)
Fixpoint stringify (v : json) : option string :=
  match v with
  | JUndefined => None
  | JNull => Some "null"
  | JBool true => Some "true"
  | JBool false => Some "false"
  | JNum x => Some (number_to_json x)
  | JStr s => Some (quote s)
  | JArr items =>
      Some ("[" +:+ join "," (map (fun x => default "null" (stringify x)) items) +:+ "]")
  | JObj props =>
      Some ("{" +:+ join ","
              (omap (fun p => match p with
                              | (k, x) => match stringify x with
                                          | Some s => Some (quote k +:+ ":" +:+ s)
                                          | None => None
                                          end
                              end) props) +:+ "}")
  end.

End Js.
Export Js.

(** ** Host platform

    Everything the engine obtains from outside the repository: Node's
    [crypto], the parsers, the file system, the process environment, the
    avatar pipeline and the failures of the persistence layer. *)

(** Calls made to the persistence collaborators. *)
Inductive Call :=
| CGetAgent (id : string)
| CCreateAgent (id : string)
| CUpdateAgent (id : string) (content : bool)
| CDeleteAgent (id : string)
| CFindAgents
| CUpdateAction (action_id : string)
| CDeleteAction (action_id : string).

(** A call together with whether it completed. *)
Record Event := mkEvent { ev_call : Call; ev_ok : bool }.

Class Host := {
  (** [crypto.createHash('sha256').update(s).digest('hex')] *)
  sha256_hex : string -> string;
  (** [encryptV2] of @librechat/api *)
  encryptV2 : string -> result string;
  (** [yaml.load] and [JSON.parse] *)
  yaml_load : string -> result json;
  json_parse : string -> result json;
  (** [fs.access(path)] resolves *)
  fs_access : string -> bool;
  (** [fs.readFile(path)] and [fs.readFile(path, 'utf-8')]: the bytes of the
      file or its text, or the error of the read (a directory, a file that
      may not be read, a file removed since it was checked) *)
  fs_readFile : string -> option string -> result string;
  (** [process.cwd()], [process.env.CONFIG_PATH], [process.env.DEFAULT_OBJECT_ID] *)
  cwd : string;
  CONFIG_PATH : option string;
  DEFAULT_OBJECT_ID : option string;
  (** the avatar pipeline behind [processIconFile]; the first argument counts
      the uploads made so far (every upload gets a fresh file name) *)
  avatar_pipeline : nat -> string -> string -> result (string * string);
  (** failure of a persistence call, given the calls made so far *)
  db_fault : list Event -> Call -> option string
}.

(** ** Declarations read from librechat.yaml

    The fields of [DefaultAgentConfig] and [DefaultActionConfig]; an absent
    key is [None].  The [auth] block stays a property list, because the engine
    copies it wholesale with [Object.assign]. *)

Record ActionConfig := {
  act_domain : option string;
  act_spec : option string;
  act_specFile : option string;
  act_auth : option (list (string * json));
  act_privacy_policy_url : option string
}.

Record AgentConfig := {
  cfg_id : option string;
  cfg_name : option string;
  cfg_description : option string;
  cfg_instructions : option string;
  cfg_instructionsFile : option string;
  cfg_icon : option string;
  cfg_iconFile : option string;
  cfg_provider : option string;
  cfg_model : option string;
  cfg_category : option string;
  cfg_model_parameters : option json;
  cfg_recursion_limit : option number;
  cfg_tools : option (list string);
  cfg_actions : option (list ActionConfig);
  cfg_tool_resources : option json
}.

(** The avatar object [{filepath, source}]. *)
Record Avatar := { filepath : string; source : string }.

Module HashUtils.
Section WithHost.
Context `{Host}.

(** Message of the [TypeError] raised by [hash.update(undefined)]. *)
Definition update_type_error : string :=
  "The " +:+ dquote +:+ "data" +:+ dquote
  +:+ " argument must be of type string or an instance of Buffer, TypedArray, or DataView. Received undefined".

(** Message of the [TypeError] raised by [Object.keys(null)]. *)
Definition object_keys_type_error : string :=
  "Cannot convert undefined or null to object".

Fixpoint sortObject (obj : json) : json :=
  match obj with
  | JArr items => JArr (map sortObject items)
  | JObj props =>
      let values := map (fun p => match p with (k, v) => (k, sortObject v) end) props in
      JObj (fold_left (fun sorted key => set_prop sorted key (lookup_prop key values))
              (sort_strings (keys props)) [])
  | _ => obj
  end.

Definition calculateHash (data : json) : result string :=
  let sortedData := sortObject data in
  match stringify sortedData with
  | None => Err (Error ("Hash calculation failed: " +:+ update_type_error))
  | Some jsonString =>
      let hash := sha256_hex jsonString in
      (* logger.debug evaluates Object.keys(data) *)
      match data with
      | JNull => Err (Error ("Hash calculation failed: " +:+ object_keys_type_error))
      | _ => Ok hash
      end
  end.

Definition hashesEqual (hash1 hash2 : string) : bool := String.eqb hash1 hash2.

Definition generateActionId (domain agentId : string) : string :=
  domain +:+ "_" +:+ agentId.

(** The object literal [hashData] of [calculateAgentConfigHash]. *)
Definition hashData (agentConfig : AgentConfig) (instructions : option string)
    (avatar : option Avatar) : json :=
  JObj [
    ("id", of_opt_string (cfg_id agentConfig));
    ("name", of_opt_string (cfg_name agentConfig));
    ("description", of_opt_string (cfg_description agentConfig));
    ("instructions",
      js_or (of_opt_string instructions) (of_opt_string (cfg_instructions agentConfig)));
    ("provider", of_opt_string (cfg_provider agentConfig));
    ("model", of_opt_string (cfg_model agentConfig));
    ("category", of_opt_string (cfg_category agentConfig));
    ("model_parameters", of_opt (cfg_model_parameters agentConfig));
    ("recursion_limit",
      match cfg_recursion_limit agentConfig with Some x => JNum x | None => JUndefined end);
    ("tools",
      match cfg_tools agentConfig with Some l => JArr (map JStr l) | None => JUndefined end);
    ("tool_resources", of_opt (cfg_tool_resources agentConfig));
    ("avatar_filepath",
      js_or (match avatar with Some a => JStr (filepath a) | None => JUndefined end)
            (of_opt_string (cfg_icon agentConfig)))
  ].

Definition calculateAgentConfigHash (agentConfig : AgentConfig)
    (instructions : option string) (avatar : option Avatar) : result string :=
  calculateHash (hashData agentConfig instructions avatar).

(** [action.auth?.type] *)
Definition auth_type (action : ActionConfig) : json :=
  match act_auth action with
  | Some auth => lookup_prop "type" auth
  | None => JUndefined
  end.

(** One element of [actionData]: the callback of [actions.map]. *)
Definition actionDataEntry (action : ActionConfig) : result json :=
  match (if opt_truthy (act_spec action)
         then match calculateHash (JObj [("spec", of_opt_string (act_spec action))]) with
              | Ok hash => Ok (JStr hash)
              | Err e => Err e
              end
         else Ok JNull) with
  | Ok spec_hash =>
      Ok (JObj [("domain", of_opt_string (act_domain action));
                ("spec_hash", spec_hash);
                ("auth_type", auth_type action)])
  | Err e => Err e
  end.

(** [actions.map(f)] for a callback that may throw. *)
Fixpoint map_actions (f : ActionConfig -> result json) (actions : list ActionConfig)
  : result (list json) :=
  match actions with
  | [] => Ok []
  | action :: rest =>
      match f action with
      | Ok x => match map_actions f rest with
                | Ok xs => Ok (x :: xs)
                | Err e => Err e
                end
      | Err e => Err e
      end
  end.

Definition calculateActionMetadataHash (actions : option (list ActionConfig))
  : result string :=
  match actions with
  | None | Some [] => Ok ""
  | Some actions =>
      match map_actions actionDataEntry actions with
      | Ok actionData => calculateHash (JArr actionData)
      | Err e => Err e
      end
  end.

End WithHost.
End HashUtils.

(** ** Node's [path] module on POSIX *)

Module PosixPath.
Section WithHost.
Context `{Host}.

Definition slash : ascii := "/"%char.

Definition isAbsolute (p : string) : bool :=
  match p with
  | String c _ => Ascii.eqb c slash
  | EmptyString => false
  end.

(** The segments between separators, empty ones included. *)
Fixpoint split_path (cur : string) (p : string) : list string :=
  match p with
  | EmptyString => [cur]
  | String c rest =>
      if Ascii.eqb c slash then cur :: split_path "" rest
      else split_path (cur +:+ String c "") rest
  end.

(** [normalizeString] without going above the root: [.] and empty segments
    vanish, [..] removes the segment before it. *)
Fixpoint normalize_segments (stack : list string) (segs : list string) : list string :=
  match segs with
  | [] => rev stack
  | s :: rest =>
      if String.eqb s "" || String.eqb s "." then normalize_segments stack rest
      else if String.eqb s ".." then normalize_segments (tl stack) rest
      else normalize_segments (s :: stack) rest
  end.

(** The right-to-left scan of [path.resolve]: segments are prepended until
    an absolute one is met; the working directory comes last. *)
Fixpoint resolve_scan (rev_args : list string) (resolvedPath : string) : string :=
  match rev_args with
  | [] => cwd +:+ "/" +:+ resolvedPath
  | p :: rest =>
      if String.eqb p "" then resolve_scan rest resolvedPath
      else if isAbsolute p then p +:+ "/" +:+ resolvedPath
      else resolve_scan rest (p +:+ "/" +:+ resolvedPath)
  end.

Definition resolve (args : list string) : string :=
  "/" +:+ join "/" (normalize_segments [] (split_path "" (resolve_scan (rev args) ""))).

(** [path.dirname], as called on a resolved path. *)
Definition dirname (p : string) : string :=
  "/" +:+ join "/" (removelast (normalize_segments [] (split_path "" p))).

Definition basename (p : string) : string := List.last (split_path "" p) "".

(** Index of the last dot of [s], from position [i]. *)
Fixpoint last_dot (i : nat) (s : string) (found : option nat) : option nat :=
  match s with
  | EmptyString => found
  | String c rest =>
      last_dot (S i) rest (if Ascii.eqb c "."%char then Some i else found)
  end.

Definition extname (p : string) : string :=
  let b := basename p in
  if String.eqb b ".." then ""
  else match last_dot 0 b None with
       | None | Some O => ""
       | Some i => String.substring i (String.length b - i) b
       end.

Definition lower_char (c : ascii) : ascii :=
  let n := N_of_ascii c in
  if ((65 <=? n) && (n <=? 90))%N then ascii_of_N (n + 32) else c.

Fixpoint toLowerCase (s : string) : string :=
  match s with
  | EmptyString => ""
  | String c rest => String (lower_char c) (toLowerCase rest)
  end.

(** [s.startsWith(prefix)] *)
Definition startsWith (s pre : string) : bool := String.prefix pre s.

End WithHost.
End PosixPath.

(** ** Conversions the engine relies on implicitly *)

Module Coerce.

(** [String(v)], as in template literals and in the parsers' arguments. *)
Fixpoint js_String (v : json) : string :=
  match v with
  | JUndefined => "undefined"
  | JNull => "null"
  | JBool true => "true"
  | JBool false => "false"
  | JNum x => num_text x
  | JStr s => s
  | JArr items =>
      join "," (map (fun x => match x with
                              | JUndefined | JNull => ""
                              | _ => js_String x
                              end) items)
  | JObj _ => "[object Object]"
  end.

(** [v === s] for a string literal [s]. *)
Definition is_string (v : json) (s : string) : bool :=
  match v with JStr x => String.eqb x s | _ => false end.

Definition nat_to_string (n : nat) : string := integer_to_string (Z.of_nat n).

Definition upper_hex_digit (n : N) : ascii :=
  ascii_of_N (if (n <? 10)%N then 48 + n else 55 + n)%N.

(** Bytes that [encodeURIComponent] leaves alone. *)
Definition uri_unreserved (c : ascii) : bool :=
  let n := N_of_ascii c in
  (((65 <=? n) && (n <=? 90)) || ((97 <=? n) && (n <=? 122)) || ((48 <=? n) && (n <=? 57))
   || (n =? 45) || (n =? 95) || (n =? 46) || (n =? 33) || (n =? 126) || (n =? 42)
   || (n =? 39) || (n =? 40) || (n =? 41))%N.

(** [encodeURIComponent] on the UTF-8 bytes of a string. *)
Fixpoint encodeURIComponent (s : string) : string :=
  match s with
  | EmptyString => ""
  | String c rest =>
      (if uri_unreserved c then String c ""
       else let n := N_of_ascii c in
            String "%"%char (String (upper_hex_digit (n / 16))
                               (String (upper_hex_digit (n mod 16)) "")))
      +:+ encodeURIComponent rest
  end.

(** *** [decodeURIComponent]

    The [Decode] operation of ECMAScript with an empty set of preserved
    escapes, on the UTF-8 bytes of a string: an escape [%XX] below 128 is
    one byte; a leading octet announces a sequence of two to four escaped
    octets, which must be the UTF-8 encoding of a code point. *)

Definition hex_value (c : ascii) : option N :=
  let n := N_of_ascii c in
  if ((48 <=? n) && (n <=? 57))%N then Some (n - 48)%N
  else if ((65 <=? n) && (n <=? 70))%N then Some (n - 55)%N
  else if ((97 <=? n) && (n <=? 102))%N then Some (n - 87)%N
  else None.

(** Message of the [URIError]. *)
Definition uri_malformed : JsError := Error "URI malformed".

(** The number of leading 1 bits of an octet (5 stands for five or more). *)
Definition leading_ones (b : N) : nat :=
  if (b <? 128)%N then 0
  else if (b <? 192)%N then 1
  else if (b <? 224)%N then 2
  else if (b <? 240)%N then 3
  else if (b <? 248)%N then 4
  else 5.

Definition continuation (b : N) : bool := ((128 <=? b) && (b <=? 191))%N.

(** The octets are the UTF-8 encoding of one code point above 127: no
    overlong form, no surrogate, nothing above U+10FFFF. *)
Definition utf8_code_point (octets : list N) : bool :=
  match octets with
  | [b0; b1] => ((194 <=? b0) && (b0 <=? 223))%N && continuation b1
  | [b0; b1; b2] =>
      (if (b0 =? 224)%N then ((160 <=? b1) && (b1 <=? 191))%N
       else if (b0 =? 237)%N then ((128 <=? b1) && (b1 <=? 159))%N
       else ((225 <=? b0) && (b0 <=? 239))%N && continuation b1)
      && continuation b2
  | [b0; b1; b2; b3] =>
      (if (b0 =? 240)%N then ((144 <=? b1) && (b1 <=? 191))%N
       else if (b0 =? 244)%N then ((128 <=? b1) && (b1 <=? 143))%N
       else ((241 <=? b0) && (b0 <=? 243))%N && continuation b1)
      && continuation b2 && continuation b3
  | _ => false
  end.

(** The bytes of the decoded octets, in front of the rest of the result. *)
Definition emit (octets : list N) (rest : result string) : result string :=
  match rest with
  | Ok s => Ok (fold_right (fun b acc => String (ascii_of_N b) acc) s octets)
  | Err e => Err e
  end.

(** The scan of [Decode]: [need] octets of the current sequence are still
    to come and [pending] holds the ones read so far. *)
Fixpoint decode_from (pending : list N) (need : nat) (s : string) : result string :=
  match s with
  | EmptyString =>
      match need with
      | O => Ok ""
      | S _ => Err uri_malformed
      end
  | String c rest =>
      if Ascii.eqb c "%"%char then
        match rest with
        | String h1 (String h2 rest') =>
            match hex_value h1, hex_value h2 with
            | Some a, Some b =>
                let B := (16 * a + b)%N in
                match need with
                | O =>
                    match leading_ones B with
                    | 0 => emit [B] (decode_from [] 0 rest')
                    | 2 => decode_from [B] 1 rest'
                    | 3 => decode_from [B] 2 rest'
                    | 4 => decode_from [B] 3 rest'
                    | _ => Err uri_malformed
                    end
                | 1 =>
                    if utf8_code_point (pending ++ [B])
                    then emit (pending ++ [B]) (decode_from [] 0 rest')
                    else Err uri_malformed
                | S need' => decode_from (pending ++ [B]) need' rest'
                end
            | _, _ => Err uri_malformed
            end
        | _ => Err uri_malformed
        end
      else
        match need with
        | O => emit [N_of_ascii c] (decode_from [] 0 rest)
        | S _ => Err uri_malformed
        end
  end.

Definition decodeURIComponent (s : string) : result string := decode_from [] 0 s.

End Coerce.
Export Coerce.

(** ** loadConfigFile.js *)

(** What [loadConfigFile] resolves to: a string or parsed data, or a
    [Buffer] for the binary type. *)
Inductive FileContent :=
| Content (v : json)
| Buffer (bytes : string).

Module LoadConfigFile.
Section WithHost.
Context `{Host}.

Definition configDir : string :=
  match CONFIG_PATH with
  | Some p => if String.eqb p "" then cwd
              else PosixPath.dirname (PosixPath.resolve [p])
  | None => cwd
  end.

Definition resolveConfigFilePath (filePath : string) : string :=
  if PosixPath.isAbsolute filePath then filePath
  else PosixPath.resolve [configDir; filePath].

Definition validateFilePath (filePath baseDir : string) : result unit :=
  let resolvedPath := PosixPath.resolve [filePath] in
  let resolvedBase := PosixPath.resolve [baseDir] in
  if PosixPath.isAbsolute filePath then Ok tt
  else if negb (PosixPath.startsWith resolvedPath resolvedBase)
       then Err (Error ("Path traversal detected: " +:+ filePath
                        +:+ " attempts to access files outside base directory"))
       else Ok tt.

Definition detectType (resolvedPath fileType : string) : string :=
  if String.eqb fileType "auto" then
    let ext := PosixPath.toLowerCase (PosixPath.extname resolvedPath) in
    if String.eqb ext ".yaml" || String.eqb ext ".yml" then "yaml"
    else if String.eqb ext ".json" then "json"
    else if String.eqb ext ".txt" || String.eqb ext ".md" then "text"
    else "text"
  else fileType.

(** The body of the [try] block. *)
Definition loadConfigFile_body (filePath fileType : string) : result FileContent :=
  let resolvedPath := resolveConfigFilePath filePath in
  match (if negb (PosixPath.isAbsolute filePath)
         then validateFilePath resolvedPath configDir
         else Ok tt) with
  | Err e => Err e
  | Ok _ =>
      if negb (fs_access resolvedPath)
      then Err (Error ("File not found: " +:+ resolvedPath))
      else
        let detectedType := detectType resolvedPath fileType in
        if String.eqb detectedType "binary" then
          match fs_readFile resolvedPath None with
          | Ok content => Ok (Buffer content)
          | Err e => Err e
          end
        else
          match fs_readFile resolvedPath (Some "utf-8") with
          | Err e => Err e
          | Ok fileContent =>
              if String.eqb detectedType "yaml" then
                match yaml_load fileContent with
                | Ok v => Ok (Content v)
                | Err e => Err e
                end
              else if String.eqb detectedType "json" then
                match json_parse fileContent with
                | Ok v => Ok (Content v)
                | Err e => Err e
                end
              else Ok (Content (JStr fileContent))
          end
  end.

Definition loadConfigFile (filePath fileType : string) : result FileContent :=
  match loadConfigFile_body filePath fileType with
  | Ok content => Ok content
  | Err error =>
      Err (Error ("Failed to load config file " +:+ filePath +:+ ": " +:+ message error))
  end.

End WithHost.
End LoadConfigFile.

(** ** validateConfigFile.js *)

(** A [{valid, error}] verdict. *)
Inductive Validation :=
| Valid
| Invalid (error : string).

Definition valid (v : Validation) : bool :=
  match v with Valid => true | Invalid _ => false end.

(** A [{valid, errors}] verdict of the configuration validators. *)
Record ConfigValidation := { errors : list string }.

Definition cv_valid (v : ConfigValidation) : bool :=
  match errors v with [] => true | _ => false end.

Module ValidateConfigFile.
Section WithHost.
Context `{Host}.

(** [{valid: true, parsed}] is [Ok parsed], [{valid: false, error}] is [Err]. *)
Definition validateJSON (content : json) : result json :=
  match json_parse (js_String content) with
  | Ok parsed => Ok parsed
  | Err e => Err (Error ("Invalid JSON: " +:+ message e))
  end.

Definition validateYAML (content : json) : result json :=
  match yaml_load (js_String content) with
  | Ok parsed => Ok parsed
  | Err e => Err (Error ("Invalid YAML: " +:+ message e))
  end.

Definition is_object (v : json) : bool :=
  match v with JArr _ | JObj _ => true | _ => false end.

Definition validateOpenAPISpec (spec : json) : Validation :=
  if negb (truthy spec) || negb (is_object spec)
  then Invalid "OpenAPI spec must be an object"
  else
    let version := js_or (get "openapi" spec) (get "swagger" spec) in
    if negb (truthy version) then Invalid "Missing openapi or swagger version field"
    else if negb (truthy (get "info" spec)) then Invalid "Missing required field: info"
    else if negb (truthy (get "paths" spec)) && negb (truthy (get "components" spec))
         then Invalid "Spec must have either paths or components"
         else Valid.

Definition validateActionSpec (specContent : json) (format : string) : Validation :=
  let parsed : result json :=
    if String.eqb format "auto" then
      match validateYAML specContent with
      | Ok p => Ok p
      | Err yamlError =>
          match validateJSON specContent with
          | Ok p => Ok p
          | Err jsonError =>
              Err (Error ("Invalid spec format. YAML error: " +:+ message yamlError
                          +:+ ". JSON error: " +:+ message jsonError))
          end
      end
    else if String.eqb format "yaml" then validateYAML specContent
    else if String.eqb format "json" then validateJSON specContent
    else Err (Error ("Unknown format: " +:+ format)) in
  match parsed with
  | Err e => Invalid (message e)
  | Ok p => validateOpenAPISpec p
  end.

Definition validateInstructions (instructions : json) (maxLength : N) : Validation :=
  match instructions with
  | JStr s =>
      if Nat.eqb (js_length (trim s)) 0 then Invalid "Instructions cannot be empty"
      else if (maxLength <? N.of_nat (js_length s))%N
           then Invalid ("Instructions too long: " +:+ nat_to_string (js_length s)
                         +:+ " characters (max: " +:+ integer_to_string (Z.of_N maxLength)
                         +:+ ")")
           else Valid
  | _ => Invalid "Instructions must be a string"
  end.

Definition validAuthTypes : list string := ["service_http"; "oauth"; "none"].

(** [validAuthTypes.includes(v)] *)
Definition includes_value (l : list string) (v : json) : bool :=
  existsb (is_string v) l.

Definition push_if (c : bool) (e : string) (errs : list string) : list string :=
  if c then errs ++ [e] else errs.

Definition validateAuth (auth : list (string * json)) (errs : list string) : list string :=
  let type := lookup_prop "type" auth in
  let errs := push_if (negb (truthy type)) "Auth configuration must have a type" errs in
  let errs := push_if (truthy type && negb (includes_value validAuthTypes type))
                ("Invalid auth type: " +:+ js_String type) errs in
  if is_string type "oauth" then
    let errs := push_if (negb (truthy (lookup_prop "client_url" auth)))
                  "OAuth auth requires client_url" errs in
    push_if (negb (truthy (lookup_prop "authorization_url" auth)))
      "OAuth auth requires authorization_url" errs
  else errs.

Definition validateActionConfig (actionConfig : ActionConfig) : ConfigValidation :=
  let errs := push_if (negb (opt_truthy (act_domain actionConfig)))
                "Missing required field: domain" [] in
  let errs := push_if (negb (opt_truthy (act_spec actionConfig))
                       && negb (opt_truthy (act_specFile actionConfig)))
                "Action must have either spec or specFile" errs in
  {| errors := match act_auth actionConfig with
               | Some auth => validateAuth auth errs
               | None => errs
               end |}.

(** The [forEach] over the declared actions. *)
Fixpoint validateActions (index : nat) (actions : list ActionConfig) (errs : list string)
  : list string :=
  match actions with
  | [] => errs
  | action :: rest =>
      let actionValidation := validateActionConfig action in
      validateActions (S index) rest
        (push_if (negb (cv_valid actionValidation))
           ("Action " +:+ nat_to_string index +:+ ": "
            +:+ join ", " (errors actionValidation)) errs)
  end.

Definition requiredFields (agentConfig : AgentConfig) : list (string * option string) :=
  [("id", cfg_id agentConfig); ("name", cfg_name agentConfig);
   ("provider", cfg_provider agentConfig); ("model", cfg_model agentConfig)].

Definition validateAgentConfig (agentConfig : AgentConfig) : ConfigValidation :=
  let errs := fold_left (fun errs field =>
                           push_if (negb (opt_truthy (snd field)))
                             ("Missing required field: " +:+ fst field) errs)
                (requiredFields agentConfig) [] in
  let errs := push_if (negb (opt_truthy (cfg_instructions agentConfig))
                       && negb (opt_truthy (cfg_instructionsFile agentConfig)))
                "Agent must have either instructions or instructionsFile" errs in
  {| errors := match cfg_actions agentConfig with
               | Some actions => validateActions 0 actions errs
               | None => errs
               end |}.

End WithHost.
End ValidateConfigFile.

(** ** ActionService.js: encryption of action metadata *)

Module ActionService.
Section WithHost.
Context `{Host}.

(** [AuthTypeEnum.ServiceHttp] and [AuthTypeEnum.OAuth] of librechat-data-provider. *)
Definition ServiceHttp : string := "service_http".
Definition OAuth : string := "oauth".

Definition encryptSensitiveValue (value : json) : result string :=
  encryptV2 (encodeURIComponent (js_String value)).

(** [if (metadata.k) encryptedMetadata.k = await encryptSensitiveValue(metadata.k)] *)
Definition encryptField (metadata : list (string * json)) (k : string)
    (encryptedMetadata : list (string * json)) : result (list (string * json)) :=
  if truthy (lookup_prop k metadata) then
    match encryptSensitiveValue (lookup_prop k metadata) with
    | Ok c => Ok (set_prop encryptedMetadata k (JStr c))
    | Err e => Err e
    end
  else Ok encryptedMetadata.

Definition encryptMetadata (metadata : list (string * json)) : result (list (string * json)) :=
  let encryptedMetadata := metadata in
  let auth := lookup_prop "auth" metadata in
  if truthy auth && is_string (get "type" auth) ServiceHttp then
    encryptField metadata "api_key" encryptedMetadata
  else if truthy auth && is_string (get "type" auth) OAuth then
    match encryptField metadata "oauth_client_id" encryptedMetadata with
    | Ok encryptedMetadata => encryptField metadata "oauth_client_secret" encryptedMetadata
    | Err e => Err e
    end
  else Ok encryptedMetadata.

(** [decryptV2] of @librechat/api, on whatever value the metadata holds. *)
Variable decryptV2 : json -> result string.

Definition decryptSensitiveValue (value : json) : result string :=
  match decryptV2 value with
  | Ok decryptedValue => decodeURIComponent decryptedValue
  | Err e => Err e
  end.

(** [if (metadata.k) decryptedMetadata.k = await decryptSensitiveValue(metadata.k)] *)
Definition decryptField (metadata : list (string * json)) (k : string)
    (decryptedMetadata : list (string * json)) : result (list (string * json)) :=
  if truthy (lookup_prop k metadata) then
    match decryptSensitiveValue (lookup_prop k metadata) with
    | Ok p => Ok (set_prop decryptedMetadata k (JStr p))
    | Err e => Err e
    end
  else Ok decryptedMetadata.

Definition decryptMetadata (metadata : list (string * json)) : result (list (string * json)) :=
  let decryptedMetadata := metadata in
  let auth := lookup_prop "auth" metadata in
  if truthy auth && is_string (get "type" auth) ServiceHttp then
    decryptField metadata "api_key" decryptedMetadata
  else if truthy auth && is_string (get "type" auth) OAuth then
    match decryptField metadata "oauth_client_id" decryptedMetadata with
    | Ok decryptedMetadata => decryptField metadata "oauth_client_secret" decryptedMetadata
    | Err e => Err e
    end
  else Ok decryptedMetadata.

End WithHost.
End ActionService.

(** ** The persistent store and the monad of the engine *)

(** [version_metadata] of one entry of an agent's [versions]. *)
Record Version := { configHash : option string }.

(** [agentData] of [createDefaultAgent] and [updateDefaultAgent]. *)
Record AgentData := {
  name : option string;
  description : option string;
  instructions : option string;
  avatar : option Avatar;
  provider : option string;
  model : option string;
  category : string;
  model_parameters : option json;
  recursion_limit : option number;
  tools : list string;
  tool_resources : option json
}.

Record AgentRecord := {
  ag_id : string;
  ag_author : string;
  ag_data : AgentData;
  ag_actions : list string;
  ag_versions : list Version
}.

Record ActionRecord := {
  action_id : string;
  user : string;
  agent_id : string;
  type : string;
  metadata : list (string * json)
}.

(** The argument of [updateAgent]: the keys present in the update object. *)
Record AgentUpdate := {
  upd_data : option AgentData;
  upd_version_metadata : option string;
  upd_actions : option (list string)
}.

Record World := {
  agents : gmap string AgentRecord;
  actions : gmap (string * string) ActionRecord;
  trace : list Event;
  uploads : nat
}.

Definition M (A : Type) : Type := World -> result A * World.

Definition ret {A} (a : A) : M A := fun w => (Ok a, w).

Definition throw {A} (e : JsError) : M A := fun w => (Err e, w).

Definition bind {A B} (m : M A) (k : A -> M B) : M B :=
  fun w => match m w with
           | (Ok a, w') => k a w'
           | (Err e, w') => (Err e, w')
           end.

(** [try { m } catch (e) { h e }] *)
Definition try_catch {A} (m : M A) (h : JsError -> M A) : M A :=
  fun w => match m w with
           | (Ok a, w') => (Ok a, w')
           | (Err e, w') => h e w'
           end.

(** A function that only computes or reads files. *)
Definition lift {A} (r : result A) : M A := fun w => (r, w).

Notation "'let!' x ':=' m 'in' k" := (bind m (fun x => k))
  (at level 10, x name, m at level 100, k at level 200).
Notation "'let!' ' p ':=' m 'in' k" := (bind m (fun x => match x with p => k end))
  (at level 10, p pattern, m at level 100, k at level 200).

Module Store.
Section WithHost.
Context `{Host}.

Definition set_agents (f : gmap string AgentRecord -> gmap string AgentRecord) (w : World)
  : World :=
  {| agents := f (agents w); actions := actions w; trace := trace w; uploads := uploads w |}.

Definition set_actions
    (f : gmap (string * string) ActionRecord -> gmap (string * string) ActionRecord)
    (w : World) : World :=
  {| agents := agents w; actions := f (actions w); trace := trace w; uploads := uploads w |}.

Definition log (c : Call) (ok : bool) (w : World) : World :=
  {| agents := agents w; actions := actions w;
     trace := trace w ++ [mkEvent c ok]; uploads := uploads w |}.

(** One call to the persistence layer: it fails when the host says so,
    otherwise it runs, and either way it is recorded. *)
Definition db_call {A} (c : Call) (run : World -> result A * World) : M A :=
  fun w => match db_fault (trace w) c with
           | Some msg => (Err (Error msg), log c false w)
           | None => match run w with
                     | (r, w') => (r, log c (is_ok r) w')
                     end
           end.

(** Modelled from the spec: [getAgent({id, author})] of ~/models/Agent,
    "getAgent({id, owner}) -> AgentRecord|null"; agents are keyed by [id]. *)
Definition getAgent (id author : string) : M (option AgentRecord) :=
  db_call (CGetAgent id)
    (fun w => (Ok (match agents w !! id with
                   | Some a => if String.eqb (ag_author a) author then Some a else None
                   | None => None
                   end), w)).

(** Modelled from the spec: [createAgent(fields)] of ~/models/Agent,
    "create a new record, author = systemOwner, with a first version
    carrying the computed hash".  The store of this model holds one record
    per id, so a creation under an id in use cannot add a second record: it
    is refused.  Neither the spec nor the sources say what the persistence
    layer does then; the choice matters only when a declaration uses the id
    of a record that belongs to another owner. *)
Definition createAgent (id : option string) (data : AgentData) (author : string)
    (actionIds : list string) (hash : string) : M AgentRecord :=
  db_call (CCreateAgent (js_String (of_opt_string id)))
    (fun w =>
       match id with
       | None => (Err (Error "Agent validation failed: id: Path `id` is required."), w)
       | Some id =>
           match agents w !! id with
           | Some _ => (Err (Error ("E11000 duplicate key error: id " +:+ id)), w)
           | None =>
               let a := {| ag_id := id; ag_author := author; ag_data := data;
                           ag_actions := actionIds;
                           ag_versions := [ {| configHash := Some hash |} ] |} in
               (Ok a, set_agents (insert id a) w)
           end
       end).

Definition apply_update (u : AgentUpdate) (a : AgentRecord) : AgentRecord :=
  {| ag_id := ag_id a;
     ag_author := ag_author a;
     ag_data := match upd_data u with Some d => d | None => ag_data a end;
     ag_actions := match upd_actions u with Some l => l | None => ag_actions a end;
     ag_versions := match upd_version_metadata u with
                    | Some h => ag_versions a ++ [ {| configHash := Some h |} ]
                    | None => ag_versions a
                    end |}.

(** Modelled from the spec: [updateAgent({id}, fields)] of ~/models/Agent,
    "update the record's mutable fields and append a new version carrying
    the new hash"; an update without [version_metadata] appends no version;
    the result is [null] when no record has the id. *)
Definition updateAgent (id : string) (u : AgentUpdate) : M (option AgentRecord) :=
  db_call (CUpdateAgent id (bool_decide (is_Some (upd_version_metadata u))))
    (fun w => match agents w !! id with
              | Some a => let a' := apply_update u a in
                          (Ok (Some a'), set_agents (insert id a') w)
              | None => (Ok None, w)
              end).

(** Modelled from the spec: [deleteAgent({id, author})] of ~/models/Agent. *)
Definition deleteAgent (id author : string) : M unit :=
  db_call (CDeleteAgent id)
    (fun w => match agents w !! id with
              | Some a => if String.eqb (ag_author a) author
                          then (Ok tt, set_agents (delete id) w)
                          else (Ok tt, w)
              | None => (Ok tt, w)
              end).

(** Modelled from the spec: [Agent.find({author})] of ~/db/models,
    "listAgentsByOwner(owner) -> AgentRecord[]". *)
Definition findAgents (author : string) : M (list AgentRecord) :=
  db_call CFindAgents
    (fun w => (Ok (filter (fun a => ag_author a = author)
                     (snd <$> map_to_list (agents w))), w)).

(** Modelled from the spec: [updateAction({action_id, user}, data)] of
    ~/models/Action, "Upsert the ActionRecord by id". *)
Definition updateAction (actionId usr : string) (actionData : ActionRecord)
  : M ActionRecord :=
  db_call (CUpdateAction actionId)
    (fun w => (Ok actionData, set_actions (insert (actionId, usr) actionData) w)).

(** Modelled from the spec: [deleteAction({action_id, user})] of ~/models/Action. *)
Definition deleteAction (actionId usr : string) : M unit :=
  db_call (CDeleteAction actionId)
    (fun w => (Ok tt, set_actions (delete (actionId, usr)) w)).

(** Modelled from the spec: [getAgent({id})] of ~/models/Agent, the lookup
    "getAgent(selector) -> AgentRecord|null" with a selector that names no
    owner; agents are keyed by [id]. *)
Definition getAgentById (id : string) : M (option AgentRecord) :=
  db_call (CGetAgent id) (fun w => (Ok (agents w !! id), w)).

(** [processIconFile(iconPath, agentId)] of processIconFile.js, through the
    avatar pipeline of the host. *)
Definition processIconFile (iconPath agentId : string) : M Avatar :=
  fun w => match avatar_pipeline (uploads w) iconPath agentId with
           | Ok (p, s) =>
               (Ok {| filepath := p; source := s |},
                {| agents := agents w; actions := actions w; trace := trace w;
                   uploads := S (uploads w) |})
           | Err e =>
               (Err (Error ("Failed to process icon file " +:+ iconPath +:+ ": "
                            +:+ message e)), w)
           end.

End WithHost.
End Store.

(** ** sync.js *)

(** An entry of [results.errors]: one per failed agent, or the
    [sync_failure] entry of the outer [catch].  The [stack] is not kept. *)
Inductive SyncError :=
| AgentError (agentId agentName : option string) (error : string)
| SyncFailure (error : string).

Record SyncResult := {
  success : bool;
  syncedCount : nat;
  removedCount : nat;
  sync_errors : list SyncError
}.

Module Sync.
Section WithHost.
Context `{Host}.

Definition getDefaultObjectId : string :=
  match DEFAULT_OBJECT_ID with
  | Some v => if String.eqb v "" then "000000000000000000000000" else v
  | None => "000000000000000000000000"
  end.

(** [`${v}`] for an optional string field. *)
Definition show (o : option string) : string := js_String (of_opt_string o).

Definition content_value (c : FileContent) : json :=
  match c with
  | Content v => v
  | Buffer bytes =>
      JObj [("type", JStr "Buffer");
            ("data", JArr (map (fun c => JNum (of_integer (Z.of_N (N_of_ascii c))))
                             (list_ascii_of_string bytes)))]
  end.

Definition as_string (v : json) : option string :=
  match v with JStr s => Some s | _ => None end.

Definition loadAgentFileContent (agentConfig : AgentConfig)
  : M (option string * option Avatar) :=
  let! instructions :=
    (if opt_truthy (cfg_instructionsFile agentConfig) then
       let! content := lift (LoadConfigFile.loadConfigFile
                               (show (cfg_instructionsFile agentConfig)) "text") in
       match ValidateConfigFile.validateInstructions (content_value content) 10000%N with
       | Invalid error => throw (Error ("Invalid instructions: " +:+ error))
       | Valid => ret (as_string (content_value content))
       end
     else if opt_truthy (cfg_instructions agentConfig) then
       match ValidateConfigFile.validateInstructions
               (of_opt_string (cfg_instructions agentConfig)) 10000%N with
       | Invalid error => throw (Error ("Invalid inline instructions: " +:+ error))
       | Valid => ret (cfg_instructions agentConfig)
       end
     else ret None) in
  let! avatar :=
    (if opt_truthy (cfg_iconFile agentConfig) then
       let! a := Store.processIconFile (show (cfg_iconFile agentConfig))
                   (show (cfg_id agentConfig)) in
       ret (Some a)
     else if opt_truthy (cfg_icon agentConfig) then
       ret (Some {| filepath := show (cfg_icon agentConfig); source := "inline" |})
     else ret None) in
  ret (instructions, avatar).

(** [typeof content === 'object'] *)
Definition typeof_object (v : json) : bool :=
  match v with JNull | JArr _ | JObj _ => true | _ => false end.

Definition loadActionSpec (actionConfig : ActionConfig) (agentId : string) : result json :=
  if opt_truthy (act_specFile actionConfig) then
    match LoadConfigFile.loadConfigFile (show (act_specFile actionConfig)) "auto" with
    | Err e => Err e
    | Ok content =>
        let v := content_value content in
        let spec := if typeof_object v then of_opt_string (stringify v) else v in
        match ValidateConfigFile.validateActionSpec spec "auto" with
        | Invalid error => Err (Error ("Invalid action spec: " +:+ error))
        | Valid => Ok spec
        end
    end
  else if opt_truthy (act_spec actionConfig) then
    let spec := of_opt_string (act_spec actionConfig) in
    match ValidateConfigFile.validateActionSpec spec "auto" with
    | Invalid error => Err (Error ("Invalid inline action spec: " +:+ error))
    | Valid => Ok spec
    end
  else Err (Error ("Action " +:+ show (act_domain actionConfig)
                   +:+ " must have either spec or specFile")).

(** The [metadata] object built for one action, before encryption. *)
Definition actionMetadata (actionConfig : ActionConfig) (spec : json)
  : list (string * json) :=
  let metadata := [("domain", of_opt_string (act_domain actionConfig)); ("raw_spec", spec)] in
  let metadata :=
    if opt_truthy (act_privacy_policy_url actionConfig)
    then set_prop metadata "privacy_policy_url"
           (of_opt_string (act_privacy_policy_url actionConfig))
    else metadata in
  match act_auth actionConfig with
  | Some auth => object_assign metadata auth
  | None => metadata
  end.

(** One turn of the [for] loop of [syncActions]. *)
Definition syncAction (agentId defaultObjectId : string) (actionConfig : ActionConfig)
  : M ActionRecord :=
  let! spec := lift (loadActionSpec actionConfig agentId) in
  let actionId := HashUtils.generateActionId (show (act_domain actionConfig)) agentId in
  let metadata := actionMetadata actionConfig spec in
  let! encryptedMetadata := lift (ActionService.encryptMetadata metadata) in
  let actionData := {| action_id := actionId; user := defaultObjectId;
                       agent_id := agentId; type := "action_prototype";
                       metadata := encryptedMetadata |} in
  Store.updateAction actionId defaultObjectId actionData.

Fixpoint syncActions_loop (agentId defaultObjectId : string)
    (actionsConfig : list ActionConfig) (syncedActions : list ActionRecord)
  : M (list ActionRecord) :=
  match actionsConfig with
  | [] => ret syncedActions
  | actionConfig :: rest =>
      let! action := syncAction agentId defaultObjectId actionConfig in
      syncActions_loop agentId defaultObjectId rest (syncedActions ++ [action])
  end.

Definition syncActions (agentId : string) (actionsConfig : option (list ActionConfig))
    (defaultObjectId : string) : M (list ActionRecord) :=
  match actionsConfig with
  | None | Some [] => ret []
  | Some actionsConfig => syncActions_loop agentId defaultObjectId actionsConfig []
  end.

Definition agentData (agentConfig : AgentConfig) (instructions : option string)
    (avatar : option Avatar) : AgentData :=
  {| name := cfg_name agentConfig;
     description := cfg_description agentConfig;
     instructions := instructions;
     avatar := avatar;
     provider := cfg_provider agentConfig;
     model := cfg_model agentConfig;
     category := if opt_truthy (cfg_category agentConfig)
                 then show (cfg_category agentConfig) else "general";
     model_parameters := cfg_model_parameters agentConfig;
     recursion_limit := cfg_recursion_limit agentConfig;
     tools := match cfg_tools agentConfig with Some l => l | None => [] end;
     tool_resources := cfg_tool_resources agentConfig |}.

Definition createDefaultAgent (agentConfig : AgentConfig) (instructions : option string)
    (avatar : option Avatar) (defaultObjectId : string) : M AgentRecord :=
  let! configHash :=
    lift (HashUtils.calculateAgentConfigHash agentConfig instructions avatar) in
  Store.createAgent (cfg_id agentConfig) (agentData agentConfig instructions avatar)
    defaultObjectId [] configHash.

(** Message of the [TypeError] raised by reading [.id] of [null]. *)
Definition null_id_type_error : string := "Cannot read properties of null (reading 'id')".

(** [agent.id] right after [agent = await updateAgent(...)]. *)
Definition read_updated (a : option AgentRecord) : M AgentRecord :=
  match a with
  | Some a => ret a
  | None => throw (Error null_id_type_error)
  end.

Definition updateDefaultAgent (existingAgent : AgentRecord) (agentConfig : AgentConfig)
    (instructions : option string) (avatar : option Avatar) (defaultObjectId : string)
  : M AgentRecord :=
  let! configHash :=
    lift (HashUtils.calculateAgentConfigHash agentConfig instructions avatar) in
  let! updatedAgent :=
    Store.updateAgent (ag_id existingAgent)
      {| upd_data := Some (agentData agentConfig instructions avatar);
         upd_version_metadata := Some configHash;
         upd_actions := None |} in
  read_updated updatedAgent.

(** [lastVersion?.version_metadata?.configHash] *)
Definition existingHash (existingAgent : AgentRecord) : option string :=
  match List.last (Some <$> ag_versions existingAgent) None with
  | Some lastVersion => configHash lastVersion
  | None => None
  end.

Definition syncAgent (agentConfig : AgentConfig) (defaultObjectId : string)
  : M AgentRecord :=
  let validation := ValidateConfigFile.validateAgentConfig agentConfig in
  if negb (cv_valid validation)
  then throw (Error ("Invalid agent configuration: " +:+ join ", " (errors validation)))
  else
    let! '(instructions, avatar) := loadAgentFileContent agentConfig in
    let! newConfigHash :=
      lift (HashUtils.calculateAgentConfigHash agentConfig instructions avatar) in
    let! existingAgent := Store.getAgent (show (cfg_id agentConfig)) defaultObjectId in
    let! agent :=
      match existingAgent with
      | Some existingAgent =>
          if opt_truthy (existingHash existingAgent)
             && HashUtils.hashesEqual (show (existingHash existingAgent)) newConfigHash
          then ret existingAgent
          else updateDefaultAgent existingAgent agentConfig instructions avatar
                 defaultObjectId
      | None => createDefaultAgent agentConfig instructions avatar defaultObjectId
      end in
    let! actions := syncActions (show (cfg_id agentConfig)) (cfg_actions agentConfig)
                      defaultObjectId in
    if Nat.ltb 0 (length actions) then
      let actionIds := map action_id actions in
      let! agent := Store.updateAgent (ag_id agent)
                      {| upd_data := None; upd_version_metadata := None;
                         upd_actions := Some actionIds |} in
      read_updated agent
    else ret agent.

(** The inner [for] loop of the cleanup: the actions of one removed agent. *)
Fixpoint deleteActions (actionIds : list string) (defaultObjectId : string) : M unit :=
  match actionIds with
  | [] => ret tt
  | actionId :: rest =>
      let! _ := Store.deleteAction actionId defaultObjectId in
      deleteActions rest defaultObjectId
  end.

(** The body of the [try] block for one removed agent. *)
Definition removeAgent (agent : AgentRecord) (defaultObjectId : string) : M unit :=
  let! _ := deleteActions (ag_actions agent) defaultObjectId in
  Store.deleteAgent (ag_id agent) defaultObjectId.

Fixpoint removeAgents (removedAgents : list AgentRecord) (defaultObjectId : string)
  : M unit :=
  match removedAgents with
  | [] => ret tt
  | agent :: rest =>
      let! _ := try_catch (removeAgent agent defaultObjectId)
                  (fun error => ret tt (* Continue with other agents even if one fails *)) in
      removeAgents rest defaultObjectId
  end.

(** [configuredAgentIds.includes(agent.id)] *)
Definition includes_id (configuredAgentIds : list (option string)) (id : string) : bool :=
  existsb (fun o => match o with Some i => String.eqb i id | None => false end)
    configuredAgentIds.

Definition cleanupRemovedAgents (configuredAgentIds : list (option string))
    (defaultObjectId : string) : M nat :=
  let! allDefaultAgents := Store.findAgents defaultObjectId in
  let removedAgents :=
    List.filter (fun agent => negb (includes_id configuredAgentIds (ag_id agent)))
      allDefaultAgents in
  match removedAgents with
  | [] => ret 0
  | _ =>
      let! _ := removeAgents removedAgents defaultObjectId in
      ret (length removedAgents)
  end.

Definition initialResults : SyncResult :=
  {| success := true; syncedCount := 0; removedCount := 0; sync_errors := [] |}.

Definition recordSynced (results : SyncResult) : SyncResult :=
  {| success := success results; syncedCount := S (syncedCount results);
     removedCount := removedCount results; sync_errors := sync_errors results |}.

Definition recordError (e : SyncError) (results : SyncResult) : SyncResult :=
  {| success := false; syncedCount := syncedCount results;
     removedCount := removedCount results; sync_errors := sync_errors results ++ [e] |}.

Definition recordRemoved (n : nat) (results : SyncResult) : SyncResult :=
  {| success := success results; syncedCount := syncedCount results;
     removedCount := n; sync_errors := sync_errors results |}.

(** The [for] loop over the declared agents; it never throws. *)
Fixpoint syncAgents (defaultAgents : list AgentConfig) (defaultObjectId : string)
    (results : SyncResult) (w : World) : SyncResult * World :=
  match defaultAgents with
  | [] => (results, w)
  | agentConfig :: rest =>
      match syncAgent agentConfig defaultObjectId w with
      | (Ok agent, w') => syncAgents rest defaultObjectId (recordSynced results) w'
      | (Err error, w') =>
          syncAgents rest defaultObjectId
            (recordError (AgentError (cfg_id agentConfig) (cfg_name agentConfig)
                            (message error)) results) w'
      end
  end.

(** [defaultAgents] is [config?.endpoints?.agents?.defaultAgents]. *)
Definition syncDefaultAgents (defaultAgents : option (list AgentConfig)) (w : World)
  : SyncResult * World :=
  let defaultObjectId := getDefaultObjectId in
  let results := initialResults in
  match defaultAgents with
  | None | Some [] => (results, w)
  | Some defaultAgents =>
      match syncAgents defaultAgents defaultObjectId results w with
      | (results, w') =>
          let configuredAgentIds := map cfg_id defaultAgents in
          match cleanupRemovedAgents configuredAgentIds defaultObjectId w' with
          | (Ok removedCount, w'') => (recordRemoved removedCount results, w'')
          | (Err error, w'') => (recordError (SyncFailure (message error)) results, w'')
          end
      end
  end.

End WithHost.
End Sync.

(** ** The access middleware

    checkDefaultAgentAccess.js and canAccessAgentResource.js.  A request
    carries the route parameters (strings), the [agent_id] of its body (a
    string when present), the authenticated user and the marks the
    middleware leaves on it.  A middleware ends by calling [next()], by
    sending a JSON response, or by handing the request to the generic
    [canAccessResource] check. *)

(** [req.user] *)
Record User := { user_id : option string; user_role : option string }.

(** [req.resourceAccess]; the database [_id] of the agent is not kept. *)
Record ResourceAccess := {
  customResourceId : string;
  permission : Z;
  userId : option string;
  resourceInfo : AgentRecord
}.

Record Request := {
  params : gmap string string;
  body_agent_id : option string;
  req_user : option User;
  isDefaultAgent : bool;
  defaultAgent : option AgentRecord;
  hasDefaultAgentAccess : bool;
  resourceAccess : option ResourceAccess
}.

Inductive Reply :=
| Next (req : Request)
| Json (status : nat) (error : string) (msg : string)
| CanAccessResource (req : Request).

Module Middleware.
Section WithHost.
Context `{Host}.

(** [a || b] on optional strings. *)
Definition or_else (a b : option string) : option string :=
  if opt_truthy a then a else b.

(** The three assignments of [checkDefaultAgentAccess] on a default agent. *)
Definition markDefaultAgent (req : Request) (agent : AgentRecord) : Request :=
  {| params := params req; body_agent_id := body_agent_id req; req_user := req_user req;
     isDefaultAgent := true;
     defaultAgent := Some agent;
     hasDefaultAgentAccess := true;
     resourceAccess := resourceAccess req |}.

Definition checkDefaultAgentAccess (req : Request) : M Reply :=
  try_catch
    (let agentId := or_else (or_else (params req !! "id") (params req !! "agent_id"))
                      (body_agent_id req) in
     if negb (opt_truthy agentId) then ret (Next req)
     else
       let defaultObjectId := Sync.getDefaultObjectId in
       let! agent := Store.getAgentById (Sync.show agentId) in
       match agent with
       | None => ret (Next req)
       | Some agent =>
           let isDefaultAgent := String.eqb (ag_author agent) defaultObjectId in
           if isDefaultAgent then ret (Next (markDefaultAgent req agent))
           else ret (Next req)
       end)
    (fun error => (* Don't fail the request *) ret (Next req)).

Definition preventDefaultAgentModification (req : Request) : Reply :=
  if isDefaultAgent req
  then Json 403 "Cannot modify default agents"
         "Default agents defined in configuration cannot be edited or deleted through the API"
  else Next req.

(** Message of the [TypeError] raised by [req.user.id] without a user. *)
Definition undefined_id_type_error : string :=
  "Cannot read properties of undefined (reading 'id')".

(** The assignments of [canAccessAgentResource] when access is granted. *)
Definition grantDefaultAgent (req : Request) (agent : AgentRecord) (agentCustomId : string)
    (requiredPermission : Z) (u : User) : Request :=
  {| params := params req; body_agent_id := body_agent_id req; req_user := req_user req;
     isDefaultAgent := true;
     defaultAgent := Some agent;
     hasDefaultAgentAccess := hasDefaultAgentAccess req;
     resourceAccess := Some {| customResourceId := agentCustomId;
                               permission := requiredPermission;
                               userId := user_id u;
                               resourceInfo := agent |} |}.

(** The factory throws on a missing permission; otherwise it returns the
    middleware. *)
Definition canAccessAgentResource (requiredPermission : Z) (resourceIdParam : string)
  : result (Request -> M Reply) :=
  if (requiredPermission =? 0)%Z
  then Err (Error "canAccessAgentResource: requiredPermission is required and must be a number")
  else Ok (fun req =>
    try_catch
      (let agentCustomId := params req !! resourceIdParam in
       if negb (opt_truthy agentCustomId)
       then ret (Json 400 "Bad Request" (resourceIdParam +:+ " is required"))
       else
         let! agent := Store.getAgentById (Sync.show agentCustomId) in
         match agent with
         | None => ret (Json 404 "Not Found" "agent not found")
         | Some agent =>
             let defaultObjectId := Sync.getDefaultObjectId in
             let isDefaultAgent := String.eqb (ag_author agent) defaultObjectId in
             if isDefaultAgent then
               let isReadOnlyPermission :=
                 ((requiredPermission =? 1) || (requiredPermission =? 16))%Z in
               if isReadOnlyPermission then
                 match req_user req with
                 | Some u => ret (Next (grantDefaultAgent req agent (Sync.show agentCustomId)
                                          requiredPermission u))
                 | None => throw (Error undefined_id_type_error)
                 end
               else ret (Json 403 "Forbidden" "Default agents cannot be modified or deleted")
             else ret (CanAccessResource req)
         end)
      (fun error => ret (Json 500 "Internal Server Error" "Failed to check agent access"))).

End WithHost.
End Middleware.

(** ** A concrete host for examples

    The digest is a stand-in that keeps the text (prefixed, so never empty);
    the only document the parser knows is one small OpenAPI description in
    YAML flow style; the file system has one file, /etc/passwd, and one
    directory, /app/config/specs, which can be found and not read; no
    persistence call fails. *)

Module Demo.

Definition petstore_text : string := "{openapi: 3.0.0, info: {title: pets}, paths: {}}".

Definition petstore : json :=
  JObj [("openapi", JStr "3.0.0"); ("info", JObj [("title", JStr "pets")]);
        ("paths", JObj [])].

Definition parse (s : string) : result json :=
  if String.eqb s petstore_text then Ok petstore
  else Err (Error "unexpected token").

Definition host : Host := {|
  sha256_hex := fun s => "sha256:" +:+ s;
  encryptV2 := fun s => Ok ("enc:" +:+ s);
  yaml_load := parse;
  json_parse := parse;
  fs_access := fun p => String.eqb p "/etc/passwd" || String.eqb p "/app/config/specs";
  fs_readFile := fun p encoding =>
    if String.eqb p "/etc/passwd" then Ok "root:x:0:0"
    else if String.eqb p "/app/config/specs"
         then Err (Error "EISDIR: illegal operation on a directory, read")
         else Err (Error ("ENOENT: no such file or directory, open '" +:+ p +:+ "'"));
  cwd := "/app/config";
  CONFIG_PATH := None;
  DEFAULT_OBJECT_ID := None;
  avatar_pipeline := fun n iconPath agentId =>
    Ok ("/images/agent-" +:+ agentId +:+ "-" +:+ nat_to_string n +:+ ".png", "local");
  db_fault := fun _ _ => None
|}.

(** The same host with a persistence layer that fails the calls [bad]. *)
Definition faulty (bad : Call -> bool) : Host := {|
  sha256_hex := @sha256_hex host;
  encryptV2 := @encryptV2 host;
  yaml_load := @yaml_load host;
  json_parse := @json_parse host;
  fs_access := @fs_access host;
  fs_readFile := @fs_readFile host;
  cwd := @cwd host;
  CONFIG_PATH := @CONFIG_PATH host;
  DEFAULT_OBJECT_ID := @DEFAULT_OBJECT_ID host;
  avatar_pipeline := @avatar_pipeline host;
  db_fault := fun _ c => if bad c then Some "connection lost" else None
|}.

Definition empty_world : World :=
  {| agents := ∅; actions := ∅; trace := []; uploads := 0 |}.

Definition agent (id : string) (acts : option (list ActionConfig)) : AgentConfig := {|
  cfg_id := Some id; cfg_name := Some "Support"; cfg_description := None;
  cfg_instructions := Some "Be kind."; cfg_instructionsFile := None;
  cfg_icon := None; cfg_iconFile := None;
  cfg_provider := Some "openai"; cfg_model := Some "gpt-4o"; cfg_category := None;
  cfg_model_parameters := None; cfg_recursion_limit := None; cfg_tools := None;
  cfg_actions := acts; cfg_tool_resources := None |}.

Definition action (domain : string) (auth : option (list (string * json))) : ActionConfig := {|
  act_domain := Some domain; act_spec := Some petstore_text; act_specFile := None;
  act_auth := auth; act_privacy_policy_url := None |}.

Definition system : string := "000000000000000000000000".

(** A stored agent, a stored action, and the store that holds just the two. *)
Definition record (id author : string) (actionIds : list string) : AgentRecord :=
  {| ag_id := id; ag_author := author;
     ag_data := Sync.agentData (agent id None) (Some "Be kind.") None;
     ag_actions := actionIds; ag_versions := [] |}.

Definition stored_action (actionId usr agentId : string) : ActionRecord :=
  {| action_id := actionId; user := usr; agent_id := agentId; type := "action_prototype";
     metadata := [("domain", JStr "api.example.com")] |}.

Definition store_of (a : AgentRecord) (x : ActionRecord) : World :=
  {| agents := {[ag_id a := a]}; actions := {[(action_id x, user x) := x]};
     trace := []; uploads := 0 |}.

(** An action whose inline spec does not parse. *)
Definition broken_action (domain : string) : ActionConfig := {|
  act_domain := Some domain; act_spec := Some "not a spec"; act_specFile := None;
  act_auth := None; act_privacy_policy_url := None |}.

(** A request for the route parameter [id]. *)
Definition request (id : string) (u : option User) : Request :=
  {| params := {["id" := id]}; body_agent_id := None; req_user := u;
     isDefaultAgent := false; defaultAgent := None; hasDefaultAgentAccess := false;
     resourceAccess := None |}.

(** The inverse of the stand-in cipher of [host]. *)
Definition decryptV2 (v : json) : result string :=
  match v with
  | JStr (String "e" (String "n" (String "c" (String ":" p)))) => Ok p
  | _ => Err (Error "Invalid encrypted value")
  end.

End Demo.

(** * Vocabulary of the properties *)

(** The fields of a declaration that [calculateAgentConfigHash] reads. *)
Definition hashed_fields (c : AgentConfig) :=
  (cfg_id c, cfg_name c, cfg_description c, cfg_instructions c, cfg_provider c,
   cfg_model c, cfg_category c, cfg_model_parameters c, cfg_recursion_limit c,
   cfg_tools c, cfg_tool_resources c, cfg_icon c).

(** The same declaration with another [actions] field. *)
Definition with_actions (c : AgentConfig) (acts : option (list ActionConfig)) : AgentConfig :=
  {| cfg_id := cfg_id c; cfg_name := cfg_name c; cfg_description := cfg_description c;
     cfg_instructions := cfg_instructions c; cfg_instructionsFile := cfg_instructionsFile c;
     cfg_icon := cfg_icon c; cfg_iconFile := cfg_iconFile c; cfg_provider := cfg_provider c;
     cfg_model := cfg_model c; cfg_category := cfg_category c;
     cfg_model_parameters := cfg_model_parameters c;
     cfg_recursion_limit := cfg_recursion_limit c; cfg_tools := cfg_tools c;
     cfg_actions := acts; cfg_tool_resources := cfg_tool_resources c |}.

(** The credential of a stored action, as it sits in the store. *)
Definition stored_credential (w : World) (actionId usr field : string) : option json :=
  (fun a => lookup_prop field (metadata a)) <$> (actions w !! (actionId, usr)).

(** Two values that differ only in the order in which their objects, at
    any depth, list their keys. *)
Inductive reorder : json -> json -> Prop :=
| reorder_refl v : reorder v v
| reorder_arr l1 l2 : Forall2 reorder l1 l2 -> reorder (JArr l1) (JArr l2)
| reorder_obj p1 p2 p3 :
    Forall2 (fun a b => fst a = fst b /\ reorder (snd a) (snd b)) p1 p2 ->
    Permutation p2 p3 ->
    reorder (JObj p1) (JObj p3).

(** An object has each key once, at every depth. *)
Fixpoint well_formed (v : json) : bool :=
  match v with
  | JArr items => forallb well_formed items
  | JObj props =>
      bool_decide (NoDup (keys props)) && forallb (fun p => well_formed (snd p)) props
  | _ => true
  end.

Definition opt_well_formed (o : option json) : bool :=
  match o with Some v => well_formed v | None => true end.

Definition opt_reorder (a b : option json) : Prop :=
  match a, b with
  | Some x, Some y => reorder x y
  | None, None => True
  | _, _ => False
  end.

(** Two declarations with the same hashed scalars and lists, whose
    [model_parameters] and [tool_resources] differ at most in key order. *)
Definition declaration_reorder (a b : AgentConfig) : Prop :=
  (cfg_id a, cfg_name a, cfg_description a, cfg_instructions a, cfg_provider a,
   cfg_model a, cfg_category a, cfg_recursion_limit a, cfg_tools a, cfg_icon a)
  = (cfg_id b, cfg_name b, cfg_description b, cfg_instructions b, cfg_provider b,
     cfg_model b, cfg_category b, cfg_recursion_limit b, cfg_tools b, cfg_icon b)
  /\ opt_reorder (cfg_model_parameters a) (cfg_model_parameters b)
  /\ opt_reorder (cfg_tool_resources a) (cfg_tool_resources b).

(** The same declaration with another [model_parameters] field. *)
Definition with_parameters (c : AgentConfig) (mp : option json) : AgentConfig :=
  {| cfg_id := cfg_id c; cfg_name := cfg_name c; cfg_description := cfg_description c;
     cfg_instructions := cfg_instructions c; cfg_instructionsFile := cfg_instructionsFile c;
     cfg_icon := cfg_icon c; cfg_iconFile := cfg_iconFile c; cfg_provider := cfg_provider c;
     cfg_model := cfg_model c; cfg_category := cfg_category c;
     cfg_model_parameters := mp;
     cfg_recursion_limit := cfg_recursion_limit c; cfg_tools := cfg_tools c;
     cfg_actions := cfg_actions c; cfg_tool_resources := cfg_tool_resources c |}.

(** Every stored agent sits under its own [id]. *)
Definition keyed (w : World) : Prop :=
  forall k r, agents w !! k = Some r -> ag_id r = k.

(** The ids [syncActions] gives to the declared actions of an agent. *)
Definition declared_action_ids (c : AgentConfig) : list string :=
  map (fun a => HashUtils.generateActionId (Sync.show (act_domain a)) (Sync.show (cfg_id c)))
    (default [] (cfg_actions c)).

(** The action-id list stored for an agent before a pass. *)
Definition prior_actions (w : World) (id : string) : list string :=
  match agents w !! id with Some a => ag_actions a | None => [] end.

Definition is_agent_error (e : SyncError) : bool :=
  match e with AgentError _ _ _ => true | SyncFailure _ => false end.

(** The entries of [results.errors] that belong to a declared agent. *)
Definition agent_errors (r : SyncResult) : list SyncError :=
  List.filter is_agent_error (sync_errors r).

(** The stored agents that cleanup takes for removed: system-owned, with an
    id that is not declared. *)
Definition orphans (configuredAgentIds : list (option string)) (owner : string) (w : World)
  : list AgentRecord :=
  List.filter (fun agent => negb (Sync.includes_id configuredAgentIds (ag_id agent)))
    (filter (fun a => ag_author a = owner) (snd <$> map_to_list (agents w))).

(** Calls that write to the store. *)
Definition is_write (c : Call) : bool :=
  match c with
  | CGetAgent _ | CFindAgents => false
  | _ => true
  end.

(** The writes a pass may repeat on an unchanged configuration: the upsert
    of a declared action and the rewrite of an agent's action-id list. *)
Definition is_action_refresh (c : Call) : bool :=
  match c with
  | CUpdateAction _ | CUpdateAgent _ false => true
  | _ => false
  end.

(** The completed writes among some events. *)
Definition completed_writes (evs : list Event) : list Call :=
  map ev_call (List.filter (fun e => ev_ok e && is_write (ev_call e)) evs).

(** The events a run added to the trace. *)
Definition new_events (before after : World) : list Event :=
  drop (length (trace before)) (trace after).

(** What one step of a pass may do to the agents when it works on [i]:
    other ids keep their record, no record disappears or changes owner, and
    every record stays under its id. *)
Definition touches_only (i : string) (w w1 : World) : Prop :=
  (keyed w -> keyed w1)
  /\ (forall k, k <> i -> agents w1 !! k = agents w !! k)
  /\ (forall k a, agents w !! k = Some a ->
        exists a', agents w1 !! k = Some a' /\ ag_author a' = ag_author a).

(** No call to the persistence layer fails. *)
Definition fault_free `{Host} : Prop := forall t c, db_fault t c = None.

(** A digest is never the empty string (a SHA-256 digest has 64 hex digits). *)
Definition digest_nonempty `{Host} : Prop := forall s, sha256_hex s <> "".

(** The two halves of [syncAgent] after the hash is computed: bringing the
    agent record up to date, then reconciling its actions. *)
Definition ensureAgent `{Host} (agentConfig : AgentConfig) (defaultObjectId : string)
    (instructions : option string) (avatar : option Avatar) (newConfigHash : string)
  : M AgentRecord :=
  let! existingAgent := Store.getAgent (Sync.show (cfg_id agentConfig)) defaultObjectId in
  match existingAgent with
  | Some existingAgent =>
      if opt_truthy (Sync.existingHash existingAgent)
         && HashUtils.hashesEqual (Sync.show (Sync.existingHash existingAgent)) newConfigHash
      then ret existingAgent
      else Sync.updateDefaultAgent existingAgent agentConfig instructions avatar
             defaultObjectId
  | None => Sync.createDefaultAgent agentConfig instructions avatar defaultObjectId
  end.

Definition attachActions `{Host} (agentConfig : AgentConfig) (defaultObjectId : string)
    (agent : AgentRecord) : M AgentRecord :=
  let! actions := Sync.syncActions (Sync.show (cfg_id agentConfig)) (cfg_actions agentConfig)
                    defaultObjectId in
  if Nat.ltb 0 (length actions) then
    let actionIds := map action_id actions in
    let! agent := Store.updateAgent (ag_id agent)
                    {| upd_data := None; upd_version_metadata := None;
                       upd_actions := Some actionIds |} in
    Sync.read_updated agent
  else ret agent.

(** The writes a pass repeats for an agent it reconciles again: one upsert
    for each declared action, in order, then the rewrite of the action-id
    list when the agent declares an action. *)
Definition refresh_calls (agentConfig : AgentConfig) : list Call :=
  map CUpdateAction (declared_action_ids agentConfig)
  ++ match declared_action_ids agentConfig with
     | [] => []
     | _ => [CUpdateAgent (Sync.show (cfg_id agentConfig)) false]
     end.

(** The writes completed for one agent by a pass that repeats another:
    all of [refresh_calls] when the agent reconciles, and otherwise upserts
    of the actions declared before the point of failure. *)
Definition repeated (agentConfig : AgentConfig) (ok : bool) (writes : list Call) : Prop :=
  if ok then writes = refresh_calls agentConfig
  else writes `prefix_of` map CUpdateAction (declared_action_ids agentConfig).

(** An entry of [results.errors] carries the id of the declaration. *)
Definition has_error (results : SyncResult) (agentConfig : AgentConfig) : bool :=
  existsb (fun e => match e with
                    | AgentError agentId _ _ => bool_decide (agentId = cfg_id agentConfig)
                    | SyncFailure _ => false
                    end) (sync_errors results).

(** Events of a pass that changes nothing but refreshes declared actions. *)
Definition quiet (agentConfig : AgentConfig) (evs : list Event) : Prop :=
  Forall (fun c => is_action_refresh c = true) (completed_writes evs)
  /\ (declared_action_ids agentConfig = [] -> completed_writes evs = []).

(** The record [syncAgent] ends with, given the actions that were synced. *)
Definition refreshed (synced : list ActionRecord) (agent : AgentRecord) : AgentRecord :=
  match synced with
  | [] => agent
  | _ => Store.apply_update
           {| upd_data := None; upd_version_metadata := None;
              upd_actions := Some (map action_id synced) |} agent
  end.

(** A string with a code point that is not white space. *)
Definition not_blank (s : string) : bool :=
  existsb (fun p => negb (is_white_space (fst p))) (code_points s).

(** A key other than [__proto__]. *)
Definition own_key (k : string) : bool := negb (String.eqb k "__proto__").

(** The properties of a list under a key other than [__proto__]. *)
Definition own_props (props : list (string * json)) : list (string * json) :=
  List.filter (fun p => own_key (fst p)) props.

(** A value without the properties named [__proto__], at every depth. *)
Fixpoint without_proto (v : json) : json :=
  match v with
  | JArr items => JArr (map without_proto items)
  | JObj props => JObj (own_props (map (fun p => (fst p, without_proto (snd p))) props))
  | _ => v
  end.

(** The order of [Array.prototype.sort()] on strings. *)
Definition units_le (a b : string) : Prop := units_leb a b = true.

(** The sorted values of an object, as [sortObject] reads them back. *)
Definition sorted_values (props : list (string * json)) : list (string * json) :=
  map (fun p => match p with (k, v) => (k, HashUtils.sortObject v) end) props.

(** Induction on JSON values. *)

Section JsonInduction.

Variable P : json -> Prop.
Hypothesis Hundefined : P JUndefined.
Hypothesis Hnull : P JNull.
Hypothesis Hbool : forall b, P (JBool b).
Hypothesis Hnum : forall n, P (JNum n).
Hypothesis Hstr : forall s, P (JStr s).
Hypothesis Harr : forall items, Forall P items -> P (JArr items).
Hypothesis Hobj : forall props, Forall (fun p => P (snd p)) props -> P (JObj props).

(** Induction on a value with the hypothesis for every element and every
    property value. *)
Fixpoint json_nested_ind (v : json) : P v :=
  match v with
  | JUndefined => Hundefined
  | JNull => Hnull
  | JBool b => Hbool b
  | JNum n => Hnum n
  | JStr s => Hstr s
  | JArr items =>
      Harr items
        ((fix go (l : list json) : Forall P l :=
            match l with
            | [] => List.Forall_nil P
            | x :: rest => @List.Forall_cons _ P x rest (json_nested_ind x) (go rest)
            end) items)
  | JObj props =>
      Hobj props
        ((fix go (l : list (string * json)) : Forall (fun p => P (snd p)) l :=
            match l with
            | [] => List.Forall_nil _
            | p :: rest => @List.Forall_cons _ _ p rest (json_nested_ind (snd p)) (go rest)
            end) props)
  end.

End JsonInduction.

(** What counts as an attempt to remove [agent]: a call to delete it, or
    the failed deletion of one of its actions. *)
Definition removal_attempt (agent : AgentRecord) (e : Event) : Prop :=
  ev_call e = CDeleteAgent (ag_id agent)
  \/ (ev_ok e = false /\ exists x, In x (ag_actions agent) /\ ev_call e = CDeleteAction x).

(** The same declaration with another [iconFile] field. *)
Definition with_iconFile (c : AgentConfig) (f : option string) : AgentConfig :=
  {| cfg_id := cfg_id c; cfg_name := cfg_name c; cfg_description := cfg_description c;
     cfg_instructions := cfg_instructions c; cfg_instructionsFile := cfg_instructionsFile c;
     cfg_icon := cfg_icon c; cfg_iconFile := f; cfg_provider := cfg_provider c;
     cfg_model := cfg_model c; cfg_category := cfg_category c;
     cfg_model_parameters := cfg_model_parameters c;
     cfg_recursion_limit := cfg_recursion_limit c; cfg_tools := cfg_tools c;
     cfg_actions := cfg_actions c; cfg_tool_resources := cfg_tool_resources c |}.

(** The number of versions stored for an agent. *)
Definition version_count (w : World) (id : string) : nat :=
  match agents w !! id with Some a => length (ag_versions a) | None => 0 end.

(** A string of well-formed UTF-8: the bytes of a JavaScript string that
    has no lone surrogate. *)
Fixpoint utf8 (s : string) : bool :=
  match s with
  | EmptyString => true
  | String c0 rest =>
      let b0 := N_of_ascii c0 in
      match leading_ones b0 with
      | 0 => utf8 rest
      | 2 => match rest with
             | String c1 rest' => utf8_code_point [b0; N_of_ascii c1] && utf8 rest'
             | _ => false
             end
      | 3 => match rest with
             | String c1 (String c2 rest') =>
                 utf8_code_point [b0; N_of_ascii c1; N_of_ascii c2] && utf8 rest'
             | _ => false
             end
      | 4 => match rest with
             | String c1 (String c2 (String c3 rest')) =>
                 utf8_code_point [b0; N_of_ascii c1; N_of_ascii c2; N_of_ascii c3]
                 && utf8 rest'
             | _ => false
             end
      | _ => false
      end
  end.

(** A credential field that is absent or falsy, or else a string of
    well-formed UTF-8. *)
Definition text_credential (v : json) : Prop :=
  truthy v = true -> exists s, v = JStr s /\ utf8 s = true.

(** A string without the separator that [generateActionId] inserts. *)
Definition no_underscore (s : string) : bool :=
  forallb (fun c => negb (Ascii.eqb c "_"%char)) (list_ascii_of_string s).

(** What [calculateActionMetadataHash] reads of a declared action: the
    domain, the inline spec when there is one, and the type of the auth
    block. *)
Definition hashed_action_fields (a : ActionConfig) :=
  (act_domain a, (if opt_truthy (act_spec a) then act_spec a else None),
   HashUtils.auth_type a).

(** [errors.length === 0] *)
Definition is_nil {A} (l : list A) : bool :=
  match l with [] => true | _ => false end.

(** The declarations the validators accept. *)
Definition auth_accepted (auth : list (string * json)) : bool :=
  let type := lookup_prop "type" auth in
  truthy type
  && (is_string type "service_http" || is_string type "oauth" || is_string type "none")
  && (if is_string type "oauth"
      then truthy (lookup_prop "client_url" auth)
           && truthy (lookup_prop "authorization_url" auth)
      else true).

Definition action_accepted (a : ActionConfig) : bool :=
  opt_truthy (act_domain a)
  && (opt_truthy (act_spec a) || opt_truthy (act_specFile a))
  && match act_auth a with Some auth => auth_accepted auth | None => true end.

Definition agent_accepted (c : AgentConfig) : bool :=
  opt_truthy (cfg_id c) && opt_truthy (cfg_name c)
  && opt_truthy (cfg_provider c) && opt_truthy (cfg_model c)
  && (opt_truthy (cfg_instructions c) || opt_truthy (cfg_instructionsFile c))
  && forallb action_accepted (default [] (cfg_actions c)).

(** The credential fields that [encryptMetadata] and [decryptMetadata] work
    on for a metadata object: [api_key] under a nested [service_http] auth
    block, the two OAuth secrets under a nested [oauth] one. *)
Definition sealed_fields (md : list (string * json)) : list string :=
  let auth := lookup_prop "auth" md in
  if truthy auth && is_string (get "type" auth) ActionService.ServiceHttp
  then ["api_key"]
  else if truthy auth && is_string (get "type" auth) ActionService.OAuth
       then ["oauth_client_id"; "oauth_client_secret"]
       else [].

(** The record [syncActions] builds for a declared action. *)
Definition action_record_of `{Host} (agentId owner : string) (c : ActionConfig)
    (r : ActionRecord) : Prop :=
  exists spec enc,
    Sync.loadActionSpec c agentId = Ok spec
    /\ ActionService.encryptMetadata (Sync.actionMetadata c spec) = Ok enc
    /\ r = {| action_id := HashUtils.generateActionId (Sync.show (act_domain c)) agentId;
              user := owner; agent_id := agentId; type := "action_prototype";
              metadata := enc |}.

(** An entry of [results.errors] that names one of the declared agents. *)
Definition error_of (l : list AgentConfig) (e : SyncError) : Prop :=
  exists c msg, In c l /\ e = AgentError (cfg_id c) (cfg_name c) msg.

(** The agent id [checkDefaultAgentAccess] reads off a request. *)
Definition requested_agent (req : Request) : option string :=
  Middleware.or_else (Middleware.or_else (params req !! "id") (params req !! "agent_id"))
    (body_agent_id req).

(** * Properties *)

(** ** Action identifiers *)

(** C10. The action id is the concatenation [domain + "_" + agentId]; the
    pairs ("a", "b_c") and ("a_b", "c") differ and get the same id, and when
    both are synced the record of the first agent is replaced by the record
    of the second under that one key. *)
Theorem generateActionId_collides :
  (forall domain agentId,
      HashUtils.generateActionId domain agentId = domain +:+ "_" +:+ agentId)
  /\ ("a", "b_c") <> ("a_b", "c")
  /\ HashUtils.generateActionId "a" "b_c" = HashUtils.generateActionId "a_b" "c"
  /\ (let w1 := snd (@Sync.syncActions Demo.host "b_c" (Some [Demo.action "a" None])
                       Demo.system Demo.empty_world) in
      let w2 := snd (@Sync.syncActions Demo.host "c" (Some [Demo.action "a_b" None])
                       Demo.system w1) in
      agent_id <$> (actions w1 !! ("a_b_c", Demo.system)) = Some "b_c"
      /\ agent_id <$> (actions w2 !! ("a_b_c", Demo.system)) = Some "c"
      /\ size (actions w2) = 1).
Proof.
  split; [reflexivity|].
  split; [discriminate|].
  split; [reflexivity|].
  vm_compute. repeat split.
Qed.

(** ** The agent hash reads twelve fields *)

Section AgentHashFacts.
Context `{Host}.

Lemma hashData_fields a b instr av1 av2 :
  hashed_fields a = hashed_fields b ->
  filepath <$> av1 = filepath <$> av2 ->
  HashUtils.hashData a instr av1 = HashUtils.hashData b instr av2.
Proof.
  unfold hashed_fields, HashUtils.hashData. intros Hf Hav.
  injection Hf as -> -> -> -> -> -> -> -> -> -> -> ->.
  destruct av1 as [[p1 s1]|], av2 as [[p2 s2]|]; simpl in Hav; try discriminate.
  - injection Hav as ->. reflexivity.
  - reflexivity.
Qed.

(** C7. The agent hash depends on the declaration only through [id], [name],
    [description], [instructions], [provider], [model], [category],
    [model_parameters], [recursion_limit], [tools], [tool_resources] and the
    avatar path: two declarations that agree on them, with the same resolved
    instructions and avatar path, have the same hash, whatever their
    [actions] are. *)
Theorem agent_hash_ignores_actions a b instr av1 av2 :
  hashed_fields a = hashed_fields b ->
  filepath <$> av1 = filepath <$> av2 ->
  HashUtils.calculateAgentConfigHash a instr av1
  = HashUtils.calculateAgentConfigHash b instr av2.
Proof.
  intros Hf Hav. unfold HashUtils.calculateAgentConfigHash.
  by rewrite (hashData_fields a b instr av1 av2 Hf Hav).
Qed.

(** An edit of [actions] alone leaves the hash as it was. *)
Lemma agent_hash_with_actions c acts instr av :
  HashUtils.calculateAgentConfigHash (with_actions c acts) instr av
  = HashUtils.calculateAgentConfigHash c instr av.
Proof. reflexivity. Qed.

End AgentHashFacts.

Lemma agent_hash_ignores_actions_witness :
  hashed_fields (Demo.agent "support" (Some [Demo.action "api.example.com" None]))
  = hashed_fields (Demo.agent "support" None)
  /\ @HashUtils.calculateAgentConfigHash Demo.host
    (Demo.agent "support" (Some [Demo.action "api.example.com" None])) (Some "Be kind.") None
  = @HashUtils.calculateAgentConfigHash Demo.host
      (Demo.agent "support" None) (Some "Be kind.") None.
Proof.
  split; [reflexivity|].
  apply (@agent_hash_ignores_actions Demo.host); reflexivity.
Defined.

(** ** The path check of [loadConfigFile] *)

Section PathFacts.
Context `{Host}.

Lemma resolve_isAbsolute args : PosixPath.isAbsolute (PosixPath.resolve args) = true.
Proof. reflexivity. Qed.

(** A resolved path is absolute, so [validateFilePath] returns at its first
    test when it is handed one. *)
Lemma validateFilePath_resolved_passes filePath :
  LoadConfigFile.validateFilePath (LoadConfigFile.resolveConfigFilePath filePath)
    LoadConfigFile.configDir = Ok tt.
Proof.
  unfold LoadConfigFile.validateFilePath, LoadConfigFile.resolveConfigFilePath.
  destruct (PosixPath.isAbsolute filePath) eqn:E.
  - by rewrite E.
  - by rewrite resolve_isAbsolute.
Qed.

End PathFacts.

(** C4. With the base directory /app/config, the relative path
    ../../etc/passwd resolves to /etc/passwd, which is outside the base
    directory; [loadConfigFile] raises no path-traversal error and returns the
    content of the file.  The check it runs is handed the resolved path and
    passes for every input. *)
Theorem loadConfigFile_reads_outside_base :
  PosixPath.isAbsolute "../../etc/passwd" = false
  /\ @LoadConfigFile.resolveConfigFilePath Demo.host "../../etc/passwd" = "/etc/passwd"
  /\ PosixPath.startsWith "/etc/passwd" (@LoadConfigFile.configDir Demo.host) = false
  /\ @LoadConfigFile.loadConfigFile Demo.host "../../etc/passwd" "text"
     = Ok (Content (JStr "root:x:0:0"))
  /\ (forall (h : Host) filePath,
         @LoadConfigFile.validateFilePath h
           (@LoadConfigFile.resolveConfigFilePath h filePath)
           (@LoadConfigFile.configDir h) = Ok tt).
Proof.
  repeat split; try reflexivity.
  intros h filePath. apply validateFilePath_resolved_passes.
Qed.

(** The check on its own does reject a relative path that resolves outside
    the base directory, and it compares by prefix: the sibling directory
    /app/config-evil passes for the base /app/config. *)
Example validateFilePath_on_relative_paths :
  @LoadConfigFile.validateFilePath Demo.host "../x" "/app/config"
  = Err (Error "Path traversal detected: ../x attempts to access files outside base directory")
  /\ @LoadConfigFile.validateFilePath Demo.host "../config-evil/x" "/app/config" = Ok tt.
Proof. split; reflexivity. Qed.

(** ** Property lists *)

Section PropFacts.

Lemma has_key_false_lookup k props :
  has_key k props = false -> lookup_prop k props = JUndefined.
Proof.
  induction props as [|[k' v'] rest IH]; simpl; [done|].
  intros Hk. apply orb_false_iff in Hk as [Hk Hrest].
  rewrite Hk. auto.
Qed.

Lemma lookup_replace_prop_ne k k' v props :
  k <> k' -> lookup_prop k (replace_prop k' v props) = lookup_prop k props.
Proof.
  intros Hne. induction props as [|[k2 v2] rest IH]; simpl; [done|].
  destruct (String.eqb k' k2) eqn:E; simpl.
  - apply String.eqb_eq in E as <-.
    by rewrite (proj2 (String.eqb_neq k k') Hne).
  - by rewrite IH.
Qed.

Lemma lookup_insert_index_ne k k' i v props :
  k <> k' -> lookup_prop k (insert_index i k' v props) = lookup_prop k props.
Proof.
  intros Hne. induction props as [|[k2 v2] rest IH]; simpl.
  - by rewrite (proj2 (String.eqb_neq k k') Hne).
  - destruct (array_index k2) as [j|]; simpl.
    + destruct (j <? i)%N; simpl.
      * by rewrite IH.
      * by rewrite (proj2 (String.eqb_neq k k') Hne).
    + by rewrite (proj2 (String.eqb_neq k k') Hne).
Qed.

Lemma lookup_app_ne k k' v props :
  k <> k' -> lookup_prop k (props ++ [(k', v)]) = lookup_prop k props.
Proof.
  intros Hne. induction props as [|[k2 v2] rest IH]; simpl.
  - by rewrite (proj2 (String.eqb_neq k k') Hne).
  - by rewrite IH.
Qed.

(** Writing one property leaves the others as they were. *)
Lemma lookup_set_prop_ne k k' v props :
  k <> k' -> lookup_prop k (set_prop props k' v) = lookup_prop k props.
Proof.
  intros Hne. unfold set_prop.
  destruct (has_key k' props).
  - by apply lookup_replace_prop_ne.
  - destruct (String.eqb k' "__proto__"); [done|]. destruct (array_index k').
    + by apply lookup_insert_index_ne.
    + by apply lookup_app_ne.
Qed.

Lemma lookup_object_assign_absent k target source :
  has_key k source = false ->
  lookup_prop k (object_assign target source) = lookup_prop k target.
Proof.
  unfold object_assign. revert target.
  induction source as [|[k' v'] rest IH]; intros target Hk; simpl; [done|].
  simpl in Hk. apply orb_false_iff in Hk as [Hk Hrest].
  rewrite IH by done. simpl.
  apply lookup_set_prop_ne. by apply String.eqb_neq.
Qed.

End PropFacts.

(** ** Credentials of synced actions *)

Section EncryptionFacts.
Context `{Host}.

(** Without an [auth] property in the metadata, [encryptMetadata] encrypts
    nothing. *)
Lemma encryptMetadata_without_auth md :
  truthy (lookup_prop "auth" md) = false ->
  ActionService.encryptMetadata md = Ok md.
Proof. intros Hk. unfold ActionService.encryptMetadata. by rewrite Hk. Qed.

(** [syncActions] spreads the [auth] block into the metadata, so the
    metadata has an [auth] property only when the block itself has one. *)
Lemma actionMetadata_auth actionConfig spec :
  (forall auth, act_auth actionConfig = Some auth -> has_key "auth" auth = false) ->
  lookup_prop "auth" (Sync.actionMetadata actionConfig spec) = JUndefined.
Proof.
  intros Hauth. unfold Sync.actionMetadata.
  set (md0 := [("domain", _); ("raw_spec", spec)]).
  assert (Hmd : forall md, lookup_prop "auth" md = JUndefined ->
            lookup_prop "auth"
              (match act_auth actionConfig with
               | Some auth => object_assign md auth
               | None => md
               end) = JUndefined).
  { intros md Hmd. destruct (act_auth actionConfig) as [auth|] eqn:E; [|done].
    rewrite lookup_object_assign_absent; [done|]. by apply Hauth. }
  apply Hmd. destruct (opt_truthy _); [|done].
  by rewrite lookup_set_prop_ne.
Qed.

(** What [syncActions] persists for an [auth] block of the documented shape
    is the metadata as declared. *)
Lemma syncActions_metadata_unencrypted actionConfig spec :
  (forall auth, act_auth actionConfig = Some auth -> has_key "auth" auth = false) ->
  ActionService.encryptMetadata (Sync.actionMetadata actionConfig spec)
  = Ok (Sync.actionMetadata actionConfig spec).
Proof.
  intros Hauth. apply encryptMetadata_without_auth.
  by rewrite actionMetadata_auth.
Qed.

End EncryptionFacts.

Section AbsentCredentials.
Context `{Host}.

Lemma has_key_replace_prop k k' v props :
  has_key k (replace_prop k' v props) = has_key k props.
Proof.
  induction props as [|[k2 v2] rest IH]; simpl; [done|].
  destruct (String.eqb k' k2); simpl; [done|]. by rewrite IH.
Qed.

Lemma has_key_insert_index k k' i v props :
  k <> k' -> has_key k (insert_index i k' v props) = has_key k props.
Proof.
  intros Hne. apply String.eqb_neq in Hne.
  induction props as [|[k2 v2] rest IH]; simpl; [by rewrite Hne|].
  destruct (array_index k2) as [j|]; [destruct (j <? i)%N|]; simpl;
    rewrite ?IH, ?Hne; done.
Qed.

Lemma has_key_set_prop_ne k k' v props :
  k <> k' -> has_key k (set_prop props k' v) = has_key k props.
Proof.
  intros Hne. unfold set_prop. destruct (has_key k' props).
  - apply has_key_replace_prop.
  - destruct (String.eqb k' "__proto__"); [done|]. destruct (array_index k').
    + by apply has_key_insert_index.
    + unfold has_key. rewrite existsb_app. simpl.
      rewrite (proj2 (String.eqb_neq k k') Hne). by rewrite !orb_false_r.
Qed.

Lemma encryptField_keeps_absent md k0 k enc r :
  has_key k md = false -> has_key k enc = false ->
  ActionService.encryptField md k0 enc = Ok r ->
  has_key k r = false.
Proof.
  intros Hmd Henc. unfold ActionService.encryptField.
  destruct (decide (k = k0)) as [->|Hne].
  - rewrite (has_key_false_lookup _ _ Hmd). simpl. by intros [= <-].
  - destruct (truthy (lookup_prop k0 md)); [|by intros [= <-]].
    destruct (ActionService.encryptSensitiveValue _); [|done].
    intros [= <-]. by rewrite has_key_set_prop_ne.
Qed.

(** A field that the metadata does not have is not there after
    [encryptMetadata] either: nothing is encrypted as empty. *)
Lemma encryptMetadata_keeps_absent md k r :
  has_key k md = false ->
  ActionService.encryptMetadata md = Ok r ->
  has_key k r = false.
Proof.
  intros Hmd. unfold ActionService.encryptMetadata.
  destruct (truthy (lookup_prop "auth" md) && _).
  - by apply encryptField_keeps_absent.
  - destruct (truthy (lookup_prop "auth" md) && _); [|by intros [= <-]].
    destruct (ActionService.encryptField md "oauth_client_id" md) as [enc|e] eqn:E; [|done].
    apply encryptField_keeps_absent; [done|].
    by apply (encryptField_keeps_absent md "oauth_client_id" k md enc).
Qed.

End AbsentCredentials.

(** C1. An action declared with [auth: {type: service_http, api_key: sk-123}]
    is persisted by [syncActions] with [api_key] equal to the declared text
    sk-123, not to the ciphertext of the encryption collaborator; the same
    holds for [oauth_client_id] and [oauth_client_secret] of an oauth
    action. *)
Theorem syncActions_stores_plaintext_credentials :
  let declared :=
    [Demo.action "api.example.com"
       (Some [("type", JStr "service_http"); ("api_key", JStr "sk-123")]);
     Demo.action "crm.example.com"
       (Some [("type", JStr "oauth"); ("client_url", JStr "https://crm.example.com/a");
              ("authorization_url", JStr "https://crm.example.com/t");
              ("oauth_client_id", JStr "cid"); ("oauth_client_secret", JStr "shh")])] in
  let run := @Sync.syncActions Demo.host "support" (Some declared) Demo.system
               Demo.empty_world in
  is_ok (fst run) = true
  /\ stored_credential (snd run) "api.example.com_support" Demo.system "api_key"
     = Some (JStr "sk-123")
  /\ stored_credential (snd run) "crm.example.com_support" Demo.system "oauth_client_id"
     = Some (JStr "cid")
  /\ stored_credential (snd run) "crm.example.com_support" Demo.system "oauth_client_secret"
     = Some (JStr "shh")
  /\ @ActionService.encryptSensitiveValue Demo.host (JStr "sk-123") = Ok "enc:sk-123".
Proof. vm_compute. repeat split. Qed.

(** ** Key order and the hash *)

Section UnitOrder.

Lemma compare_units_refl l : compare_units l l = Eq.
Proof. induction l as [|x l IH]; [done|]. cbn. by rewrite N.compare_refl. Qed.

Lemma compare_units_eq l1 l2 : compare_units l1 l2 = Eq -> l1 = l2.
Proof.
  revert l2. induction l1 as [|x l1 IH]; intros [|y l2]; cbn; try done.
  destruct (x ?= y)%N eqn:E; try done.
  apply N.compare_eq in E as ->. by intros ->%IH.
Qed.

Lemma compare_units_antisym l1 l2 :
  compare_units l2 l1 = CompOpp (compare_units l1 l2).
Proof.
  revert l2. induction l1 as [|x l1 IH]; intros [|y l2]; cbn; try done.
  rewrite (N.compare_antisym x y). destruct (x ?= y)%N; cbn; [apply IH|done|done].
Qed.

Lemma compare_units_trans l1 l2 l3 :
  compare_units l1 l2 = Lt -> compare_units l2 l3 = Lt -> compare_units l1 l3 = Lt.
Proof.
  revert l2 l3. induction l1 as [|x l1 IH]; intros [|y l2] [|z l3]; cbn; try done.
  destruct (x ?= y)%N eqn:Exy; try done.
  - apply N.compare_eq in Exy as ->. destruct (y ?= z)%N; try done. apply IH.
  - intros _. destruct (y ?= z)%N eqn:Eyz; try done.
    + apply N.compare_eq in Eyz as <-. by rewrite Exy.
    + intros _. assert ((x ?= z)%N = Lt) as ->; [|done].
      apply N.compare_lt_iff. etrans; by apply N.compare_lt_iff.
Qed.

Lemma units_le_total : Total units_le.
Proof.
  intros a b. unfold units_le, units_leb, compare_strings.
  pose proof (compare_units_antisym (code_units a) (code_units b)) as Hu.
  pose proof (String.compare_antisym b a) as Hs.
  destruct (compare_units (code_units a) (code_units b)),
    (compare_units (code_units b) (code_units a)); try done; auto.
  destruct (String.compare a b), (String.compare b a); try done; auto.
Qed.

Lemma units_le_antisym : AntiSymm (=) units_le.
Proof.
  intros a b. unfold units_le, units_leb, compare_strings.
  pose proof (compare_units_antisym (code_units a) (code_units b)) as Hu.
  pose proof (String.compare_antisym b a) as Hs.
  destruct (compare_units (code_units a) (code_units b)),
    (compare_units (code_units b) (code_units a)); try done.
  destruct (String.compare a b) eqn:E, (String.compare b a); try done.
  intros _ _. by apply String.compare_eq_iff.
Qed.

Lemma units_le_trans : Transitive units_le.
Proof.
  intros a b c. unfold units_le, units_leb, compare_strings.
  destruct (compare_units (code_units a) (code_units b)) eqn:Eab; try done;
    destruct (compare_units (code_units b) (code_units c)) eqn:Ebc; try done.
  - apply compare_units_eq in Eab, Ebc. rewrite Eab, Ebc, compare_units_refl.
    intros Hab Hbc.
    assert (Hle : String.le a c).
    { transitivity b; unfold String.le, String.leb; apply Is_true_true.
      - by destruct (String.compare a b).
      - by destruct (String.compare b c). }
    apply Is_true_true in Hle. unfold String.leb in Hle.
    by destruct (String.compare a c).
  - apply compare_units_eq in Eab. by rewrite Eab, Ebc.
  - apply compare_units_eq in Ebc. by rewrite <- Ebc, Eab.
  - by rewrite (compare_units_trans _ _ _ Eab Ebc).
Qed.

End UnitOrder.

Section SortFacts.

Lemma insert_sorted_Permutation k l : insert_sorted k l ≡ₚ k :: l.
Proof.
  induction l as [|k' rest IH]; simpl; [done|].
  destruct (units_leb k k'); [done|].
  rewrite IH. apply Permutation_swap.
Qed.

Lemma sort_strings_Permutation l : sort_strings l ≡ₚ l.
Proof.
  induction l as [|k rest IH]; simpl; [done|].
  by rewrite insert_sorted_Permutation, IH.
Qed.

Lemma insert_sorted_Sorted k l : Sorted units_le l -> Sorted units_le (insert_sorted k l).
Proof.
  induction 1 as [|k' rest Hs IH Hhd]; simpl.
  - by repeat constructor.
  - destruct (units_leb k k') eqn:E.
    + constructor; [by constructor|]. by constructor.
    + constructor; [done|].
      assert (Hle : units_le k' k).
      { destruct (units_le_total k k') as [Hk|Hk]; [|done].
        unfold units_le in Hk. by rewrite E in Hk. }
      destruct rest as [|k2 rest2]; simpl.
      * by constructor.
      * destruct (units_leb k k2); constructor; [done|].
        by inversion Hhd.
Qed.

Lemma sort_strings_Sorted l : Sorted units_le (sort_strings l).
Proof.
  induction l as [|k rest IH]; simpl; [constructor|].
  by apply insert_sorted_Sorted.
Qed.

(** Sorting forgets the order in which the keys came. *)
Lemma sort_strings_perm l1 l2 : l1 ≡ₚ l2 -> sort_strings l1 = sort_strings l2.
Proof.
  intros Hp.
  apply (@Sorted_unique _ units_le units_le_trans units_le_antisym);
    try apply sort_strings_Sorted.
  by rewrite !sort_strings_Permutation.
Qed.

Lemma lookup_prop_perm k (p1 p2 : list (string * json)) :
  NoDup (keys p1) -> p1 ≡ₚ p2 -> lookup_prop k p1 = lookup_prop k p2.
Proof.
  intros Hnd Hp. induction Hp as [|[k1 v1] l1 l2 Hp IH|[k1 v1] [k2 v2] l|l1 l2 l3 Hp1 IH1 Hp2 IH2].
  - done.
  - simpl. destruct (String.eqb k k1); [done|]. apply IH. by inversion Hnd.
  - simpl. destruct (String.eqb k k1) eqn:E1, (String.eqb k k2) eqn:E2; try done.
    apply String.eqb_eq in E1 as <-. apply String.eqb_eq in E2 as <-.
    simpl in Hnd. inversion Hnd as [|? ? Hin _]. exfalso. apply Hin. by left.
  - rewrite IH1 by done. apply IH2.
    unfold keys in *. by rewrite <- Hp1.
Qed.

Lemma fold_set_prop_ext (vals1 vals2 : list (string * json)) ks acc :
  (forall k, lookup_prop k vals1 = lookup_prop k vals2) ->
  fold_left (fun sorted key => set_prop sorted key (lookup_prop key vals1)) ks acc
  = fold_left (fun sorted key => set_prop sorted key (lookup_prop key vals2)) ks acc.
Proof.
  intros Hl. revert acc. induction ks as [|k rest IH]; intros acc; simpl; [done|].
  by rewrite Hl, IH.
Qed.

End SortFacts.

Section KeyOrder.
Context `{Host}.

Lemma keys_sorted_values props : keys (sorted_values props) = keys props.
Proof.
  unfold keys, sorted_values. induction props as [|[k v] rest IH]; simpl; [done|].
  by rewrite IH.
Qed.

(** [sorted[key] = sortObject(obj[key])]: the value written under [key] is
    the sorted form of the value read under [key]. *)
Lemma lookup_sorted_values k props :
  lookup_prop k (sorted_values props) = HashUtils.sortObject (lookup_prop k props).
Proof.
  induction props as [|[k' v] rest IH]; simpl; [done|].
  by destruct (String.eqb k k').
Qed.

Lemma sortObject_array l1 l2 :
  Forall (fun a => forall b, well_formed a = true -> reorder a b ->
                             HashUtils.sortObject a = HashUtils.sortObject b) l1 ->
  forallb well_formed l1 = true ->
  Forall2 reorder l1 l2 ->
  map HashUtils.sortObject l1 = map HashUtils.sortObject l2.
Proof.
  intros IH Hwf Hr. induction Hr as [|x y l1 l2 Hxy Hr IHr]; simpl; [done|].
  simpl in Hwf. apply andb_true_iff in Hwf as [Hx Hl].
  inversion IH as [|? ? IHx IHl]; subst.
  f_equal; auto.
Qed.

Lemma sortObject_fields p1 p2 :
  Forall (fun p => forall b, well_formed (snd p) = true -> reorder (snd p) b ->
                             HashUtils.sortObject (snd p) = HashUtils.sortObject b) p1 ->
  forallb (fun p => well_formed (snd p)) p1 = true ->
  Forall2 (fun a b => fst a = fst b /\ reorder (snd a) (snd b)) p1 p2 ->
  sorted_values p1 = sorted_values p2.
Proof.
  intros IH Hwf Hr. induction Hr as [|[k1 v1] [k2 v2] l1 l2 [Hk Hv] Hr IHr]; simpl; [done|].
  simpl in *. apply andb_true_iff in Hwf as [Hx Hl].
  inversion IH as [|? ? IHx IHl]; subst.
  f_equal; auto. f_equal. auto.
Qed.

(** Values that differ only in key order have the same sorted form. *)
Lemma sortObject_reorder a :
  forall b, well_formed a = true -> reorder a b ->
            HashUtils.sortObject a = HashUtils.sortObject b.
Proof.
  induction a as [| | | | |items IH|props IH] using json_nested_ind;
    intros other Hwf Hr; inversion Hr as [|l1 l2 Hl|p1 p2 p3 Hf Hp]; subst; try done.
  - simpl. f_equal. by apply sortObject_array.
  - simpl in Hwf. apply andb_true_iff in Hwf as [Hnd Hvals].
    apply bool_decide_eq_true in Hnd.
    change (JObj (fold_left (fun sorted key =>
                               set_prop sorted key (lookup_prop key (sorted_values props)))
                    (sort_strings (keys props)) [])
            = JObj (fold_left (fun sorted key =>
                                 set_prop sorted key (lookup_prop key (sorted_values p3)))
                      (sort_strings (keys p3)) [])).
    rewrite (sortObject_fields props p2 IH Hvals Hf).
    assert (Hkeys : keys props = keys p2).
    { rewrite <- (keys_sorted_values props), (sortObject_fields props p2 IH Hvals Hf).
      apply keys_sorted_values. }
    rewrite Hkeys.
    rewrite (sort_strings_perm (keys p2) (keys p3)) by (unfold keys; by rewrite Hp).
    f_equal. apply fold_set_prop_ext. intros k.
    apply lookup_prop_perm.
    + by rewrite keys_sorted_values, <- Hkeys.
    + unfold sorted_values. by rewrite Hp.
Qed.

Lemma reorder_null_inv b : reorder JNull b -> b = JNull.
Proof. by inversion 1. Qed.

(** [calculateHash] gives one digest to values that differ only in key
    order. *)
Lemma calculateHash_reorder a b :
  well_formed a = true -> reorder a b ->
  HashUtils.calculateHash a = HashUtils.calculateHash b.
Proof.
  intros Hwf Hr. unfold HashUtils.calculateHash.
  rewrite (sortObject_reorder a b Hwf Hr).
  destruct (stringify (HashUtils.sortObject b)); [|done].
  inversion Hr; subst; done.
Qed.

(** Arrays keep the order of their elements and scalars pass through. *)
Lemma sortObject_array_scalar :
  (forall items, HashUtils.sortObject (JArr items) = JArr (map HashUtils.sortObject items))
  /\ (forall v, (forall items, v <> JArr items) -> (forall props, v <> JObj props) ->
                HashUtils.sortObject v = v).
Proof.
  split; [done|]. intros [] Harr Hobj; try done.
  - by destruct (Harr items).
  - by destruct (Hobj props).
Qed.

Lemma well_formed_of_opt_string o : well_formed (of_opt_string o) = true.
Proof. by destruct o. Qed.

Lemma well_formed_js_or a b :
  well_formed a = true -> well_formed b = true -> well_formed (js_or a b) = true.
Proof. unfold js_or. by destruct (truthy a). Qed.

Lemma well_formed_strings l : forallb well_formed (map JStr l) = true.
Proof. by induction l. Qed.

Lemma hashData_well_formed c instr av :
  opt_well_formed (cfg_model_parameters c) = true ->
  opt_well_formed (cfg_tool_resources c) = true ->
  well_formed (HashUtils.hashData c instr av) = true.
Proof.
  intros Hmp Htr. unfold HashUtils.hashData.
  cbn [well_formed keys map fst forallb snd].
  rewrite !well_formed_of_opt_string.
  rewrite !well_formed_js_or; try apply well_formed_of_opt_string; try by destruct av.
  apply andb_true_iff. split; [by vm_compute|].
  cbn [andb].
  destruct (cfg_model_parameters c), (cfg_tool_resources c), (cfg_recursion_limit c),
    (cfg_tools c); simpl in *; rewrite ?Hmp, ?Htr, ?well_formed_strings; done.
Qed.

Lemma opt_reorder_of_opt a b : opt_reorder a b -> reorder (of_opt a) (of_opt b).
Proof. destruct a, b; simpl; try done. intros _. constructor. Qed.

Lemma hashData_reorder a b instr av :
  declaration_reorder a b ->
  reorder (HashUtils.hashData a instr av) (HashUtils.hashData b instr av).
Proof.
  intros (Heq & Hmp & Htr). unfold HashUtils.hashData.
  injection Heq as -> -> -> -> -> -> -> -> -> ->.
  eapply reorder_obj; [|reflexivity].
  repeat (constructor; [split; [reflexivity|]; try apply reorder_refl;
                        try by apply opt_reorder_of_opt|]).
  constructor.
Qed.

(** C6. Two agent declarations that differ only in the order of the keys of
    their mappings, at any depth, have the same agent config hash. *)
Theorem agent_hash_key_order a b instr av :
  opt_well_formed (cfg_model_parameters a) = true ->
  opt_well_formed (cfg_tool_resources a) = true ->
  declaration_reorder a b ->
  HashUtils.calculateAgentConfigHash a instr av
  = HashUtils.calculateAgentConfigHash b instr av.
Proof.
  intros Hmp Htr Hr. unfold HashUtils.calculateAgentConfigHash.
  apply calculateHash_reorder.
  - by apply hashData_well_formed.
  - by apply hashData_reorder.
Qed.

End KeyOrder.

Lemma agent_hash_key_order_witness :
  let inner1 := JObj [("b", JNum (Num "2")); ("a", JNull)] in
  let inner2 := JObj [("a", JNull); ("b", JNum (Num "2"))] in
  let a := with_parameters (Demo.agent "support" None)
             (Some (JObj [("temperature", JNum (Num "1")); ("stop", JArr [JStr "x"; JStr "y"]);
                          ("inner", inner1)])) in
  let b := with_parameters (Demo.agent "support" None)
             (Some (JObj [("inner", inner2); ("temperature", JNum (Num "1"));
                          ("stop", JArr [JStr "x"; JStr "y"])])) in
  a <> b
  /\ declaration_reorder a b
  /\ @HashUtils.calculateAgentConfigHash Demo.host a (Some "Be kind.") None
     = @HashUtils.calculateAgentConfigHash Demo.host b (Some "Be kind.") None.
Proof.
  intros inner1 inner2 a b.
  assert (Hr : declaration_reorder a b).
  { split; [reflexivity|]. split; [|exact I].
    simpl. eapply (reorder_obj _ [("temperature", JNum (Num "1")); ("stop", JArr [JStr "x"; JStr "y"]);
                                  ("inner", inner2)]).
    - repeat (constructor; [split; [reflexivity|]; try apply reorder_refl|]); [|constructor].
      eapply (reorder_obj _ [("b", JNum (Num "2")); ("a", JNull)]).
      + repeat (constructor; [split; [reflexivity|apply reorder_refl]|]). constructor.
      + apply Permutation_swap.
    - change ([("temperature", JNum (Num "1")); ("stop", JArr [JStr "x"; JStr "y"])] ++ [("inner", inner2)]
              ≡ₚ [("inner", inner2)] ++ [("temperature", JNum (Num "1"));
                                          ("stop", JArr [JStr "x"; JStr "y"])]).
      apply Permutation_app_comm. }
  split; [discriminate|]. split; [exact Hr|].
  apply (@agent_hash_key_order Demo.host a b); [reflexivity|reflexivity|exact Hr].
Defined.

(** ** The monad and the persistence calls *)

Section StoreFacts.
Context `{Host}.

Lemma bind_inv {A B} (m : M A) (k : A -> M B) w r w' :
  bind m k w = (r, w') ->
  (exists e, m w = (Err e, w') /\ r = Err e)
  \/ (exists a w1, m w = (Ok a, w1) /\ k a w1 = (r, w')).
Proof.
  unfold bind. destruct (m w) as [[a|e] w1] eqn:E; intros Hk.
  - right. eauto.
  - left. injection Hk as <- <-. eauto.
Qed.

Lemma bind_ok_inv {A B} (m : M A) (k : A -> M B) w b w' :
  bind m k w = (Ok b, w') ->
  exists a w1, m w = (Ok a, w1) /\ k a w1 = (Ok b, w').
Proof.
  intros Hb. apply bind_inv in Hb as [(e & _ & He)|Hb]; [discriminate|done].
Qed.

Lemma lift_inv {A} (x : result A) w r w' : lift x w = (r, w') -> r = x /\ w' = w.
Proof. unfold lift. by intros [= <- <-]. Qed.

Lemma db_call_inv {A} c (run : World -> result A * World) w r w' :
  Store.db_call c run w = (r, w') ->
  (exists msg, db_fault (trace w) c = Some msg /\ r = Err (Error msg)
               /\ w' = Store.log c false w)
  \/ (db_fault (trace w) c = None
      /\ exists w1, run w = (r, w1) /\ w' = Store.log c (is_ok r) w1).
Proof.
  unfold Store.db_call. destruct (db_fault (trace w) c) as [msg|].
  - intros [= <- <-]. left. eauto.
  - destruct (run w) as [r1 w1]. intros [= <- <-]. right. eauto.
Qed.

Lemma getAgent_inv id owner w r w' :
  Store.getAgent id owner w = (r, w') ->
  agents w' = agents w /\ actions w' = actions w /\ uploads w' = uploads w
  /\ forall x, r = Ok x ->
       x = match agents w !! id with
           | Some a => if String.eqb (ag_author a) owner then Some a else None
           | None => None
           end.
Proof.
  intros Hc. apply db_call_inv in Hc as [(msg & _ & -> & ->)|(_ & w1 & [= <- <-] & ->)];
    repeat split; try done.
  by intros x [= <-].
Qed.

Lemma createAgent_inv id data owner acts h w r w' :
  Store.createAgent id data owner acts h w = (r, w') ->
  actions w' = actions w /\ uploads w' = uploads w
  /\ match r with
     | Ok a => exists i, id = Some i /\ agents w !! i = None
                         /\ a = {| ag_id := i; ag_author := owner; ag_data := data;
                                   ag_actions := acts;
                                   ag_versions := [ {| configHash := Some h |} ] |}
                         /\ agents w' = <[i := a]> (agents w)
     | Err _ => agents w' = agents w
     end.
Proof.
  intros Hc. apply db_call_inv in Hc as [(msg & _ & -> & ->)|(_ & w1 & Hrun & ->)];
    [done|].
  destruct id as [i|]; [|by injection Hrun as <- <-].
  destruct (agents w !! i) eqn:E; injection Hrun as <- <-; [done|].
  repeat split; try done. by exists i.
Qed.

Lemma updateAgent_inv id u w r w' :
  Store.updateAgent id u w = (r, w') ->
  actions w' = actions w /\ uploads w' = uploads w
  /\ match r with
     | Ok (Some a') => exists a, agents w !! id = Some a /\ a' = Store.apply_update u a
                                 /\ agents w' = <[id := a']> (agents w)
     | Ok None => agents w !! id = None /\ agents w' = agents w
     | Err _ => agents w' = agents w
     end.
Proof.
  intros Hc. apply db_call_inv in Hc as [(msg & _ & -> & ->)|(_ & w1 & Hrun & ->)];
    [done|].
  destruct (agents w !! id) as [a|] eqn:E; injection Hrun as <- <-; [|done].
  repeat split; try done. by exists a.
Qed.

Lemma deleteAgent_inv id owner w r w' :
  Store.deleteAgent id owner w = (r, w') ->
  actions w' = actions w /\ uploads w' = uploads w
  /\ (agents w' = agents w
      \/ (r = Ok tt /\ agents w' = delete id (agents w)
          /\ exists a, agents w !! id = Some a /\ ag_author a = owner)).
Proof.
  intros Hc. apply db_call_inv in Hc as [(msg & _ & -> & ->)|(_ & w1 & Hrun & ->)];
    [by auto|].
  destruct (agents w !! id) as [a|] eqn:E; [|injection Hrun as <- <-; by auto].
  destruct (String.eqb (ag_author a) owner) eqn:Ea; injection Hrun as <- <-; [|by auto].
  repeat split; try done. right. repeat split; try done.
  exists a. split; [done|]. by apply String.eqb_eq.
Qed.

Lemma findAgents_inv owner w r w' :
  Store.findAgents owner w = (r, w') ->
  agents w' = agents w /\ actions w' = actions w /\ uploads w' = uploads w
  /\ match db_fault (trace w) CFindAgents with
     | Some msg => r = Err (Error msg) /\ w' = Store.log CFindAgents false w
     | None => r = Ok (filter (fun a => ag_author a = owner) (snd <$> map_to_list (agents w)))
               /\ w' = Store.log CFindAgents true w
     end.
Proof.
  intros Hc. apply db_call_inv in Hc as [(msg & Hf & -> & ->)|(Hf & w1 & [= <- <-] & ->)];
    rewrite Hf; repeat split; done.
Qed.

Lemma updateAction_inv actionId usr data w r w' :
  Store.updateAction actionId usr data w = (r, w') ->
  agents w' = agents w /\ uploads w' = uploads w /\ forall x, r = Ok x -> x = data.
Proof.
  intros Hc. apply db_call_inv in Hc as [(msg & _ & -> & ->)|(_ & w1 & [= <- <-] & ->)];
    repeat split; try done.
  by intros x [= <-].
Qed.

Lemma deleteAction_inv actionId usr w r w' :
  Store.deleteAction actionId usr w = (r, w') ->
  agents w' = agents w /\ uploads w' = uploads w.
Proof.
  intros Hc. by apply db_call_inv in Hc as [(msg & _ & -> & ->)|(_ & w1 & [= <- <-] & ->)].
Qed.

Lemma processIconFile_inv iconPath agentId w r w' :
  Store.processIconFile iconPath agentId w = (r, w') ->
  agents w' = agents w /\ actions w' = actions w /\ trace w' = trace w.
Proof.
  unfold Store.processIconFile.
  destruct (avatar_pipeline _ _ _) as [[p s]|e]; by intros [= <- <-].
Qed.

End StoreFacts.

(** ** Reconciliation of one agent *)

Section AgentFacts.
Context `{Host}.

Lemma syncAction_inv agentId owner actionConfig w r w' :
  Sync.syncAction agentId owner actionConfig w = (r, w') ->
  agents w' = agents w /\ uploads w' = uploads w
  /\ forall x, r = Ok x ->
       action_id x = HashUtils.generateActionId (Sync.show (act_domain actionConfig)) agentId.
Proof.
  unfold Sync.syncAction. intros Hs.
  apply bind_inv in Hs as [(e & Hl & ->)|(spec & w1 & Hl & Hs)];
    apply lift_inv in Hl as [_ ->]; [done|].
  apply bind_inv in Hs as [(e & Hl & ->)|(md & w2 & Hl & Hs)];
    apply lift_inv in Hl as [_ ->]; [done|].
  apply updateAction_inv in Hs as (Ha & Hu & Hx).
  repeat split; try done. intros x ->. by rewrite (Hx x eq_refl).
Qed.

Lemma syncActions_loop_inv agentId owner actionsConfig synced w r w' :
  Sync.syncActions_loop agentId owner actionsConfig synced w = (r, w') ->
  agents w' = agents w /\ uploads w' = uploads w
  /\ forall l, r = Ok l ->
       map action_id l
       = map action_id synced
         ++ map (fun a => HashUtils.generateActionId (Sync.show (act_domain a)) agentId)
              actionsConfig.
Proof.
  revert synced w. induction actionsConfig as [|a rest IH]; intros synced w; simpl.
  - intros [= <- <-]. repeat split; try done. intros l [= <-]. by rewrite app_nil_r.
  - intros Hs. apply bind_inv in Hs as [(e & Ha & ->)|(x & w1 & Ha & Hs)];
      apply syncAction_inv in Ha as (Hag & Hup & Hid); [done|].
    apply IH in Hs as (Hag' & Hup' & Hl).
    repeat split; try congruence.
    intros l ->. rewrite (Hl l eq_refl), map_app. simpl.
    rewrite (Hid x eq_refl). by rewrite <- app_assoc.
Qed.

(** Action reconciliation leaves the agents alone; when it succeeds it
    returns one record per declared action, under the generated ids. *)
Lemma syncActions_inv agentId owner actionsConfig w r w' :
  Sync.syncActions agentId actionsConfig owner w = (r, w') ->
  agents w' = agents w /\ uploads w' = uploads w
  /\ forall l, r = Ok l ->
       map action_id l
       = map (fun a => HashUtils.generateActionId (Sync.show (act_domain a)) agentId)
           (default [] actionsConfig).
Proof.
  unfold Sync.syncActions. destruct actionsConfig as [[|a rest]|].
  - intros [= <- <-]. repeat split; try done. by intros l [= <-].
  - intros Hs. by apply syncActions_loop_inv in Hs.
  - intros [= <- <-]. repeat split; try done. by intros l [= <-].
Qed.

Lemma loadAgentFileContent_inv agentConfig w r w' :
  Sync.loadAgentFileContent agentConfig w = (r, w') ->
  agents w' = agents w /\ actions w' = actions w /\ trace w' = trace w.
Proof.
  unfold Sync.loadAgentFileContent. intros Hs.
  assert (Hinstr : forall (m : M (option string)) r0 w0,
            m = (if opt_truthy (cfg_instructionsFile agentConfig)
                 then let! content := lift (LoadConfigFile.loadConfigFile
                                              (Sync.show (cfg_instructionsFile agentConfig))
                                              "text") in
                      match ValidateConfigFile.validateInstructions
                              (Sync.content_value content) 10000 with
                      | Invalid error => throw (Error ("Invalid instructions: " +:+ error))
                      | Valid => ret (Sync.as_string (Sync.content_value content))
                      end
                 else if opt_truthy (cfg_instructions agentConfig)
                      then match ValidateConfigFile.validateInstructions
                                   (of_opt_string (cfg_instructions agentConfig)) 10000 with
                           | Invalid error =>
                               throw (Error ("Invalid inline instructions: " +:+ error))
                           | Valid => ret (cfg_instructions agentConfig)
                           end
                      else ret None) ->
            m w = (r0, w0) -> w0 = w).
  { intros m r0 w0 -> Hm.
    destruct (opt_truthy (cfg_instructionsFile agentConfig)).
    - apply bind_inv in Hm as [(e & Hl & ->)|(c & w1 & Hl & Hm)];
        apply lift_inv in Hl as [_ ->]; [done|].
      destruct (ValidateConfigFile.validateInstructions _ _); by injection Hm as <- <-.
    - destruct (opt_truthy (cfg_instructions agentConfig)); [|by injection Hm as <- <-].
      destruct (ValidateConfigFile.validateInstructions _ _); by injection Hm as <- <-. }
  apply bind_inv in Hs as [(e & Hl & ->)|(instr & w1 & Hl & Hs)];
    apply (Hinstr _ _ _ eq_refl) in Hl as ->; [done|].
  apply bind_inv in Hs as [(e & Hl & ->)|(av & w2 & Hl & Hs)].
  - destruct (opt_truthy (cfg_iconFile agentConfig)).
    + apply bind_inv in Hl as [(e' & Hl & _)|(a & w2 & Hl & Hr)].
      * by apply processIconFile_inv in Hl.
      * injection Hr as _ <-. by apply processIconFile_inv in Hl.
    + destruct (opt_truthy (cfg_icon agentConfig)); by injection Hl as _ <-.
  - injection Hs as _ <-.
    destruct (opt_truthy (cfg_iconFile agentConfig)).
    + apply bind_inv in Hl as [(e' & Hl & _)|(a & w3 & Hl & Hr)].
      * by apply processIconFile_inv in Hl.
      * injection Hr as _ <-. by apply processIconFile_inv in Hl.
    + destruct (opt_truthy (cfg_icon agentConfig)); by injection Hl as _ <-.
Qed.

End AgentFacts.

Section ValidationFacts.
Context `{Host}.

Lemma push_if_nonempty c e l : l <> [] -> ValidateConfigFile.push_if c e l <> [].
Proof.
  intros Hl. unfold ValidateConfigFile.push_if. destruct c; [|done]. by destruct l.
Qed.

Lemma validateActions_nonempty acts n l :
  l <> [] -> ValidateConfigFile.validateActions n acts l <> [].
Proof.
  revert n l. induction acts as [|a rest IH]; intros n l Hl; simpl; [done|].
  apply IH. by apply push_if_nonempty.
Qed.

(** A declaration that passes validation has an [id]. *)
Lemma validateAgentConfig_id agentConfig :
  cv_valid (ValidateConfigFile.validateAgentConfig agentConfig) = true ->
  exists i, cfg_id agentConfig = Some i /\ Sync.show (cfg_id agentConfig) = i.
Proof.
  unfold cv_valid, ValidateConfigFile.validateAgentConfig. simpl.
  destruct (cfg_id agentConfig) as [i|] eqn:Eid; [intros _; by exists i|].
  set (inner := ValidateConfigFile.push_if (negb (opt_truthy None)) _ []).
  assert (Hinner : inner <> []) by done.
  set (errs := ValidateConfigFile.push_if _ _ (ValidateConfigFile.push_if _ _
                 (ValidateConfigFile.push_if _ _ (ValidateConfigFile.push_if _ _ inner)))).
  assert (Herrs : errs <> []) by (unfold errs; by do 4 apply push_if_nonempty).
  destruct (cfg_actions agentConfig) as [acts|].
  - pose proof (validateActions_nonempty acts 0 errs Herrs) as Hacts.
    by destruct (ValidateConfigFile.validateActions 0 acts errs).
  - by destruct errs.
Qed.

End ValidationFacts.

Section SyncAgentFacts.
Context `{Host}.

(** The agent hash of a declaration is always defined. *)
Lemma calculateAgentConfigHash_ok agentConfig instr av :
  exists text, HashUtils.calculateAgentConfigHash agentConfig instr av
               = Ok (sha256_hex text).
Proof. eexists. reflexivity. Qed.

Lemma touches_only_same i w w1 : agents w1 = agents w -> touches_only i w w1.
Proof.
  intros Ha. unfold touches_only, keyed. rewrite Ha. repeat split; eauto.
Qed.

Lemma touches_only_trans i w w1 w2 :
  touches_only i w w1 -> touches_only i w1 w2 -> touches_only i w w2.
Proof.
  intros (Hk1 & Hf1 & Hm1) (Hk2 & Hf2 & Hm2). repeat split.
  - auto.
  - intros k Hne. by rewrite Hf2, Hf1.
  - intros k a Ha. destruct (Hm1 k a Ha) as (a1 & Ha1 & Hau1).
    destruct (Hm2 k a1 Ha1) as (a2 & Ha2 & Hau2). exists a2. split; congruence.
Qed.

Lemma touches_only_update i u a w w1 :
  agents w !! i = Some a ->
  agents w1 = <[i := Store.apply_update u a]> (agents w) ->
  touches_only i w w1.
Proof.
  intros Ha Hw. unfold touches_only, keyed. rewrite Hw. repeat split.
  - intros Hk k r. destruct (decide (i = k)) as [->|Hne].
    + rewrite lookup_insert_eq. intros [= <-]. simpl. by apply Hk.
    + rewrite lookup_insert_ne by done. apply Hk.
  - intros k Hne. by rewrite lookup_insert_ne.
  - intros k a0 Ha0. destruct (decide (i = k)) as [->|Hne].
    + rewrite lookup_insert_eq. eexists. split; [done|]. simpl. congruence.
    + rewrite lookup_insert_ne by done. eauto.
Qed.

Lemma touches_only_create i a w w1 :
  agents w !! i = None -> ag_id a = i ->
  agents w1 = <[i := a]> (agents w) ->
  touches_only i w w1.
Proof.
  intros Ha Hid Hw. unfold touches_only, keyed. rewrite Hw. repeat split.
  - intros Hk k r. destruct (decide (i = k)) as [->|Hne].
    + rewrite lookup_insert_eq. by intros [= <-].
    + rewrite lookup_insert_ne by done. apply Hk.
  - intros k Hne. by rewrite lookup_insert_ne.
  - intros k a0 Ha0. destruct (decide (i = k)) as [->|Hne]; [congruence|].
    rewrite lookup_insert_ne by done. eauto.
Qed.

Lemma updateAgent_touches i u w r w1 :
  Store.updateAgent i u w = (r, w1) -> touches_only i w w1.
Proof.
  intros Hu. apply updateAgent_inv in Hu as (_ & _ & Hr).
  destruct r as [[a'|]|e].
  - destruct Hr as (a & Ha & -> & Hw). by eapply touches_only_update.
  - destruct Hr as [_ Hw]. by apply touches_only_same.
  - by apply touches_only_same.
Qed.

Lemma createAgent_touches i data owner acts h w r w1 :
  Store.createAgent (Some i) data owner acts h w = (r, w1) -> touches_only i w w1.
Proof.
  intros Hc. apply createAgent_inv in Hc as (_ & _ & Hr).
  destruct r as [a|e]; [|by apply touches_only_same].
  destruct Hr as (i' & [= <-] & Hnone & -> & Hw).
  eapply touches_only_create; [exact Hnone| |exact Hw]. reflexivity.
Qed.

Lemma read_updated_inv a w r w' :
  Sync.read_updated a w = (r, w') ->
  w' = w /\ forall x, r = Ok x -> a = Some x.
Proof.
  destruct a as [a|]; intros [= <- <-]; split; try done. by intros x [= <-].
Qed.

End SyncAgentFacts.

Section SyncAgentInversion.
Context `{Host}.

Lemma updateDefaultAgent_inv existing agentConfig instr av owner w r w' :
  Sync.updateDefaultAgent existing agentConfig instr av owner w = (r, w') ->
  touches_only (ag_id existing) w w'
  /\ forall x, r = Ok x ->
       exists a h, agents w !! ag_id existing = Some a
                   /\ HashUtils.calculateAgentConfigHash agentConfig instr av = Ok h
                   /\ x = Store.apply_update
                            {| upd_data := Some (Sync.agentData agentConfig instr av);
                               upd_version_metadata := Some h; upd_actions := None |} a
                   /\ agents w' = <[ag_id existing := x]> (agents w).
Proof.
  unfold Sync.updateDefaultAgent. intros Hs.
  apply bind_inv in Hs as [(e & Hl & ->)|(h & w1 & Hl & Hs)];
    apply lift_inv in Hl as [Hh ->]; [split; [by apply touches_only_same|done]|].
  apply bind_inv in Hs as [(e & Hu & ->)|(u & w2 & Hu & Hs)].
  - split; [by eapply updateAgent_touches|done].
  - apply read_updated_inv in Hs as [-> Hx].
    split; [by eapply updateAgent_touches|].
    intros x ->. specialize (Hx x eq_refl) as ->.
    apply updateAgent_inv in Hu as (_ & _ & a & Ha & -> & Hw).
    exists a, h. by rewrite Hh.
Qed.

Lemma createDefaultAgent_inv agentConfig instr av owner i w r w' :
  cfg_id agentConfig = Some i ->
  Sync.createDefaultAgent agentConfig instr av owner w = (r, w') ->
  touches_only i w w'
  /\ forall x, r = Ok x ->
       exists h, agents w !! i = None
                 /\ HashUtils.calculateAgentConfigHash agentConfig instr av = Ok h
                 /\ x = {| ag_id := i; ag_author := owner;
                           ag_data := Sync.agentData agentConfig instr av;
                           ag_actions := [];
                           ag_versions := [ {| configHash := Some h |} ] |}
                 /\ agents w' = <[i := x]> (agents w).
Proof.
  unfold Sync.createDefaultAgent. intros Hid Hs. rewrite Hid in Hs.
  apply bind_inv in Hs as [(e & Hl & ->)|(h & w1 & Hl & Hs)];
    apply lift_inv in Hl as [Hh ->]; [split; [by apply touches_only_same|done]|].
  split; [by eapply createAgent_touches|].
  intros x ->. apply createAgent_inv in Hs as (_ & _ & i' & [= <-] & Hnone & -> & Hw).
  exists h. by rewrite Hh.
Qed.

(** What a successful reconciliation of one agent leaves behind, and what
    any reconciliation leaves alone. *)
Lemma syncAgent_inv agentConfig owner w r w' :
  keyed w ->
  Sync.syncAgent agentConfig owner w = (r, w') ->
  touches_only (Sync.show (cfg_id agentConfig)) w w'
  /\ (cfg_id agentConfig = None -> agents w' = agents w)
  /\ forall agent, r = Ok agent ->
       agents w' !! Sync.show (cfg_id agentConfig) = Some agent
       /\ ag_author agent = owner
       /\ ag_actions agent
          = match declared_action_ids agentConfig with
            | [] => prior_actions w (Sync.show (cfg_id agentConfig))
            | ids => ids
            end.
Proof.
  intros Hkeyed. unfold Sync.syncAgent.
  destruct (cv_valid (ValidateConfigFile.validateAgentConfig agentConfig)) eqn:Hv; simpl.
  2: { intros [= <- <-]. split; [by apply touches_only_same|]. split; done. }
  destruct (validateAgentConfig_id agentConfig Hv) as (i & Hid & Hshow).
  rewrite Hshow. intros Hs.
  split; [|split; [rewrite Hid; done|]]; revert Hs.
  - (* frame *)
    intros Hs.
    apply bind_inv in Hs as [(e & Hl & ->)|([instr av] & w1 & Hl & Hs)];
      apply loadAgentFileContent_inv in Hl as (Ha1 & _ & _);
      [by apply touches_only_same|].
    apply bind_inv in Hs as [(e & Hl & ->)|(h & w2 & Hl & Hs)];
      apply lift_inv in Hl as [Hh ->]; [by apply touches_only_same|].
    apply bind_inv in Hs as [(e & Hg & ->)|(existing & w2 & Hg & Hs)];
      pose proof (getAgent_inv _ _ _ _ _ Hg) as (Ha2 & _ & _ & Hex);
      [apply touches_only_same; congruence|].
    assert (Ht2 : touches_only i w w2) by (apply touches_only_same; congruence).
    specialize (Hex existing eq_refl).
    apply bind_inv in Hs as [(e & Hb & ->)|(agent0 & w3 & Hb & Hs)].
    { eapply touches_only_trans; [exact Ht2|].
      destruct existing as [ex|].
      - destruct (_ && _); [by injection Hb as _ <-; apply touches_only_same|].
        assert (ag_id ex = i) as <-.
        { rewrite Ha1 in Hex. destruct (agents w !! i) as [a|] eqn:Ea; [|done].
          destruct (String.eqb _ _); [|done]. injection Hex as ->. by apply Hkeyed. }
        by apply updateDefaultAgent_inv in Hb as [Ht _].
      - by apply (createDefaultAgent_inv _ _ _ _ i) in Hb as [Ht _]. }
    assert (touches_only i w w3 /\ ag_id agent0 = i) as [Ht3 Hid0].
    { destruct existing as [ex|].
      - assert (Hex_id : ag_id ex = i).
        { rewrite Ha1 in Hex. destruct (agents w !! i) as [a|] eqn:Ea; [|done].
          destruct (String.eqb _ _); [|done]. injection Hex as ->. by apply Hkeyed. }
        destruct (_ && _).
        + injection Hb as <- <-. done.
        + apply updateDefaultAgent_inv in Hb as [Ht Hx].
          destruct (Hx agent0 eq_refl) as (a & h' & Ha & _ & -> & _). simpl.
          rewrite Hex_id in *. split; [by eapply touches_only_trans|].
          destruct Ht2 as (Hk2 & _ & _). by apply (Hk2 Hkeyed).
      - apply (createDefaultAgent_inv _ _ _ _ i) in Hb as [Ht Hx]; [|done].
        destruct (Hx agent0 eq_refl) as (h' & _ & _ & -> & _).
        split; [by eapply touches_only_trans|done]. }
    apply bind_inv in Hs as [(e & Hsa & ->)|(acts & w4 & Hsa & Hs)];
      apply syncActions_inv in Hsa as (Ha4 & _ & _);
      [eapply touches_only_trans; [exact Ht3|by apply touches_only_same]|].
    assert (Ht4 : touches_only i w w4)
      by (eapply touches_only_trans; [exact Ht3|by apply touches_only_same]).
    destruct (0 <? length acts)%nat; [|by injection Hs as _ <-].
    rewrite Hid0 in Hs.
    apply bind_inv in Hs as [(e & Hu & ->)|(u & w5 & Hu & Hs)].
    + eapply touches_only_trans; [exact Ht4|by eapply updateAgent_touches].
    + apply read_updated_inv in Hs as [-> _].
      eapply touches_only_trans; [exact Ht4|by eapply updateAgent_touches].
  - (* success *)
    intros Hs agent ->.
    apply bind_ok_inv in Hs as ([instr av] & w1 & Hl & Hs).
    apply loadAgentFileContent_inv in Hl as (Ha1 & _ & _).
    apply bind_ok_inv in Hs as (h & w2 & Hl & Hs). apply lift_inv in Hl as [Hh ->].
    apply bind_ok_inv in Hs as (existing & w2 & Hg & Hs).
    apply getAgent_inv in Hg as (Ha2 & _ & _ & Hex). specialize (Hex existing eq_refl).
    apply bind_ok_inv in Hs as (agent0 & w3 & Hb & Hs).
    assert (agents w3 !! i = Some agent0 /\ ag_id agent0 = i /\ ag_author agent0 = owner
                 /\ ag_actions agent0 = prior_actions w i) as (Hst3 & Hid0 & Hau0 & Hact0).
    { unfold prior_actions. rewrite Ha1 in Hex. destruct existing as [ex|].
      - destruct (agents w !! i) as [a|] eqn:Ea; [|done].
        destruct (String.eqb (ag_author a) owner) eqn:Eau; [|done].
        injection Hex as ->. apply String.eqb_eq in Eau.
        pose proof (Hkeyed _ _ Ea) as Hida.
        destruct (_ && _).
        + injection Hb as <- <-. by rewrite Ha2, Ha1.
        + apply updateDefaultAgent_inv in Hb as [_ Hx].
          destruct (Hx agent0 eq_refl) as (a0 & h' & Ha0 & _ & -> & Hw3).
          rewrite Hida in *. rewrite Ha2, Ha1, Ea in Ha0. injection Ha0 as <-.
          rewrite Hw3, lookup_insert_eq. done.
      - apply (createDefaultAgent_inv _ _ _ _ i) in Hb as [_ Hx]; [|done].
        destruct (Hx agent0 eq_refl) as (h' & Hnone & _ & -> & Hw3).
        rewrite Hw3, lookup_insert_eq. rewrite Ha2, Ha1 in Hnone. by rewrite Hnone. }
    apply bind_ok_inv in Hs as (acts & w4 & Hsa & Hs).
    apply syncActions_inv in Hsa as (Ha4 & _ & Hids). specialize (Hids acts eq_refl).
    unfold declared_action_ids. rewrite Hshow, <- Hids.
    destruct acts as [|act rest]; simpl in Hs.
    + injection Hs as <- <-. simpl. by rewrite Ha4.
    + rewrite Hid0 in Hs. apply bind_ok_inv in Hs as (u & w5 & Hu & Hs).
      apply read_updated_inv in Hs as [-> Hx]. specialize (Hx agent eq_refl) as ->.
      apply updateAgent_inv in Hu as (_ & _ & a & Ha & -> & Hw).
      rewrite Ha4, Hst3 in Ha. injection Ha as <-.
      rewrite Hw, lookup_insert_eq. done.
Qed.

End SyncAgentInversion.

(** ** The action-id list of a reconciled agent *)

(** C5, as the code has it.  When [syncAgent] succeeds the agent it returns
    is the record stored under the declared id, and when action
    reconciliation returned at least one action the record's action-id list
    is exactly the list of their ids, whether or not the content hash had
    changed; when it returned none, the list is the one the store held
    before the pass (empty for a new agent). *)
Theorem syncAgent_action_ids `{Host} agentConfig owner w agent w' :
  keyed w ->
  Sync.syncAgent agentConfig owner w = (Ok agent, w') ->
  agents w' !! Sync.show (cfg_id agentConfig) = Some agent
  /\ ag_actions agent
     = match declared_action_ids agentConfig with
       | [] => prior_actions w (Sync.show (cfg_id agentConfig))
       | ids => ids
       end.
Proof.
  intros Hk Hs. destruct (syncAgent_inv _ _ _ _ _ Hk Hs) as (_ & _ & Hok).
  destruct (Hok agent eq_refl) as (Hst & _ & Hact). done.
Qed.

Lemma keyed_empty : keyed Demo.empty_world.
Proof. intros k r Hl. simpl in Hl. by rewrite lookup_empty in Hl. Qed.

Lemma syncAgent_action_ids_witness :
  keyed Demo.empty_world
  /\ exists agent w',
       @Sync.syncAgent Demo.host
         (Demo.agent "support" (Some [Demo.action "api.example.com" None]))
         Demo.system Demo.empty_world = (Ok agent, w')
       /\ agents w' !! "support" = Some agent
       /\ ag_actions agent = ["api.example.com_support"].
Proof.
  split; [exact keyed_empty|].
  destruct (@Sync.syncAgent Demo.host
              (Demo.agent "support" (Some [Demo.action "api.example.com" None]))
              Demo.system Demo.empty_world) as [[agent|e] w'] eqn:Hrun.
  - exists agent, w'. split; [reflexivity|].
    exact (@syncAgent_action_ids Demo.host _ _ _ _ _ keyed_empty Hrun).
  - vm_compute in Hrun. discriminate.
Defined.

(** C5 fails as stated: an agent stored with one action id and now declared
    with no action is reconciled successfully, action reconciliation returns
    the empty list, and the stored action-id list still holds the old id. *)
Lemma syncAgent_keeps_stale_action_ids :
  let w1 := snd (@Sync.syncAgent Demo.host
                   (Demo.agent "support" (Some [Demo.action "api.example.com" None]))
                   Demo.system Demo.empty_world) in
  let run := @Sync.syncAgent Demo.host (Demo.agent "support" (Some []))
               Demo.system w1 in
  fst (@Sync.syncActions Demo.host "support" (Some []) Demo.system w1) = Ok []
  /\ is_ok (fst run) = true
  /\ ag_actions <$> (agents (snd run) !! "support") = Some ["api.example.com_support"]
  /\ ag_actions <$> (agents (snd run) !! "support") <> Some [].
Proof. vm_compute. repeat split. discriminate. Qed.

(** ** Cleanup of removed agents *)

Section CleanupFacts.
Context `{Host}.

Lemma deleteActions_inv actionIds owner w r w' :
  Sync.deleteActions actionIds owner w = (r, w') -> agents w' = agents w.
Proof.
  revert w. induction actionIds as [|a rest IH]; intros w; simpl.
  - by intros [= <- <-].
  - intros Hs. apply bind_inv in Hs as [(e & Hd & ->)|(u & w1 & Hd & Hs)];
      apply deleteAction_inv in Hd as [Ha _]; [done|].
    apply IH in Hs. congruence.
Qed.

(** The deletion of one removed agent either leaves the agents as they
    were or deletes the record under its id. *)
Lemma removeAgent_inv agent owner w r w' :
  Sync.removeAgent agent owner w = (r, w') ->
  agents w' = agents w
  \/ (r = Ok tt /\ agents w' = delete (ag_id agent) (agents w)
      /\ exists a, agents w !! ag_id agent = Some a /\ ag_author a = owner).
Proof.
  unfold Sync.removeAgent. intros Hs.
  apply bind_inv in Hs as [(e & Hd & ->)|(u & w1 & Hd & Hs)];
    apply deleteActions_inv in Hd; [by left|].
  apply deleteAgent_inv in Hs as (_ & _ & [Ha|(-> & Ha & a & Hl & Hau)]).
  - left. congruence.
  - right. rewrite Hd in *. eauto.
Qed.

(** The loop over the removed agents goes through the whole list and never
    throws: the failure of one deletion is caught before the next agent. *)
Lemma removeAgents_never_throws removedAgents owner w :
  exists w', Sync.removeAgents removedAgents owner w = (Ok tt, w').
Proof.
  revert w. induction removedAgents as [|a rest IH]; intros w; simpl; [by eexists|].
  unfold bind, try_catch.
  destruct (Sync.removeAgent a owner w) as [[[]|e] w1]; simpl; apply IH.
Qed.

(** [cleanupRemovedAgents] throws exactly when the listing fails; otherwise
    it returns the number of stored agents it took for removed, whatever
    became of their deletions. *)
Lemma cleanupRemovedAgents_result configuredAgentIds owner w :
  match db_fault (trace w) CFindAgents with
  | Some msg =>
      Sync.cleanupRemovedAgents configuredAgentIds owner w
      = (Err (Error msg), Store.log CFindAgents false w)
  | None =>
      exists w', Sync.cleanupRemovedAgents configuredAgentIds owner w
                 = (Ok (length (orphans configuredAgentIds owner w)), w')
  end.
Proof.
  unfold Sync.cleanupRemovedAgents, bind.
  destruct (Store.findAgents owner w) as [r w1] eqn:Hf.
  apply findAgents_inv in Hf as (_ & _ & _ & Hr).
  destruct (db_fault (trace w) CFindAgents) as [msg|]; destruct Hr as [-> ->]; [done|].
  fold (orphans configuredAgentIds owner w).
  destruct (orphans configuredAgentIds owner w) as [|a rest] eqn:Eo; [by eexists|].
  destruct (removeAgents_never_throws (a :: rest) owner (Store.log CFindAgents true w))
    as [w' Hw'].
  rewrite Hw'. by eexists.
Qed.

Lemma syncAgents_results defaultAgents owner results w :
  (success results = true <-> sync_errors results = []) ->
  Forall (fun e => is_agent_error e = true) (sync_errors results) ->
  let results' := fst (Sync.syncAgents defaultAgents owner results w) in
  (success results' = true <-> sync_errors results' = [])
  /\ Forall (fun e => is_agent_error e = true) (sync_errors results').
Proof.
  revert results w. induction defaultAgents as [|c rest IH]; intros results w Hs He; simpl.
  - done.
  - destruct (Sync.syncAgent c owner w) as [[agent|e] w1]; apply IH; simpl; try done.
    + split; [done|]. intros Habs. by destruct (sync_errors results).
    + apply Forall_app. split; [done|]. by repeat constructor.
Qed.

Lemma filter_all {A} (f : A -> bool) l :
  Forall (fun x => f x = true) l -> List.filter f l = l.
Proof.
  induction 1 as [|x l Hx _ IH]; simpl; [done|]. by rewrite Hx, IH.
Qed.

End CleanupFacts.

(** ** The success flag *)




(** ** Every removed agent gets its attempt *)

Section CleanupAttempts.
Context `{Host}.

Lemma deleteAction_trace actionId owner w r w' :
  Store.deleteAction actionId owner w = (r, w') ->
  trace w' = trace w ++ [mkEvent (CDeleteAction actionId) (is_ok r)].
Proof.
  intros Hc. by apply db_call_inv in Hc as [(msg & _ & -> & ->)|(_ & w1 & [= <- <-] & ->)].
Qed.

Lemma deleteAgent_trace id owner w r w' :
  Store.deleteAgent id owner w = (r, w') ->
  trace w' = trace w ++ [mkEvent (CDeleteAgent id) (is_ok r)].
Proof.
  intros Hc. apply db_call_inv in Hc as [(msg & _ & -> & ->)|(_ & w1 & Hrun & ->)]; [done|].
  destruct (agents w !! id) as [a|]; [destruct (String.eqb _ _)|];
    by injection Hrun as <- <-.
Qed.

Lemma deleteActions_trace actionIds owner w r w' :
  Sync.deleteActions actionIds owner w = (r, w') ->
  exists evs, trace w' = trace w ++ evs
    /\ (is_ok r = false ->
        exists e x, In e evs /\ ev_ok e = false /\ In x actionIds
                    /\ ev_call e = CDeleteAction x).
Proof.
  revert w. induction actionIds as [|a rest IH]; intros w; simpl.
  - intros [= <- <-]. exists []. by rewrite app_nil_r.
  - intros Hs. apply bind_inv in Hs as [(e & Hd & ->)|(u & w1 & Hd & Hs)];
      apply deleteAction_trace in Hd.
    + eexists. split; [exact Hd|]. intros _.
      exists (mkEvent (CDeleteAction a) false), a. simpl. auto.
    + destruct (IH _ Hs) as (evs & Htr & Hfail).
      eexists. split; [by rewrite Htr, Hd, <- app_assoc|].
      intros Hr. destruct (Hfail Hr) as (e & x & Hin & Hok & Hx & Hcall).
      exists e, x. simpl. auto.
Qed.

Lemma removeAgent_attempt agent owner w r w' :
  Sync.removeAgent agent owner w = (r, w') ->
  exists evs, trace w' = trace w ++ evs /\ exists e, In e evs /\ removal_attempt agent e.
Proof.
  unfold Sync.removeAgent. intros Hs.
  apply bind_inv in Hs as [(e & Hd & ->)|(u & w1 & Hd & Hs)];
    apply deleteActions_trace in Hd as (evs & Htr & Hfail).
  - exists evs. split; [done|].
    destruct (Hfail eq_refl) as (e' & x & Hin & Hok & Hx & Hcall).
    exists e'. split; [done|]. right. eauto.
  - apply deleteAgent_trace in Hs. eexists. split; [by rewrite Hs, Htr, <- app_assoc|].
    eexists. split; [apply in_or_app; right; by left|]. by left.
Qed.

(** The removal loop attempts every agent of its list, whatever happened to
    the ones before it. *)
Lemma removeAgents_attempts_all removedAgents owner w r w' :
  Sync.removeAgents removedAgents owner w = (r, w') ->
  exists evs, trace w' = trace w ++ evs
    /\ forall agent, In agent removedAgents ->
         exists e, In e evs /\ removal_attempt agent e.
Proof.
  revert w. induction removedAgents as [|a rest IH]; intros w; simpl.
  - intros [= <- <-]. exists []. rewrite app_nil_r. split; [done|]. by intros agent [].
  - unfold bind, try_catch.
    destruct (Sync.removeAgent a owner w) as [r1 w1] eqn:Hr.
    apply removeAgent_attempt in Hr as (evs1 & Htr1 & e1 & Hin1 & Hatt1).
    intros Hs.
    assert (Hrest : Sync.removeAgents rest owner w1 = (r, w')) by (by destruct r1 as [[]|]).
    destruct (IH _ Hrest) as (evs2 & Htr2 & Hall).
    exists (evs1 ++ evs2). split; [by rewrite Htr2, Htr1, app_assoc|].
    intros agent [<-|Hin].
    + exists e1. split; [apply in_or_app; by left|done].
    + destruct (Hall agent Hin) as (e & He & Hatt).
      exists e. split; [apply in_or_app; by right|done].
Qed.

End CleanupAttempts.

(** ** The count returned by cleanup *)

(** C8. The store holds the system-owned agent "b", no longer declared, and
    the persistence layer fails the deletion of "b": cleanup returns 1 and
    the pass reports [removedCount] 1, while "b" is still stored and no agent
    was removed. *)
Theorem cleanup_counts_failed_removals :
  let bad := fun c => match c with CDeleteAgent "b" => true | _ => false end in
  let w0 := snd (@Sync.syncDefaultAgents Demo.host
                   (Some [Demo.agent "b" (Some [Demo.action "x" None])]) Demo.empty_world) in
  let run := @Sync.cleanupRemovedAgents (Demo.faulty bad) [Some "a"] Demo.system w0 in
  let pass := @Sync.syncDefaultAgents (Demo.faulty bad) (Some [Demo.agent "a" None]) w0 in
  fst run = Ok 1
  /\ is_Some (agents (snd run) !! "b")
  /\ size (agents (snd run)) = size (agents w0)
  /\ removedCount (fst pass) = 1
  /\ is_Some (agents (snd pass) !! "b")
  /\ new_events w0 (snd run)
     = [mkEvent CFindAgents true; mkEvent (CDeleteAction "x_b") true;
        mkEvent (CDeleteAgent "b") false].
Proof. vm_compute. repeat split; by eexists. Qed.

(** ** The loop over the declared agents *)

Section LoopFacts.
Context `{Host}.

Lemma syncAgents_app l1 l2 owner results w :
  Sync.syncAgents (l1 ++ l2) owner results w
  = Sync.syncAgents l2 owner (fst (Sync.syncAgents l1 owner results w))
      (snd (Sync.syncAgents l1 owner results w)).
Proof.
  revert results w. induction l1 as [|c rest IH]; intros results w; simpl; [done|].
  destruct (Sync.syncAgent c owner w) as [[agent|e] w1]; apply IH.
Qed.

(** The loop adds to the results it is given what it would add to fresh
    results. *)
Lemma syncAgents_from l owner results w :
  let fresh := Sync.syncAgents l owner Sync.initialResults w in
  let run := Sync.syncAgents l owner results w in
  snd run = snd fresh
  /\ syncedCount (fst run) = syncedCount results + syncedCount (fst fresh)
  /\ sync_errors (fst run) = sync_errors results ++ sync_errors (fst fresh)
  /\ success (fst run) = success results && success (fst fresh)
  /\ removedCount (fst run) = removedCount results.
Proof.
  assert (Hgen : forall l results0 results w,
            let base := Sync.syncAgents l owner results0 w in
            let run := Sync.syncAgents l owner results w in
            forall n errs b,
              syncedCount results = n + syncedCount results0 ->
              sync_errors results = errs ++ sync_errors results0 ->
              success results = b && success results0 ->
              snd run = snd base
              /\ syncedCount (fst run) = n + syncedCount (fst base)
              /\ sync_errors (fst run) = errs ++ sync_errors (fst base)
              /\ success (fst run) = b && success (fst base)
              /\ removedCount (fst run) = removedCount results).
  { clear l results w. induction l as [|c rest IH]; intros results0 results w; simpl.
    - intros n errs b Hn He Hb. done.
    - intros n errs b Hn He Hb.
      destruct (Sync.syncAgent c owner w) as [[agent|e] w1].
      + apply (IH (Sync.recordSynced results0) (Sync.recordSynced results) w1 n errs b);
          simpl; try done. rewrite Hn. lia.
      + apply (IH (Sync.recordError _ results0) (Sync.recordError _ results) w1 n errs b);
          simpl; try done.
        * rewrite He. by rewrite <- app_assoc.
        * by rewrite andb_false_r. }
  intros fresh run.
  destruct (Hgen l Sync.initialResults results w (syncedCount results) (sync_errors results)
              (success results)) as (H1 & H2 & H3 & H4 & H5); simpl.
  - lia.
  - by rewrite app_nil_r.
  - by rewrite andb_true_r.
  - done.
Qed.

Lemma syncAgents_inv l owner results w :
  keyed w ->
  let w' := snd (Sync.syncAgents l owner results w) in
  keyed w'
  /\ (forall k a, agents w !! k = Some a ->
        exists a', agents w' !! k = Some a' /\ ag_author a' = ag_author a)
  /\ (forall k, Forall (fun c => cfg_id c <> Some k) l -> agents w' !! k = agents w !! k).
Proof.
  revert results w. induction l as [|c rest IH]; intros results w Hk; simpl.
  - repeat split; eauto.
  - destruct (Sync.syncAgent c owner w) as [r w1] eqn:Hs.
    destruct (syncAgent_inv _ _ _ _ _ Hk Hs) as ((Hk1 & Hf1 & Hm1) & Hnone & _).
    assert (Hfr : forall k, cfg_id c <> Some k -> agents w1 !! k = agents w !! k).
    { intros k Hne. destruct (cfg_id c) as [i|] eqn:Ei.
      - apply Hf1. unfold Sync.show. simpl. intros ->. by apply Hne.
      - by rewrite Hnone. }
    assert (Hrec : forall results1,
              let w' := snd (Sync.syncAgents rest owner results1 w1) in
              keyed w'
              /\ (forall k a, agents w !! k = Some a ->
                    exists a', agents w' !! k = Some a' /\ ag_author a' = ag_author a)
              /\ (forall k, Forall (fun c => cfg_id c <> Some k) (c :: rest) ->
                    agents w' !! k = agents w !! k)).
    { intros results1. destruct (IH results1 w1 (Hk1 Hk)) as (Hk2 & Hm2 & Hf2).
      repeat split; [done| |].
      - intros k a Ha. destruct (Hm1 k a Ha) as (a1 & Ha1 & Hau1).
        destruct (Hm2 k a1 Ha1) as (a2 & Ha2 & Hau2). exists a2. split; congruence.
      - intros k Hall. inversion Hall; subst. rewrite Hf2 by done. by apply Hfr. }
    destruct r; apply Hrec.
Qed.

Lemma removeAgents_keeps removedAgents owner i w r w' :
  Forall (fun a => ag_id a <> i) removedAgents ->
  Sync.removeAgents removedAgents owner w = (r, w') ->
  agents w' !! i = agents w !! i.
Proof.
  revert w. induction removedAgents as [|a rest IH]; intros w Hall; simpl.
  - by intros [= <- <-].
  - inversion Hall as [|? ? Ha Hrest]; subst. unfold bind, try_catch.
    destruct (Sync.removeAgent a owner w) as [r1 w1] eqn:Hr.
    assert (Hw1 : agents w1 !! i = agents w !! i).
    { apply removeAgent_inv in Hr as [->|(_ & -> & _)]; [done|].
      by rewrite lookup_delete_ne. }
    destruct r1 as [[]|e]; simpl; intros Hs; apply IH in Hs; congruence.
Qed.

(** Cleanup leaves every declared id alone. *)
Lemma cleanupRemovedAgents_keeps configuredAgentIds owner i w r w' :
  Sync.includes_id configuredAgentIds i = true ->
  Sync.cleanupRemovedAgents configuredAgentIds owner w = (r, w') ->
  agents w' !! i = agents w !! i.
Proof.
  intros Hin. unfold Sync.cleanupRemovedAgents. intros Hs.
  apply bind_inv in Hs as [(e & Hf & ->)|(l & w1 & Hf & Hs)];
    apply findAgents_inv in Hf as (Ha & _ & _ & _); [by rewrite Ha|].
  set (removed := List.filter _ l) in Hs.
  assert (Hall : Forall (fun a => ag_id a <> i) removed).
  { apply List.Forall_forall. intros a Hina. apply List.filter_In in Hina as [_ Hn].
    intros Heq. by rewrite Heq, Hin in Hn. }
  destruct removed as [|a rest]; [injection Hs as _ <-; by rewrite Ha|].
  apply bind_inv in Hs as [(e & Hr & ->)|(u & w2 & Hr & Hs)].
  - apply (removeAgents_keeps _ _ i) in Hr; [|done]. by rewrite Hr, Ha.
  - injection Hs as _ <-. apply (removeAgents_keeps _ _ i) in Hr; [|done]. by rewrite Hr, Ha.
Qed.

Lemma syncDefaultAgents_nonempty l w :
  l <> [] ->
  Sync.syncDefaultAgents (Some l) w
  = match Sync.syncAgents l Sync.getDefaultObjectId Sync.initialResults w with
    | (results, w') =>
        match Sync.cleanupRemovedAgents (map cfg_id l) Sync.getDefaultObjectId w' with
        | (Ok removedCount, w'') => (Sync.recordRemoved removedCount results, w'')
        | (Err error, w'') => (Sync.recordError (SyncFailure (message error)) results, w'')
        end
    end.
Proof. by destruct l. Qed.

Lemma agent_errors_app_failure results msg :
  Forall (fun e => is_agent_error e = true) (sync_errors results) ->
  agent_errors (Sync.recordError (SyncFailure msg) results) = sync_errors results.
Proof.
  intros Hall. unfold agent_errors. simpl. rewrite List.filter_app. simpl.
  by rewrite app_nil_r, filter_all.
Qed.

(** C2. In a pass over [pre ++ broken :: post] where reconciling [broken]
    throws [e]: the agents of [post] are reconciled from the state [broken]
    left, exactly as a loop over [post] alone would; [syncedCount] is the
    number of successes of [pre] plus that of [post]; the per-agent errors
    are those of [pre], one entry with the id and name of [broken] and the
    message of [e], then those of [post]; [success] is false; and cleanup
    leaves the record of every declared id as the loop stored it. *)
Theorem failure_isolation pre broken post w r1 w1 e w2 r3 w3 :
  keyed w ->
  Sync.syncAgents pre Sync.getDefaultObjectId Sync.initialResults w = (r1, w1) ->
  Sync.syncAgent broken Sync.getDefaultObjectId w1 = (Err e, w2) ->
  Sync.syncAgents post Sync.getDefaultObjectId Sync.initialResults w2 = (r3, w3) ->
  let declared := pre ++ broken :: post in
  let pass := Sync.syncDefaultAgents (Some declared) w in
  syncedCount (fst pass) = syncedCount r1 + syncedCount r3
  /\ agent_errors (fst pass)
     = sync_errors r1
       ++ AgentError (cfg_id broken) (cfg_name broken) (message e) :: sync_errors r3
  /\ success (fst pass) = false
  /\ (forall i, Sync.includes_id (map cfg_id declared) i = true ->
                agents (snd pass) !! i = agents w3 !! i).
Proof.
  intros Hk H1 H2 H3 declared pass. subst pass.
  rewrite syncDefaultAgents_nonempty by (subst declared; by destruct pre).
  subst declared. rewrite syncAgents_app, H1. simpl. rewrite H2.
  set (r2 := Sync.recordError _ r1).
  pose proof (syncAgents_from post Sync.getDefaultObjectId r2 w2) as Hfrom.
  rewrite H3 in Hfrom. simpl in Hfrom.
  destruct (Sync.syncAgents post Sync.getDefaultObjectId r2 w2) as [r4 w4].
  simpl in Hfrom. destruct Hfrom as (-> & Hn & He & Hb & _).
  pose proof (syncAgents_results pre Sync.getDefaultObjectId Sync.initialResults w) as Hr1.
  rewrite H1 in Hr1. destruct Hr1 as [_ Hall1]; [done|constructor|].
  pose proof (syncAgents_results post Sync.getDefaultObjectId Sync.initialResults w2) as Hr3.
  rewrite H3 in Hr3. destruct Hr3 as [_ Hall3]; [done|constructor|].
  simpl in Hall1, Hall3.
  assert (Hall4 : Forall (fun e => is_agent_error e = true) (sync_errors r4)).
  { rewrite He. subst r2. simpl. repeat (apply Forall_app; split); try done.
    by repeat constructor. }
  assert (He4 : sync_errors r4
                = sync_errors r1
                  ++ AgentError (cfg_id broken) (cfg_name broken) (message e)
                     :: sync_errors r3).
  { rewrite He. subst r2. simpl. by rewrite <- app_assoc. }
  destruct (Sync.cleanupRemovedAgents _ _ w3) as [[n|err] w5] eqn:Hc; simpl.
  - repeat split.
    + rewrite Hn. by subst r2.
    + unfold agent_errors. simpl. by rewrite filter_all.
    + rewrite Hb. by subst r2.
    + intros i Hi. by eapply cleanupRemovedAgents_keeps.
  - repeat split.
    + rewrite Hn. by subst r2.
    + by rewrite agent_errors_app_failure.
    + intros i Hi. by eapply cleanupRemovedAgents_keeps.
Qed.

End LoopFacts.

Section Scenario.
Context `{Host}.

Lemma syncAgent_ok_valid agentConfig owner w agent w' :
  Sync.syncAgent agentConfig owner w = (Ok agent, w') ->
  cv_valid (ValidateConfigFile.validateAgentConfig agentConfig) = true.
Proof.
  unfold Sync.syncAgent.
  by destruct (cv_valid (ValidateConfigFile.validateAgentConfig agentConfig)).
Qed.

Lemma includes_id_declared l c i :
  In c l -> cfg_id c = Some i -> Sync.includes_id (map cfg_id l) i = true.
Proof.
  intros Hin Hid. unfold Sync.includes_id. apply existsb_exists.
  exists (Some i). split; [|by apply String.eqb_eq].
  rewrite <- Hid. by apply in_map.
Qed.

(** The scenario [ok1, broken, ok2] where [broken] fails validation and the
    other two reconcile: two agents are counted, the one error entry is that
    of [broken], and both reconciled agents are in the store after the pass,
    system-owned. *)
Lemma failure_isolation_scenario ok1 broken ok2 w a1 w1 a2 w2 :
  keyed w ->
  Sync.syncAgent ok1 Sync.getDefaultObjectId w = (Ok a1, w1) ->
  cv_valid (ValidateConfigFile.validateAgentConfig broken) = false ->
  Sync.syncAgent ok2 Sync.getDefaultObjectId w1 = (Ok a2, w2) ->
  let pass := Sync.syncDefaultAgents (Some [ok1; broken; ok2]) w in
  syncedCount (fst pass) = 2
  /\ agent_errors (fst pass)
     = [AgentError (cfg_id broken) (cfg_name broken)
          ("Invalid agent configuration: "
           +:+ join ", " (errors (ValidateConfigFile.validateAgentConfig broken)))]
  /\ success (fst pass) = false
  /\ agents (snd pass) !! Sync.show (cfg_id ok2) = Some a2
  /\ exists a1', agents (snd pass) !! Sync.show (cfg_id ok1) = Some a1'
                 /\ ag_author a1' = Sync.getDefaultObjectId.
Proof.
  intros Hk H1 Hv H3 pass.
  assert (H2 : Sync.syncAgent broken Sync.getDefaultObjectId w1
               = (Err (Error ("Invalid agent configuration: "
                              +:+ join ", "
                                    (errors (ValidateConfigFile.validateAgentConfig broken)))),
                  w1)).
  { unfold Sync.syncAgent. by rewrite Hv. }
  destruct (syncAgent_inv _ _ _ _ _ Hk H1) as ((Hk1 & _ & _) & _ & Hok1).
  destruct (Hok1 a1 eq_refl) as (Hst1 & Hau1 & _).
  destruct (syncAgent_inv _ _ _ _ _ (Hk1 Hk) H3) as ((_ & _ & Hm2) & _ & Hok2).
  destruct (Hok2 a2 eq_refl) as (Hst2 & _ & _).
  destruct (Hm2 _ _ Hst1) as (a1' & Hst1' & Hau1').
  destruct (validateAgentConfig_id ok1 (syncAgent_ok_valid _ _ _ _ _ H1)) as (i1 & Hid1 & Hs1).
  destruct (validateAgentConfig_id ok2 (syncAgent_ok_valid _ _ _ _ _ H3)) as (i2 & Hid2 & Hs2).
  rewrite Hs1, Hs2. rewrite Hs1 in Hst1, Hst1'. rewrite Hs2 in Hst2.
  assert (Hkeep : forall r w3,
            Sync.cleanupRemovedAgents (map cfg_id [ok1; broken; ok2])
              Sync.getDefaultObjectId w2 = (r, w3) ->
            agents w3 !! i2 = Some a2 /\ agents w3 !! i1 = Some a1').
  { intros r w3 Hc. split.
    - rewrite (cleanupRemovedAgents_keeps _ _ i2 _ _ _
                 (includes_id_declared [ok1; broken; ok2] ok2 i2
                    ltac:(simpl; auto) Hid2) Hc). done.
    - rewrite (cleanupRemovedAgents_keeps _ _ i1 _ _ _
                 (includes_id_declared [ok1; broken; ok2] ok1 i1
                    ltac:(simpl; auto) Hid1) Hc). done. }
  subst pass. unfold Sync.syncDefaultAgents.
  cbn [Sync.syncAgents]. rewrite H1, H2, H3.
  destruct (Sync.cleanupRemovedAgents _ _ w2) as [[n|err] w3] eqn:Hc;
    destruct (Hkeep _ _ eq_refl) as [Hk2 Hk1']; simpl.
  - repeat split; try done. exists a1'. split; [done|congruence].
  - repeat split; try done. exists a1'. split; [done|congruence].
Qed.

End Scenario.

Lemma failure_isolation_witness :
  let ok1 := Demo.agent "ok1" None in
  let broken := with_actions (Demo.agent "" None) None in
  let ok2 := Demo.agent "ok2" None in
  let pass := @Sync.syncDefaultAgents Demo.host (Some ([ok1] ++ broken :: [ok2]))
                Demo.empty_world in
  keyed Demo.empty_world
  /\ syncedCount (fst pass) = 2
  /\ agent_errors (fst pass)
     = [AgentError (Some "") (Some "Support")
          "Invalid agent configuration: Missing required field: id"]
  /\ success (fst pass) = false
  /\ is_Some (agents (snd pass) !! "ok1")
  /\ is_Some (agents (snd pass) !! "ok2").
Proof.
  intros ok1 broken ok2 pass.
  set (d := @Sync.getDefaultObjectId Demo.host).
  set (loop1 := @Sync.syncAgents Demo.host [ok1] d Sync.initialResults Demo.empty_world).
  set (e := Error "Invalid agent configuration: Missing required field: id").
  set (loop3 := @Sync.syncAgents Demo.host [ok2] d Sync.initialResults (snd loop1)).
  pose proof (@failure_isolation Demo.host [ok1] broken [ok2] Demo.empty_world
                (fst loop1) (snd loop1) e (snd loop1) (fst loop3) (snd loop3)
                keyed_empty (surjective_pairing loop1) eq_refl (surjective_pairing loop3))
    as (Hn & He & Hs & Hkeep).
  split; [exact keyed_empty|].
  split; [exact Hn|]. split; [exact He|]. split; [exact Hs|].
  split.
  - unfold pass. rewrite (Hkeep "ok1" eq_refl). vm_compute. by eexists.
  - unfold pass. rewrite (Hkeep "ok2" eq_refl). vm_compute. by eexists.
Defined.

(** ** A second pass over an unchanged configuration *)

Section FaultFree.
Context `{Host}.
Hypothesis Hff : fault_free.
Hypothesis Hsha : digest_nonempty.

Lemma syncAgent_halves agentConfig owner w :
  Sync.syncAgent agentConfig owner w
  = (if negb (cv_valid (ValidateConfigFile.validateAgentConfig agentConfig))
     then throw (Error ("Invalid agent configuration: "
                        +:+ join ", " (errors (ValidateConfigFile.validateAgentConfig
                                                 agentConfig))))
     else
       let! '(instructions, avatar) := Sync.loadAgentFileContent agentConfig in
       let! newConfigHash :=
         lift (HashUtils.calculateAgentConfigHash agentConfig instructions avatar) in
       let! agent := ensureAgent agentConfig owner instructions avatar newConfigHash in
       attachActions agentConfig owner agent) w.
Proof.
  unfold Sync.syncAgent, ensureAgent, attachActions.
  destruct (negb _); [done|]. unfold bind.
  destruct (Sync.loadAgentFileContent agentConfig w) as [[[instr av]|e] w1]; [|done].
  destruct (lift _ w1) as [[h|e] w2]; [|done].
  destruct (Store.getAgent _ _ w2) as [[ex|e] w3]; done.
Qed.

Lemma hash_nonempty h agentConfig instr av :
  HashUtils.calculateAgentConfigHash agentConfig instr av = Ok h -> h <> "".
Proof.
  destruct (calculateAgentConfigHash_ok agentConfig instr av) as [text ->].
  intros [= <-]. apply Hsha.
Qed.

Lemma db_call_ff {A} c (run : World -> result A * World) w :
  Store.db_call c run w
  = (fst (run w), Store.log c (is_ok (fst (run w))) (snd (run w))).
Proof. unfold Store.db_call. rewrite Hff. by destruct (run w). Qed.

(** Without an icon file, loading the content of an agent reads files only. *)
Lemma loadAgentFileContent_pure agentConfig :
  opt_truthy (cfg_iconFile agentConfig) = false ->
  exists r, forall w, Sync.loadAgentFileContent agentConfig w = (r, w).
Proof.
  intros Hicon. unfold Sync.loadAgentFileContent. rewrite Hicon.
  unfold bind, lift, ret, throw.
  destruct (opt_truthy (cfg_instructionsFile agentConfig)).
  - destruct (LoadConfigFile.loadConfigFile _ _) as [c|e]; [|by eexists].
    destruct (ValidateConfigFile.validateInstructions _ _); [|by eexists].
    destruct (opt_truthy (cfg_icon agentConfig)); by eexists.
  - destruct (opt_truthy (cfg_instructions agentConfig)).
    + destruct (ValidateConfigFile.validateInstructions _ _); [|by eexists].
      destruct (opt_truthy (cfg_icon agentConfig)); by eexists.
    + destruct (opt_truthy (cfg_icon agentConfig)); by eexists.
Qed.

Lemma completed_writes_app evs1 evs2 :
  completed_writes (evs1 ++ evs2) = completed_writes evs1 ++ completed_writes evs2.
Proof. unfold completed_writes. by rewrite List.filter_app, map_app. Qed.

Lemma syncAction_ff agentId owner actionConfig :
  exists r, forall w, exists w' evs,
    Sync.syncAction agentId owner actionConfig w = (r, w')
    /\ agents w' = agents w
    /\ trace w' = trace w ++ evs
    /\ Forall (fun e => is_action_refresh (ev_call e) = true) evs
    /\ completed_writes evs
       = if is_ok r
         then [CUpdateAction
                 (HashUtils.generateActionId (Sync.show (act_domain actionConfig)) agentId)]
         else [].
Proof.
  unfold Sync.syncAction, bind, lift, Store.updateAction.
  destruct (Sync.loadActionSpec actionConfig agentId) as [spec|e].
  2: { exists (Err e). intros w. exists w, []. by rewrite app_nil_r. }
  destruct (ActionService.encryptMetadata _) as [md|e].
  2: { exists (Err e). intros w. exists w, []. by rewrite app_nil_r. }
  eexists (Ok _). intros w. rewrite db_call_ff. simpl. eexists _, [_].
  repeat split; try done. by repeat constructor.
Qed.

Lemma syncActions_loop_ff agentId owner actionsConfig :
  forall synced, exists r, forall w, exists w' evs,
    Sync.syncActions_loop agentId owner actionsConfig synced w = (r, w')
    /\ agents w' = agents w
    /\ trace w' = trace w ++ evs
    /\ Forall (fun e => is_action_refresh (ev_call e) = true) evs
    /\ match r with
       | Ok l =>
           completed_writes evs
           = map (fun a => CUpdateAction
                             (HashUtils.generateActionId (Sync.show (act_domain a)) agentId))
               actionsConfig
           /\ length l = length synced + length actionsConfig
       | Err _ =>
           completed_writes evs
           `prefix_of` map (fun a => CUpdateAction
                                       (HashUtils.generateActionId
                                          (Sync.show (act_domain a)) agentId))
                         actionsConfig
       end.
Proof.
  induction actionsConfig as [|a rest IH]; intros synced; simpl.
  - exists (Ok synced). intros w. exists w, []. rewrite app_nil_r.
    repeat split; try done; lia.
  - destruct (syncAction_ff agentId owner a) as [[x|e] Ha].
    + destruct (IH (synced ++ [x])) as [r Hr]. exists r. intros w.
      destruct (Ha w) as (w1 & evs1 & Hs1 & Hag1 & Htr1 & Hall1 & Hw1).
      destruct (Hr w1) as (w2 & evs2 & Hs2 & Hag2 & Htr2 & Hall2 & Hw2).
      exists w2, (evs1 ++ evs2). unfold bind. rewrite Hs1.
      split; [done|]. split; [congruence|].
      split; [by rewrite Htr2, Htr1, app_assoc|].
      split; [by apply Forall_app|].
      rewrite completed_writes_app, Hw1. cbn [is_ok app].
      destruct r as [l|e].
      * destruct Hw2 as [-> ->]. split; [done|]. rewrite length_app. cbn. lia.
      * by apply prefix_cons.
    + exists (Err e). intros w.
      destruct (Ha w) as (w1 & evs1 & Hs1 & Hag1 & Htr1 & Hall1 & Hw1).
      exists w1, evs1. unfold bind. rewrite Hs1.
      repeat split; try done. rewrite Hw1. apply prefix_nil.
Qed.

(** With a persistence layer that does not fail, the outcome of action
    reconciliation is decided by the declaration and the files alone, and
    its only calls are upserts of actions. *)
Lemma syncActions_ff agentId owner actionsConfig :
  exists r, forall w, exists w' evs,
    Sync.syncActions agentId actionsConfig owner w = (r, w')
    /\ agents w' = agents w
    /\ trace w' = trace w ++ evs
    /\ Forall (fun e => is_action_refresh (ev_call e) = true) evs
    /\ (default [] actionsConfig = [] -> evs = [] /\ r = Ok [])
    /\ match r with
       | Ok l =>
           completed_writes evs
           = map (fun a => CUpdateAction
                             (HashUtils.generateActionId (Sync.show (act_domain a)) agentId))
               (default [] actionsConfig)
           /\ length l = length (default [] actionsConfig)
       | Err _ =>
           completed_writes evs
           `prefix_of` map (fun a => CUpdateAction
                                       (HashUtils.generateActionId
                                          (Sync.show (act_domain a)) agentId))
                         (default [] actionsConfig)
       end.
Proof.
  unfold Sync.syncActions. destruct actionsConfig as [[|a rest]|].
  - exists (Ok []). intros w. exists w, []. by rewrite app_nil_r.
  - destruct (syncActions_loop_ff agentId owner (a :: rest) []) as [r Hr].
    exists r. intros w. destruct (Hr w) as (w' & evs & Hs & Hag & Htr & Hall & Hw).
    exists w', evs. repeat split; try done.
  - exists (Ok []). intros w. exists w, []. by rewrite app_nil_r.
Qed.

Lemma completed_writes_refresh evs :
  Forall (fun e => is_action_refresh (ev_call e) = true) evs ->
  Forall (fun c => is_action_refresh c = true) (completed_writes evs).
Proof.
  induction 1 as [|e evs He _ IH]; simpl; [constructor|].
  unfold completed_writes. simpl. destruct (ev_ok e && is_write (ev_call e)); [|done].
  simpl. by constructor.
Qed.

Lemma existingHash_last versions h a :
  ag_versions a = versions ++ [ {| configHash := Some h |} ] ->
  Sync.existingHash a = Some h.
Proof.
  intros Hv. unfold Sync.existingHash. rewrite Hv, fmap_app. simpl.
  by rewrite List.last_last.
Qed.

(** The first half on a record that already carries the hash: one read, no
    write. *)
Lemma ensureAgent_skip agentConfig owner instr av h s w i :
  Sync.show (cfg_id agentConfig) = i ->
  agents w !! i = Some s -> ag_author s = owner -> Sync.existingHash s = Some h ->
  h <> "" ->
  ensureAgent agentConfig owner instr av h w = (Ok s, Store.log (CGetAgent i) true w).
Proof.
  intros Hi Hs Hau Hh Hne. unfold ensureAgent, bind, Store.getAgent.
  rewrite db_call_ff, Hi. simpl. rewrite Hs, Hau, String.eqb_refl. simpl.
  rewrite Hh. unfold opt_truthy, HashUtils.hashesEqual, Sync.show. simpl.
  rewrite String.eqb_refl, (proj2 (String.eqb_neq h "") Hne). done.
Qed.

(** The first half when the id belongs to a record of another owner: the
    creation is refused and nothing is written. *)
Lemma ensureAgent_foreign agentConfig owner instr av h ex w i :
  cfg_id agentConfig = Some i ->
  agents w !! i = Some ex -> ag_author ex <> owner ->
  exists e w1 evs,
    ensureAgent agentConfig owner instr av h w = (Err e, w1)
    /\ agents w1 = agents w
    /\ trace w1 = trace w ++ evs
    /\ completed_writes evs = [].
Proof.
  intros Hi Hex Hau. unfold ensureAgent, bind, Store.getAgent.
  assert (Hshow : Sync.show (cfg_id agentConfig) = i) by (by rewrite Hi).
  rewrite db_call_ff, Hshow. simpl. rewrite Hex.
  rewrite (proj2 (String.eqb_neq _ _) Hau). simpl.
  unfold Sync.createDefaultAgent, bind, lift, Store.createAgent.
  destruct (calculateAgentConfigHash_ok agentConfig instr av) as [text ->].
  rewrite db_call_ff, Hi. simpl. rewrite Hex. simpl.
  eexists _, _, [_; _]. repeat split; try done.
  - simpl. rewrite <- app_assoc. reflexivity.
  - reflexivity.
Qed.

(** The first half, from any state: either the id belongs to another owner
    and nothing changes, or a system-owned record carrying the hash is
    stored under the id. *)
Lemma ensureAgent_ff agentConfig owner instr av h w r w1 i :
  keyed w ->
  cfg_id agentConfig = Some i ->
  HashUtils.calculateAgentConfigHash agentConfig instr av = Ok h ->
  ensureAgent agentConfig owner instr av h w = (r, w1) ->
  (exists ex, agents w !! i = Some ex /\ ag_author ex <> owner
              /\ agents w1 = agents w /\ is_ok r = false)
  \/ (exists agent0, r = Ok agent0 /\ agents w1 !! i = Some agent0
                     /\ (forall k, k <> i -> agents w1 !! k = agents w !! k)
                     /\ ag_id agent0 = i /\ ag_author agent0 = owner
                     /\ Sync.existingHash agent0 = Some h).
Proof.
  intros Hk Hi Hhash. unfold ensureAgent, bind, Store.getAgent.
  assert (Hshow : Sync.show (cfg_id agentConfig) = i) by (by rewrite Hi).
  rewrite db_call_ff, Hshow. simpl.
  destruct (agents w !! i) as [ex|] eqn:Hex.
  - destruct (String.eqb (ag_author ex) owner) eqn:Eau.
    + apply String.eqb_eq in Eau. simpl.
      destruct (opt_truthy (Sync.existingHash ex)
                && HashUtils.hashesEqual (Sync.show (Sync.existingHash ex)) h) eqn:Ec.
      * intros [= <- <-]. right. exists ex. simpl. repeat split; try done.
        -- by apply Hk.
        -- apply andb_true_iff in Ec as [Et Ec]. apply String.eqb_eq in Ec.
           destruct (Sync.existingHash ex) as [x|]; [|done].
           unfold Sync.show in Ec. simpl in Ec. by subst.
      * unfold Sync.updateDefaultAgent, bind, lift, Store.updateAgent. rewrite Hhash.
        rewrite db_call_ff. simpl. rewrite (Hk _ _ Hex), Hex. simpl.
        intros [= <- <-]. right. eexists. simpl. split; [reflexivity|].
        split; [by rewrite lookup_insert_eq|].
        split; [intros k Hne; by rewrite lookup_insert_ne|].
        unfold Store.apply_update. simpl.
        split; [by apply Hk|]. split; [done|].
        by eapply existingHash_last.
    + simpl. intros Hc. left. exists ex. apply String.eqb_neq in Eau.
      destruct (ensureAgent_foreign agentConfig owner instr av h ex w i Hi Hex Eau)
        as (e & w2 & evs & He & Hag & _).
      unfold ensureAgent, bind, Store.getAgent in He. rewrite db_call_ff, Hshow in He.
      simpl in He. rewrite Hex, (proj2 (String.eqb_neq _ _) Eau) in He. simpl in He.
      rewrite He in Hc. injection Hc as <- <-. done.
  - simpl. unfold Sync.createDefaultAgent, bind, lift, Store.createAgent. rewrite Hhash.
    rewrite db_call_ff, Hi. simpl. rewrite Hex. simpl.
    intros [= <- <-]. right. eexists. simpl. repeat split; try done.
    + by rewrite lookup_insert_eq.
    + intros k Hne. by rewrite lookup_insert_ne.
Qed.

Lemma refreshed_idem synced agent :
  refreshed synced (refreshed synced agent) = refreshed synced agent.
Proof. by destruct synced. Qed.

Lemma refreshed_facts synced agent :
  ag_id (refreshed synced agent) = ag_id agent
  /\ ag_author (refreshed synced agent) = ag_author agent
  /\ Sync.existingHash (refreshed synced agent) = Sync.existingHash agent.
Proof. by destruct synced. Qed.

Lemma declared_action_ids_nil agentConfig :
  declared_action_ids agentConfig = [] -> default [] (cfg_actions agentConfig) = [].
Proof. unfold declared_action_ids. by destruct (default [] (cfg_actions agentConfig)). Qed.

(** The second half, on a world that stores [agent0] under the declared id:
    its outcome is decided by the declaration and the files, and it stores
    the record refreshed with the ids of the synced actions. *)
Lemma attachActions_ff agentConfig owner :
  exists ra, forall agent0 w1 i,
    Sync.show (cfg_id agentConfig) = i -> ag_id agent0 = i ->
    agents w1 !! i = Some agent0 ->
    exists r w' evs,
      attachActions agentConfig owner agent0 w1 = (r, w')
      /\ trace w' = trace w1 ++ evs
      /\ quiet agentConfig evs
      /\ match ra with
         | Err e => r = Err e /\ agents w' = agents w1
         | Ok l => r = Ok (refreshed l agent0)
                   /\ agents w' = <[i := refreshed l agent0]> (agents w1)
         end
      /\ repeated agentConfig (is_ok r) (completed_writes evs).
Proof.
  destruct (syncActions_ff (Sync.show (cfg_id agentConfig)) owner (cfg_actions agentConfig))
    as [ra Hra].
  exists ra. intros agent0 w1 i Hshow Hid0 Hst.
  destruct (Hra w1) as (w2 & evs & Hs & Hag & Htr & Hall & Hnil & Hw).
  unfold attachActions, bind. rewrite Hs.
  assert (Hq : quiet agentConfig evs).
  { split; [by apply completed_writes_refresh|].
    intros Hd. apply declared_action_ids_nil in Hd. by destruct (Hnil Hd) as [-> _]. }
  assert (Hids : map (fun a => CUpdateAction
                                 (HashUtils.generateActionId (Sync.show (act_domain a))
                                    (Sync.show (cfg_id agentConfig))))
                   (default [] (cfg_actions agentConfig))
                 = map CUpdateAction (declared_action_ids agentConfig)).
  { unfold declared_action_ids. by rewrite map_map. }
  rewrite Hids in Hw.
  destruct ra as [[|x l]|e].
  - exists (Ok agent0), w2, evs. simpl.
    split; [done|]. split; [done|]. split; [exact Hq|]. split.
    { split; [done|]. rewrite Hag. symmetry. by apply insert_id. }
    destruct Hw as [Hw Hlen]. unfold refresh_calls, declared_action_ids in *.
    destruct (default [] (cfg_actions agentConfig)); [|done]. by rewrite Hw.
  - simpl. unfold Store.updateAgent. rewrite db_call_ff. simpl.
    rewrite Hag, Hid0, Hst. simpl.
    eexists _, _, (evs ++ [_]). split; [reflexivity|].
    split; [simpl; by rewrite Htr, <- app_assoc|].
    split; [|split; [split; [reflexivity|simpl; by rewrite Hag]|]].
    + destruct Hq as [Hq1 Hq2]. split.
      * rewrite completed_writes_app. apply Forall_app. split; [done|].
        by repeat constructor.
      * intros Hd. apply declared_action_ids_nil in Hd. by destruct (Hnil Hd) as [_ ?].
    + destruct Hw as [Hw Hlen]. rewrite completed_writes_app, Hw. rewrite <- Hshow.
      unfold repeated, refresh_calls, declared_action_ids in *. cbn [is_ok].
      destruct (default [] (cfg_actions agentConfig)); [done|]. reflexivity.
  - exists (Err e), w2, evs. done.
Qed.

(** Reconciling an agent a second time, in any state that stores under its
    id what the first reconciliation left there, has the same outcome and
    changes no agent; it only re-upserts the declared actions and rewrites
    the action-id list. *)
Lemma syncAgent_repeat agentConfig owner w r w' v :
  opt_truthy (cfg_iconFile agentConfig) = false ->
  keyed w -> keyed v ->
  Sync.syncAgent agentConfig owner w = (r, w') ->
  (forall i, cfg_id agentConfig = Some i -> agents v !! i = agents w' !! i) ->
  exists r' v' evs,
    Sync.syncAgent agentConfig owner v = (r', v')
    /\ is_ok r' = is_ok r
    /\ agents v' = agents v
    /\ trace v' = trace v ++ evs
    /\ quiet agentConfig evs
    /\ repeated agentConfig (is_ok r') (completed_writes evs).
Proof.
  intros Hicon Hk Hkv Hs Hsame. rewrite syncAgent_halves in Hs. rewrite syncAgent_halves.
  assert (Hq0 : quiet agentConfig []) by (split; [constructor|done]).
  assert (Hr0 : repeated agentConfig false (completed_writes [])) by apply prefix_nil.
  destruct (cv_valid (ValidateConfigFile.validateAgentConfig agentConfig)) eqn:Hv;
    simpl in Hs |- *.
  2: { injection Hs as <- <-. eexists _, v, []. rewrite app_nil_r.
       split; [reflexivity|]. done. }
  destruct (validateAgentConfig_id _ Hv) as (i & Hid & Hshow).
  specialize (Hsame i Hid).
  destruct (loadAgentFileContent_pure agentConfig Hicon) as [rc Hrc].
  unfold bind at 1 in Hs. unfold bind at 1. rewrite Hrc in Hs. rewrite Hrc.
  destruct rc as [[instr av]|e].
  2: { injection Hs as <- <-. eexists _, v, []. rewrite app_nil_r.
       split; [reflexivity|]. done. }
  destruct (calculateAgentConfigHash_ok agentConfig instr av) as [text Hh].
  unfold bind at 1 in Hs. unfold bind at 1. unfold lift in Hs |- *. rewrite Hh in Hs |- *.
  set (h := sha256_hex text) in *.
  unfold bind in Hs. unfold bind.
  destruct (ensureAgent agentConfig owner instr av h w) as [rA w1] eqn:HA.
  apply (ensureAgent_ff _ _ _ _ _ _ _ _ i Hk Hid Hh) in HA
      as [(ex & Hex & Hau & Hag & Hok)|(agent0 & -> & Hst & Hfr & Hid0 & Hau0 & Hh0)].
  - destruct rA as [a|e]; [done|]. injection Hs as <- <-.
    rewrite Hag, Hex in Hsame.
    destruct (ensureAgent_foreign agentConfig owner instr av h ex v i Hid Hsame Hau)
      as (e' & v1 & evs & He & Hagv & Htr & Hcw).
    rewrite He. exists (Err e'), v1, evs.
    split; [done|]. split; [done|]. split; [done|]. split; [done|].
    split; [split; [rewrite Hcw; constructor|done]|].
    rewrite Hcw. apply prefix_nil.
  - destruct (attachActions_ff agentConfig owner) as [ra Hatt].
    destruct (Hatt agent0 w1 i Hshow Hid0 Hst)
      as (r1 & w1' & evs1 & Ha1 & _ & _ & Hcase & _).
    rewrite Ha1 in Hs. injection Hs as <- <-.
    set (s := match ra with Ok l => refreshed l agent0 | Err _ => agent0 end).
    assert (Hs' : agents w1' !! i = Some s).
    { subst s. destruct ra as [l|e]; destruct Hcase as [_ ->]; [|done].
      by rewrite lookup_insert_eq. }
    assert (Hsfacts : ag_id s = i /\ ag_author s = owner /\ Sync.existingHash s = Some h).
    { subst s. destruct ra as [l|e]; [|done].
      destruct (refreshed_facts l agent0) as (-> & -> & ->). done. }
    destruct Hsfacts as (Hids & Haus & Hhs).
    rewrite Hs' in Hsame.
    rewrite (ensureAgent_skip agentConfig owner instr av h s v i Hshow Hsame Haus Hhs
               (Hsha text)).
    destruct (Hatt s (Store.log (CGetAgent i) true v) i Hshow Hids Hsame)
      as (r2 & v2 & evs2 & Ha2 & Htr2 & Hq2 & Hcase2 & Hrep2).
    rewrite Ha2. exists r2, v2, ([mkEvent (CGetAgent i) true] ++ evs2).
    split; [done|]. split; [|split; [|split; [|split]]].
    + destruct ra as [l|e]; destruct Hcase as [-> _]; destruct Hcase2 as [-> _]; done.
    + destruct ra as [l|e]; destruct Hcase2 as [_ ->]; [|done].
      subst s. rewrite refreshed_idem. simpl. by apply insert_id.
    + rewrite Htr2. simpl. by rewrite <- app_assoc.
    + destruct Hq2 as [Hq21 Hq22]. split; by rewrite completed_writes_app.
    + by rewrite completed_writes_app.
Qed.

Lemma keyed_same w v : agents v = agents w -> keyed w -> keyed v.
Proof. unfold keyed. by intros ->. Qed.

(** The entries that the loop adds to [results.errors] carry the ids of the
    agents it goes through. *)
Lemma has_error_syncAgents defaultAgents owner c :
  cfg_id c ∉ map cfg_id defaultAgents ->
  forall results w,
    has_error (fst (Sync.syncAgents defaultAgents owner results w)) c = has_error results c.
Proof.
  induction defaultAgents as [|c' rest IH]; intros Hnotin results w; [done|].
  cbn [map] in Hnotin. apply not_elem_of_cons in Hnotin as [Hne Hnotin].
  cbn [Sync.syncAgents]. destruct (Sync.syncAgent c' owner w) as [[agent|e] w1].
  - by rewrite IH.
  - rewrite IH by done. unfold has_error. cbn [Sync.recordError sync_errors].
    rewrite existsb_app. cbn [existsb]. rewrite bool_decide_eq_false_2 by congruence.
    by rewrite !orb_false_r.
Qed.

(** A second run of the loop over agents with distinct ids and no icon
    file, from a state that stores under every declared id what the first
    run left there. *)
Lemma syncAgents_repeat defaultAgents owner :
  NoDup (map cfg_id defaultAgents) ->
  Forall (fun c => opt_truthy (cfg_iconFile c) = false) defaultAgents ->
  forall w results v results',
    keyed w -> keyed v ->
    (forall c i, In c defaultAgents -> cfg_id c = Some i ->
                 agents v !! i
                 = agents (snd (Sync.syncAgents defaultAgents owner results w)) !! i) ->
    Forall (fun c => has_error results' c = false) defaultAgents ->
    exists r2 v' evs,
      Sync.syncAgents defaultAgents owner results' v = (r2, v')
      /\ agents v' = agents v
      /\ trace v' = trace v ++ evs
      /\ syncedCount r2 + syncedCount results
         = syncedCount (fst (Sync.syncAgents defaultAgents owner results w))
           + syncedCount results'
      /\ Forall (fun c => is_action_refresh c = true) (completed_writes evs)
      /\ (Forall (fun c => declared_action_ids c = []) defaultAgents ->
          completed_writes evs = [])
      /\ exists writes,
           completed_writes evs = concat writes
           /\ Forall2 (fun c ws => repeated c (negb (has_error r2 c)) ws)
                defaultAgents writes.
Proof.
  induction defaultAgents as [|c rest IH];
    intros Hnd Hicons w results v results' Hk Hkv Hsame Hclean.
  - exists results', v, []. simpl. rewrite app_nil_r. repeat split; try done; [lia|].
    exists []. by split; [|constructor].
  - simpl in Hnd. apply NoDup_cons in Hnd as [Hnotin Hnd].
    inversion Hclean as [|? ? Hclean_c Hclean_rest]; subst.
    inversion Hicons as [|? ? Hicon Hicons']; subst.
    simpl in Hsame |- *.
    destruct (Sync.syncAgent c owner w) as [r w1] eqn:Hs.
    destruct (syncAgent_inv _ _ _ _ _ Hk Hs) as ((Hk1 & _ & _) & _ & _).
    specialize (Hk1 Hk).
    set (next := match r with
                 | Ok _ => Sync.recordSynced results
                 | Err error => Sync.recordError
                                  (AgentError (cfg_id c) (cfg_name c) (message error)) results
                 end).
    assert (Hrun : (let (r0, w') := (r, w1) in
                    match r0 with
                    | Ok _ => Sync.syncAgents rest owner (Sync.recordSynced results) w'
                    | Err error =>
                        Sync.syncAgents rest owner
                          (Sync.recordError
                             (AgentError (cfg_id c) (cfg_name c) (message error)) results) w'
                    end) = Sync.syncAgents rest owner next w1) by (by destruct r).
    rewrite Hrun in Hsame |- *. clear Hrun.
    assert (Hc : forall i, cfg_id c = Some i -> agents v !! i = agents w1 !! i).
    { intros i Hi. rewrite (Hsame c i (or_introl eq_refl) Hi).
      destruct (syncAgents_inv rest owner next w1 Hk1) as (_ & _ & Hfr).
      apply Hfr. apply List.Forall_forall. intros c' Hin Heq.
      apply Hnotin. rewrite Hi, <- Heq. apply list_elem_of_In. by apply in_map. }
    destruct (syncAgent_repeat c owner w r w1 v Hicon Hk Hkv Hs Hc)
      as (r' & v1 & evs1 & Hs' & Hok & Hag1 & Htr1 & (Hq1 & Hq1') & Hrep1).
    rewrite Hs'.
    set (next' := match r' with
                  | Ok _ => Sync.recordSynced results'
                  | Err error => Sync.recordError
                                   (AgentError (cfg_id c) (cfg_name c) (message error))
                                   results'
                  end).
    assert (Hnext_c : has_error next' c = negb (is_ok r')).
    { subst next'. destruct r' as [a'|e']; [exact Hclean_c|].
      unfold has_error. cbn [Sync.recordError sync_errors]. rewrite existsb_app.
      cbn [existsb]. rewrite bool_decide_eq_true_2 by done. by rewrite orb_true_r. }
    assert (Hnext_rest : Forall (fun c' => has_error next' c' = false) rest).
    { subst next'. destruct r' as [a'|e']; [exact Hclean_rest|].
      rewrite Forall_forall in Hclean_rest |- *. intros c' Hin.
      unfold has_error. cbn [Sync.recordError sync_errors]. rewrite existsb_app.
      cbn [existsb]. fold (has_error results' c'). rewrite (Hclean_rest c' Hin).
      rewrite bool_decide_eq_false_2; [done|]. intros Heq. apply Hnotin.
      rewrite Heq. by apply list_elem_of_fmap_2. }
    destruct (IH Hnd Hicons' w1 next v1 next' Hk1 (keyed_same _ _ Hag1 Hkv))
      as (r2 & v2 & evs2 & Hs2 & Hag2 & Htr2 & Hn2 & Hq2 & Hq2' & writes & Hw2 & Hall2).
    { intros c' i Hin Hi. rewrite Hag1. apply (Hsame c' i); [by right|done]. }
    { exact Hnext_rest. }
    exists r2, v2, (evs1 ++ evs2).
    split; [by destruct r'|].
    split; [congruence|].
    split; [by rewrite Htr2, Htr1, app_assoc|].
    split; [|split; [|split]].
    + subst next next'. destruct r, r'; simpl in *; try done; lia.
    + rewrite completed_writes_app. by apply Forall_app.
    + intros Hall. inversion Hall; subst. rewrite completed_writes_app.
      by rewrite Hq1', Hq2'.
    + exists (completed_writes evs1 :: writes). split.
      * by rewrite completed_writes_app, Hw2.
      * constructor; [|exact Hall2].
        pose proof (has_error_syncAgents rest owner c Hnotin next' v1) as Hfin.
        rewrite Hs2 in Hfin. cbn [fst] in Hfin.
        by rewrite Hfin, Hnext_c, negb_involutive.
Qed.

Lemma deleteActions_ff actionIds owner w :
  exists w', Sync.deleteActions actionIds owner w = (Ok tt, w') /\ agents w' = agents w.
Proof.
  revert w. induction actionIds as [|a rest IH]; intros w; simpl; [by eexists|].
  unfold bind, Store.deleteAction. rewrite db_call_ff. simpl.
  destruct (IH (Store.log (CDeleteAction a) true
                  (Store.set_actions (delete (a, owner)) w))) as (w' & -> & Hag).
  by exists w'.
Qed.

(** With a persistence layer that does not fail, no agent handed to the
    removal loop is left in the store as a system-owned record, and the loop
    only deletes. *)
Lemma removeAgents_ff removedAgents owner w :
  exists w',
    Sync.removeAgents removedAgents owner w = (Ok tt, w')
    /\ (forall k, agents w' !! k = None \/ agents w' !! k = agents w !! k)
    /\ (forall a r, In a removedAgents -> agents w' !! ag_id a = Some r ->
                    ag_author r <> owner).
Proof.
  revert w. induction removedAgents as [|a rest IH]; intros w; simpl.
  - exists w. repeat split; auto.
  - unfold bind, try_catch, Sync.removeAgent, bind.
    destruct (deleteActions_ff (ag_actions a) owner w) as (w1 & -> & Hag1).
    unfold Store.deleteAgent. rewrite db_call_ff. rewrite Hag1.
    set (w2 := Store.log _ _ _).
    assert (Hw2 : (forall k, agents w2 !! k = None \/ agents w2 !! k = agents w !! k)
                  /\ (forall r, agents w2 !! ag_id a = Some r -> ag_author r <> owner)
                  /\ exists u, (match agents w !! ag_id a with
                                | Some a0 => if String.eqb (ag_author a0) owner
                                             then (Ok tt, Store.set_agents (delete (ag_id a)) w1)
                                             else (Ok tt, w1)
                                | None => (Ok tt, w1)
                                end).1 = Ok u).
    { subst w2. destruct (agents w !! ag_id a) as [a0|] eqn:Ea.
      - destruct (String.eqb (ag_author a0) owner) eqn:Eau; simpl.
        + split; [|split; [|by eexists]].
          * intros k. rewrite Hag1. destruct (decide (k = ag_id a)) as [->|Hne].
            -- left. apply lookup_delete_eq.
            -- right. by apply lookup_delete_ne.
          * intros r. by rewrite Hag1, lookup_delete_eq.
        + split; [|split; [|by eexists]].
          * intros k. right. by rewrite Hag1.
          * intros r. rewrite Hag1, Ea. intros [= <-]. by apply String.eqb_neq.
      - simpl. split; [|split; [|by eexists]].
        + intros k. right. by rewrite Hag1.
        + intros r. by rewrite Hag1, Ea. }
    destruct Hw2 as (Hmono & Hgone & [[] Hu]). rewrite Hu. simpl.
    destruct (IH w2) as (w' & Hs & Hmono' & Hgone').
    exists w'. split; [done|]. split.
    + intros k. destruct (Hmono' k) as [?|Hk']; [by left|].
      rewrite Hk'. apply Hmono.
    + intros a' r [<-|Hin] Hl.
      * destruct (Hmono' (ag_id a)) as [Hn|Hk']; [congruence|].
        rewrite Hk' in Hl. by apply Hgone.
      * by eapply Hgone'.
Qed.

Lemma in_orphans ids owner w a :
  In a (orphans ids owner w)
  <-> (exists k, agents w !! k = Some a) /\ ag_author a = owner
      /\ Sync.includes_id ids (ag_id a) = false.
Proof.
  unfold orphans. rewrite List.filter_In, <- list_elem_of_In, list_elem_of_filter,
    list_elem_of_fmap, negb_true_iff.
  split.
  - intros [[Hau ([k a'] & -> & Hin)] Hinc]. apply elem_of_map_to_list in Hin. eauto.
  - intros ([k Hk] & Hau & Hinc). repeat split; try done.
    exists (k, a). split; [done|]. by apply elem_of_map_to_list.
Qed.

(** After a cleanup that meets no failure, no removed agent is left. *)
Lemma cleanupRemovedAgents_ff ids owner w :
  keyed w ->
  exists n w',
    Sync.cleanupRemovedAgents ids owner w = (Ok n, w')
    /\ orphans ids owner w' = []
    /\ keyed w'.
Proof.
  intros Hk. unfold Sync.cleanupRemovedAgents, bind, Store.findAgents.
  rewrite db_call_ff. simpl. fold (orphans ids owner w).
  set (w1 := Store.log CFindAgents true w).
  destruct (removeAgents_ff (orphans ids owner w) owner w1) as (w' & Hr & Hmono & Hgone).
  assert (Hkeyed : keyed w').
  { intros k r Hl. destruct (Hmono k) as [Hn|He]; [congruence|].
    rewrite He in Hl. by apply Hk. }
  assert (Hnone : orphans ids owner w' = []).
  { destruct (orphans ids owner w') as [|a rest] eqn:Eo; [done|]. exfalso.
    assert (Hin : In a (orphans ids owner w')) by (rewrite Eo; by left).
    apply in_orphans in Hin as ([k Hl] & Hau & Hinc).
    pose proof (Hkeyed _ _ Hl) as Hid.
    destruct (Hmono k) as [Hn|He]; [congruence|].
    assert (Hin0 : In a (orphans ids owner w)).
    { apply in_orphans. split; [|done]. exists k.
      change (agents w1 !! k = Some a). by rewrite <- He. }
    rewrite <- Hid in Hl. by apply (Hgone a a Hin0 Hl). }
  destruct (orphans ids owner w) as [|a rest] eqn:Eo.
  - exists 0, w1. split; [done|]. split; [exact Eo|]. by apply (keyed_same w).
  - rewrite Hr. by exists (length (a :: rest)), w'.
Qed.

Lemma cleanupRemovedAgents_settled ids owner w :
  orphans ids owner w = [] ->
  Sync.cleanupRemovedAgents ids owner w = (Ok 0, Store.log CFindAgents true w).
Proof.
  intros Ho. unfold Sync.cleanupRemovedAgents, bind, Store.findAgents.
  rewrite db_call_ff. simpl. fold (orphans ids owner w). by rewrite Ho.
Qed.

Lemma orphans_same ids owner w v :
  agents v = agents w -> orphans ids owner v = orphans ids owner w.
Proof. unfold orphans. by intros ->. Qed.

Lemma new_events_app w v evs : trace v = trace w ++ evs -> new_events w v = evs.
Proof. unfold new_events. intros ->. by rewrite drop_app_length. Qed.

(** C3, as the code has it.  For a configuration whose agents have distinct
    ids and no icon file, and a persistence layer that does not fail, a
    second pass with the configuration unchanged counts as many synced
    agents as the first and leaves the agents of the store exactly as the
    first pass left them: it creates no agent, appends no version and deletes
    nothing.  It is not free of writes.  The writes it completes are, agent
    by agent in the order of the declarations: for an agent it reconciles,
    one upsert for each declared action, in order, and then, when the agent
    declares an action, one rewrite of its action-id list; for an agent that
    ends in [errors], upserts of the actions declared before the point of
    failure, if any.  When no agent declares an action it completes no write
    at all. *)
Theorem sync_twice config w0 :
  keyed w0 ->
  NoDup (map cfg_id (default [] config)) ->
  Forall (fun c => opt_truthy (cfg_iconFile c) = false) (default [] config) ->
  let pass1 := Sync.syncDefaultAgents config w0 in
  let pass2 := Sync.syncDefaultAgents config (snd pass1) in
  syncedCount (fst pass2) = syncedCount (fst pass1)
  /\ agents (snd pass2) = agents (snd pass1)
  /\ Forall (fun c => is_action_refresh c = true)
        (completed_writes (new_events (snd pass1) (snd pass2)))
  /\ (Forall (fun c => declared_action_ids c = []) (default [] config) ->
      completed_writes (new_events (snd pass1) (snd pass2)) = [])
  /\ exists writes,
       completed_writes (new_events (snd pass1) (snd pass2)) = concat writes
       /\ Forall2 (fun c ws => repeated c (negb (has_error (fst pass2) c)) ws)
            (default [] config) writes.
Proof.
  intros Hk Hnd Hicons pass1 pass2.
  assert (Hnone : forall w, new_events w w = []).
  { intros w. apply new_events_app. by rewrite app_nil_r. }
  destruct config as [[|c rest]|]; simpl in Hnd, Hicons.
  1, 3: subst pass1 pass2; simpl; rewrite Hnone; repeat split; try done;
        exists []; by split; [|constructor].
  set (l := c :: rest) in *. set (owner := Sync.getDefaultObjectId).
  assert (Hl : l <> []) by done.
  subst pass2 pass1. rewrite (syncDefaultAgents_nonempty l w0 Hl).
  destruct (Sync.syncAgents l Sync.getDefaultObjectId Sync.initialResults w0)
    as [r1 wl] eqn:Hloop1. fold owner in Hloop1 |- *.
  destruct (syncAgents_inv l owner Sync.initialResults w0 Hk) as (Hkl & _ & _).
  rewrite Hloop1 in Hkl. simpl in Hkl.
  destruct (cleanupRemovedAgents_ff (map cfg_id l) owner wl Hkl)
    as (n & w1 & Hc1 & Ho1 & Hk1).
  rewrite Hc1. cbn [fst snd].
  rewrite (syncDefaultAgents_nonempty l w1 Hl). fold owner.
  destruct (syncAgents_repeat l owner Hnd Hicons w0 Sync.initialResults w1
              Sync.initialResults Hk Hk1)
    as (r2 & v' & evs & Hloop2 & Hag2 & Htr2 & Hn2 & Hq2 & Hq2' & writes & Hw2 & Hall2).
  { intros c' i Hin Hi. rewrite Hloop1. simpl.
    by apply (cleanupRemovedAgents_keeps _ _ i _ _ _ (includes_id_declared l c' i Hin Hi) Hc1). }
  { by apply Forall_forall. }
  rewrite Hloop2, Hloop1 in *. simpl in Hn2.
  rewrite (cleanupRemovedAgents_settled (map cfg_id l) owner v')
    by (by rewrite (orphans_same _ _ w1)).
  simpl.
  rewrite (new_events_app w1 _ (evs ++ [mkEvent CFindAgents true]))
    by (simpl; by rewrite Htr2, <- app_assoc).
  rewrite completed_writes_app.
  change (completed_writes [mkEvent CFindAgents true]) with (@nil Call).
  rewrite app_nil_r.
  split; [lia|]. split; [done|]. split; [done|].
  split; [intros Hall; by apply Hq2'|].
  exists writes. by split.
Qed.

End FaultFree.

Lemma demo_fault_free : @fault_free Demo.host.
Proof. done. Qed.

Lemma demo_digest_nonempty : @digest_nonempty Demo.host.
Proof. intros s. simpl. unfold String.app. simpl. discriminate. Qed.

Lemma sync_twice_witness :
  let config :=
    Some [Demo.agent "support" (Some [Demo.action "api.example.com" None;
                                      Demo.action "crm.example.com" None]);
          Demo.agent "sales" None;
          Demo.agent "billing" (Some [Demo.action "pay.example.com" None;
                                      Demo.broken_action "tax.example.com";
                                      Demo.action "bank.example.com" None])] in
  let pass1 := @Sync.syncDefaultAgents Demo.host config Demo.empty_world in
  let pass2 := @Sync.syncDefaultAgents Demo.host config (snd pass1) in
  @fault_free Demo.host
  /\ @digest_nonempty Demo.host
  /\ keyed Demo.empty_world
  /\ syncedCount (fst pass2) = syncedCount (fst pass1)
  /\ agents (snd pass2) = agents (snd pass1)
  /\ (exists writes,
        completed_writes (new_events (snd pass1) (snd pass2)) = concat writes
        /\ Forall2 (fun c ws => repeated c (negb (has_error (fst pass2) c)) ws)
             (default [] config) writes)
  /\ map (has_error (fst pass2)) (default [] config) = [false; false; true]
  /\ completed_writes (new_events (snd pass1) (snd pass2))
     = [CUpdateAction "api.example.com_support"; CUpdateAction "crm.example.com_support";
        CUpdateAgent "support" false; CUpdateAction "pay.example.com_billing"].
Proof.
  intros config pass1 pass2.
  assert (Hnd : NoDup (map cfg_id (default [] config))).
  { apply (bool_decide_eq_true_1 (NoDup (map cfg_id (default [] config)))).
    by vm_compute. }
  assert (Hicons : Forall (fun c => opt_truthy (cfg_iconFile c) = false) (default [] config))
    by (by repeat constructor).
  destruct (@sync_twice Demo.host demo_fault_free demo_digest_nonempty config
              Demo.empty_world keyed_empty Hnd Hicons) as (Hn & Hag & _ & _ & Hwrites).
  split; [exact demo_fault_free|]. split; [exact demo_digest_nonempty|].
  split; [exact keyed_empty|]. split; [exact Hn|]. split; [exact Hag|].
  split; [exact Hwrites|]. split; vm_compute; reflexivity.
Defined.

(** Without declared actions the second pass writes nothing. *)
Example second_pass_without_actions :
  let config := Some [Demo.agent "support" None; Demo.agent "sales" None] in
  let pass1 := @Sync.syncDefaultAgents Demo.host config Demo.empty_world in
  let pass2 := @Sync.syncDefaultAgents Demo.host config (snd pass1) in
  syncedCount (fst pass1) = 2 /\ syncedCount (fst pass2) = 2
  /\ agents (snd pass2) = agents (snd pass1)
  /\ completed_writes (new_events (snd pass1) (snd pass2)) = [].
Proof. vm_compute. repeat split. Qed.

(** C3 fails as stated: for one agent that declares one action, the second
    pass over the unchanged configuration completes an [updateAction] and an
    [updateAgent], although it counts the same number of synced agents and
    adds no version. *)
Lemma second_pass_writes :
  let config := Some [Demo.agent "support" (Some [Demo.action "api.example.com" None])] in
  let pass1 := @Sync.syncDefaultAgents Demo.host config Demo.empty_world in
  let pass2 := @Sync.syncDefaultAgents Demo.host config (snd pass1) in
  completed_writes (new_events (snd pass1) (snd pass2))
  = [CUpdateAction "api.example.com_support"; CUpdateAgent "support" false]
  /\ syncedCount (fst pass2) = syncedCount (fst pass1)
  /\ agents (snd pass2) = agents (snd pass1).
Proof. vm_compute. repeat split. Qed.

(** The two hypotheses of the theorem on a second pass are needed.  An
    agent with an icon file gets a fresh avatar path at every pass, hence a
    new hash and a new version; two declarations under one id overwrite each
    other at every pass. *)
Example icon_file_grows_versions :
  let config := Some [with_iconFile (Demo.agent "support" None) (Some "icon.png")] in
  let pass1 := @Sync.syncDefaultAgents Demo.host config Demo.empty_world in
  let pass2 := @Sync.syncDefaultAgents Demo.host config (snd pass1) in
  version_count (snd pass1) "support" = 1 /\ version_count (snd pass2) "support" = 2.
Proof. vm_compute. split; reflexivity. Qed.

Example duplicate_ids_grow_versions :
  let config :=
    Some [Demo.agent "support" None;
          with_parameters (Demo.agent "support" None)
            (Some (JObj [("temperature", JNum (Num "1"))]))] in
  let pass1 := @Sync.syncDefaultAgents Demo.host config Demo.empty_world in
  let pass2 := @Sync.syncDefaultAgents Demo.host config (snd pass1) in
  version_count (snd pass1) "support" = 2 /\ version_count (snd pass2) "support" = 4.
Proof. vm_compute. split; reflexivity. Qed.

(** * Further properties of the code

    The properties below are read off the source, function by function;
    they are independent of the statements above, whose lemmas they reuse. *)

(** ** hashUtils.js: action identifiers *)

Section ActionIdFacts.

Lemma list_ascii_app (a b : string) :
  list_ascii_of_string (a +:+ b) = list_ascii_of_string a ++ list_ascii_of_string b.
Proof. induction a as [|c a IH]; [done|]. simpl. by rewrite IH. Qed.

Lemma app_inv_tail_string (s t u : string) : s +:+ u = t +:+ u -> s = t.
Proof.
  intros Heq.
  assert (Hl : list_ascii_of_string s ++ list_ascii_of_string u
               = list_ascii_of_string t ++ list_ascii_of_string u)
    by (by rewrite <- !list_ascii_app, Heq).
  apply app_inv_tail in Hl.
  rewrite <- (string_of_list_ascii_of_string s), <- (string_of_list_ascii_of_string t).
  by rewrite Hl.
Qed.

Lemma separator_split d1 d2 a1 a2 :
  no_underscore d1 = true -> no_underscore d2 = true ->
  d1 +:+ String "_" a1 = d2 +:+ String "_" a2 -> d1 = d2 /\ a1 = a2.
Proof.
  unfold no_underscore. revert d2.
  induction d1 as [|c d1 IH]; intros [|c' d2]; cbn.
  - by intros _ _ [= ->].
  - intros _ Hd [= <- _]. done.
  - intros Hd _ [= -> _]. done.
  - intros [Hc H1]%andb_prop [Hc' H2]%andb_prop [= -> Heq].
    destruct (IH d2 H1 H2 Heq) as [-> ->]. done.
Qed.

End ActionIdFacts.

(** X1. Two actions get the same id only when they have the same domain
    and the same agent, as long as neither domain contains an underscore:
    on such domains [generateActionId] is injective. *)
Theorem generateActionId_injective d1 a1 d2 a2 :
  no_underscore d1 = true -> no_underscore d2 = true ->
  HashUtils.generateActionId d1 a1 = HashUtils.generateActionId d2 a2 ->
  d1 = d2 /\ a1 = a2.
Proof. unfold HashUtils.generateActionId. apply separator_split. Qed.

Lemma generateActionId_injective_witness :
  no_underscore "api.example.com" = true
  /\ HashUtils.generateActionId "api.example.com" "support_1" = "api.example.com_support_1"
  /\ ("api.example.com" = "api.example.com" /\ "support_1" = "support_1").
Proof.
  split; [reflexivity|]. split; [reflexivity|].
  apply (generateActionId_injective "api.example.com" "support_1"
           "api.example.com" "support_1"); reflexivity.
Defined.

(** X2. Within one agent, two declared actions get the same id only when
    they declare the same domain, whatever the characters of the domains. *)
Theorem generateActionId_distinct_domains d1 d2 agentId :
  HashUtils.generateActionId d1 agentId = HashUtils.generateActionId d2 agentId -> d1 = d2.
Proof. unfold HashUtils.generateActionId. apply app_inv_tail_string. Qed.

Lemma generateActionId_distinct_domains_witness :
  HashUtils.generateActionId "a_b" "c" = "a_b_c" /\ "a_b" = "a_b".
Proof.
  split; [reflexivity|].
  apply (generateActionId_distinct_domains "a_b" "a_b" "c"). reflexivity.
Defined.

(** ** hashUtils.js: the canonical form and the digests *)

Section SortObjectShape.

Lemma insert_index_perm i k v props : insert_index i k v props ≡ₚ (k, v) :: props.
Proof.
  induction props as [|[k' v'] rest IH]; [done|]. cbn [insert_index].
  destruct (array_index k') as [j|]; [|done].
  destruct (j <? i)%N; [|done].
  rewrite IH. apply Permutation_swap.
Qed.

Lemma set_prop_perm k v props :
  has_key k props = false -> k <> "__proto__" -> set_prop props k v ≡ₚ (k, v) :: props.
Proof.
  intros Hk Hne. unfold set_prop. rewrite Hk.
  rewrite (proj2 (String.eqb_neq _ _) Hne). destruct (array_index k).
  - apply insert_index_perm.
  - symmetry. apply Permutation_cons_append.
Qed.

(** The assignment [sorted["__proto__"] = v] adds no property. *)
Lemma set_prop_proto v props :
  has_key "__proto__" props = false -> set_prop props "__proto__" v = props.
Proof. intros Hk. unfold set_prop. by rewrite Hk. Qed.

Lemma list_filter_perm {A} (P : A -> bool) l1 l2 :
  l1 ≡ₚ l2 -> List.filter P l1 ≡ₚ List.filter P l2.
Proof.
  induction 1 as [|x l1 l2 Hp IH|x y l|l1 l2 l3 Hp1 IH1 Hp2 IH2]; cbn.
  - done.
  - destruct (P x); by rewrite IH.
  - destruct (P x), (P y); try done. apply Permutation_swap.
  - by rewrite IH1.
Qed.

Lemma fold_set_prop_perm (values : list (string * json)) ks :
  forall acc, NoDup ks -> Forall (fun k => has_key k acc = false) ks ->
    fold_left (fun sorted key => set_prop sorted key (lookup_prop key values)) ks acc
    ≡ₚ acc ++ map (fun k => (k, lookup_prop k values)) (List.filter own_key ks).
Proof.
  induction ks as [|k ks IH]; intros acc Hnd Hfresh; cbn [fold_left map List.filter].
  { by rewrite app_nil_r. }
  inversion Hnd as [|? ? Hnotin Hnd']; subst.
  inversion Hfresh as [|? ? Hk Hfresh']; subst.
  unfold own_key at 1. destruct (String.eqb k "__proto__") eqn:Hp; cbn [negb].
  - apply String.eqb_eq in Hp as ->. rewrite set_prop_proto by done. by apply IH.
  - apply String.eqb_neq in Hp. rewrite IH; [|done|].
    + rewrite (set_prop_perm _ _ _ Hk Hp). cbn [app map]. apply Permutation_middle.
    + rewrite Forall_forall in *. intros k' Hin.
      rewrite has_key_set_prop_ne; [by apply Hfresh'|]. intros ->. done.
Qed.

Lemma map_lookup_keys (values : list (string * json)) :
  NoDup (keys values) -> map (fun k => (k, lookup_prop k values)) (keys values) = values.
Proof.
  induction values as [|[k v] rest IH]; [done|]. unfold keys in *. cbn [map fst].
  intros Hnd. inversion Hnd as [|? ? Hnotin Hnd']; subst.
  cbn [lookup_prop]. rewrite String.eqb_refl. f_equal.
  rewrite <- (IH Hnd') at 2. apply map_ext_in. intros k' Hin.
  cbn [lookup_prop]. destruct (String.eqb k' k) eqn:Heq; [|done].
  apply String.eqb_eq in Heq as ->. by apply list_elem_of_In in Hin.
Qed.

Lemma filter_map_keys (g : string -> json) ks :
  List.filter (fun p => own_key (fst p)) (map (fun k => (k, g k)) ks)
  = map (fun k => (k, g k)) (List.filter own_key ks).
Proof.
  induction ks as [|k ks IH]; [done|]. cbn [map List.filter fst].
  destruct (own_key k); cbn [map]; by rewrite IH.
Qed.

Lemma sortObject_fields_perm props :
  NoDup (keys props) ->
  fold_left (fun sorted key => set_prop sorted key (lookup_prop key (sorted_values props)))
    (sort_strings (keys props)) []
  ≡ₚ own_props (sorted_values props).
Proof.
  intros Hnd. rewrite fold_set_prop_perm.
  - cbn [app]. rewrite (list_filter_perm _ _ _ (sort_strings_Permutation (keys props))).
    rewrite <- filter_map_keys. unfold own_props. f_equiv.
    rewrite <- (keys_sorted_values props) at 1.
    rewrite map_lookup_keys; [done|]. by rewrite keys_sorted_values.
  - by rewrite sort_strings_Permutation.
  - by apply Forall_forall.
Qed.

Lemma sortObject_is_reorder v :
  well_formed v = true -> reorder (without_proto v) (HashUtils.sortObject v).
Proof.
  induction v as [| | | | |items IH|props IH] using json_nested_ind; intros Hwf;
    try apply reorder_refl.
  - cbn [HashUtils.sortObject without_proto]. apply reorder_arr. cbn [well_formed] in Hwf.
    induction items as [|x items IHl]; [constructor|].
    cbn [forallb] in Hwf. apply andb_prop in Hwf as [Hx Hrest].
    inversion IH as [|? ? Hx' IH']; subst. cbn [map]. constructor; auto.
  - cbn [well_formed] in Hwf. apply andb_prop in Hwf as [Hnd Hvals].
    apply bool_decide_eq_true in Hnd.
    change (reorder
              (JObj (own_props (map (fun p => (fst p, without_proto (snd p))) props)))
              (JObj (fold_left (fun sorted key =>
                                  set_prop sorted key (lookup_prop key (sorted_values props)))
                       (sort_strings (keys props)) []))).
    apply (reorder_obj _ (own_props (sorted_values props))).
    + clear Hnd. unfold own_props.
      induction props as [|[k x] props IHl]; [constructor|].
      cbn [forallb snd] in Hvals. apply andb_prop in Hvals as [Hx Hrest].
      inversion IH as [|? ? Hx' IH']; subst.
      cbn [sorted_values map List.filter fst snd].
      destruct (own_key k); [constructor|]; auto.
    + symmetry. by apply sortObject_fields_perm.
Qed.

(** Properties named [__proto__] make no difference to the sorted form. *)

Lemma fold_set_prop_own (values : list (string * json)) ks :
  forall acc, has_key "__proto__" acc = false ->
    fold_left (fun sorted key => set_prop sorted key (lookup_prop key values)) ks acc
    = fold_left (fun sorted key => set_prop sorted key (lookup_prop key values))
        (List.filter own_key ks) acc.
Proof.
  induction ks as [|k ks IH]; intros acc Hacc; [done|]. cbn [fold_left List.filter].
  unfold own_key at 1. destruct (String.eqb k "__proto__") eqn:Hp; cbn [negb].
  - apply String.eqb_eq in Hp as ->. rewrite set_prop_proto by done. by apply IH.
  - cbn [fold_left]. apply IH. rewrite has_key_set_prop_ne; [done|].
    intros <-. by rewrite String.eqb_refl in Hp.
Qed.

Lemma fold_set_prop_ext_in (vals1 vals2 : list (string * json)) ks :
  forall acc, (forall k, In k ks -> lookup_prop k vals1 = lookup_prop k vals2) ->
    fold_left (fun sorted key => set_prop sorted key (lookup_prop key vals1)) ks acc
    = fold_left (fun sorted key => set_prop sorted key (lookup_prop key vals2)) ks acc.
Proof.
  induction ks as [|k rest IH]; intros acc Hl; [done|]. cbn [fold_left].
  rewrite (Hl k) by (by left). apply IH. intros k' Hin. apply Hl. by right.
Qed.

Lemma StronglySorted_list_filter {A} (R : relation A) (P : A -> bool) l :
  StronglySorted R l -> StronglySorted R (List.filter P l).
Proof.
  induction 1 as [|x l Hs IH Hall]; cbn; [constructor|].
  destruct (P x); [|done]. constructor; [done|].
  apply List.Forall_forall. intros y [Hy _]%List.filter_In.
  by apply (proj1 (List.Forall_forall _ _) Hall).
Qed.

Lemma sort_strings_filter (P : string -> bool) ks :
  sort_strings (List.filter P ks) = List.filter P (sort_strings ks).
Proof.
  apply (@Sorted_unique _ units_le units_le_trans units_le_antisym).
  - apply sort_strings_Sorted.
  - apply StronglySorted_Sorted, StronglySorted_list_filter.
    apply (@Sorted_StronglySorted _ units_le units_le_trans), sort_strings_Sorted.
  - rewrite sort_strings_Permutation. apply list_filter_perm.
    symmetry. apply sort_strings_Permutation.
Qed.

Lemma keys_own_props props : keys (own_props props) = List.filter own_key (keys props).
Proof.
  unfold keys, own_props. induction props as [|[k v] rest IH]; [done|].
  cbn [List.filter map fst]. destruct (own_key k); cbn [map fst]; by rewrite IH.
Qed.

Lemma lookup_own_props k props :
  own_key k = true -> lookup_prop k (own_props props) = lookup_prop k props.
Proof.
  intros Hk. unfold own_props. induction props as [|[k' v] rest IH]; [done|].
  cbn [List.filter fst lookup_prop]. destruct (own_key k') eqn:Hk'; cbn [lookup_prop].
  - by rewrite IH.
  - destruct (String.eqb k k') eqn:E; [|done].
    apply String.eqb_eq in E as ->. congruence.
Qed.

Lemma sortObject_without_proto v :
  HashUtils.sortObject (without_proto v) = HashUtils.sortObject v.
Proof.
  induction v as [| | | | |items IH|props IH] using json_nested_ind; try done.
  - cbn [HashUtils.sortObject without_proto]. f_equal. rewrite map_map.
    apply map_ext_in. intros x Hin. by apply (proj1 (List.Forall_forall _ _) IH).
  - set (props' := own_props (map (fun p => (fst p, without_proto (snd p))) props)).
    change (JObj (fold_left (fun sorted key =>
                               set_prop sorted key (lookup_prop key (sorted_values props')))
                    (sort_strings (keys props')) [])
            = JObj (fold_left (fun sorted key =>
                                 set_prop sorted key (lookup_prop key (sorted_values props)))
                      (sort_strings (keys props)) [])).
    f_equal.
    assert (Hvals : sorted_values props' = own_props (sorted_values props)).
    { subst props'. unfold own_props, sorted_values.
      induction props as [|[k x] props IHl]; [done|].
      inversion IH as [|? ? Hx IH']; subst. cbn [map List.filter fst snd] in *.
      destruct (own_key k); cbn [map]; rewrite ?Hx, IHl; done. }
    assert (Hkeys : keys props' = List.filter own_key (keys props)).
    { rewrite <- (keys_sorted_values props'), Hvals, keys_own_props.
      by rewrite keys_sorted_values. }
    rewrite Hkeys, sort_strings_filter, Hvals.
    rewrite (fold_set_prop_own (sorted_values props) (sort_strings (keys props)) []) by done.
    apply fold_set_prop_ext_in. intros k [_ Hk]%List.filter_In.
    by apply lookup_own_props.
Qed.

Lemma well_formed_without_proto v :
  well_formed v = true -> well_formed (without_proto v) = true.
Proof.
  induction v as [| | | | |items IH|props IH] using json_nested_ind; try done.
  - cbn [well_formed without_proto]. intros Hwf.
    induction items as [|x items IHl]; [done|].
    cbn [forallb map] in *. apply andb_prop in Hwf as [Hx Hrest].
    inversion IH as [|? ? Hx' IH']; subst. rewrite Hx' by done. by apply IHl.
  - cbn [well_formed without_proto]. intros [Hnd Hvals]%andb_prop.
    apply bool_decide_eq_true in Hnd. apply andb_true_intro. split.
    + apply bool_decide_eq_true. fold (own_props (map (fun p => (fst p, without_proto (snd p))) props)).
      rewrite keys_own_props.
      assert (Hk : keys (map (fun p => (fst p, without_proto (snd p))) props) = keys props).
      { unfold keys. rewrite map_map. by apply map_ext. }
      rewrite Hk. clear -Hnd. induction Hnd as [|k ks Hnotin Hnd IHk]; cbn; [constructor|].
      destruct (own_key k); [|done]. constructor; [|done].
      intros Hin. apply Hnotin. apply list_elem_of_In. apply list_elem_of_In in Hin.
      by apply List.filter_In in Hin as [Hin _].
    + clear Hnd. unfold own_props. induction props as [|[k x] props IHl]; [done|].
      cbn [forallb map List.filter fst snd] in *. apply andb_prop in Hvals as [Hx Hrest].
      inversion IH as [|? ? Hx' IH']; subst.
      cbn [snd] in Hx'. specialize (Hx' Hx). specialize (IHl IH' Hrest).
      destruct (own_key k); cbn [forallb snd]; by rewrite ?Hx', ?IHl.
Qed.

End SortObjectShape.

(** X3. On a value whose objects have each key once, [sortObject] changes
    the order of keys and drops the properties named [__proto__], which the
    assignment [sorted[key] = ...] hands to the prototype setter; no other
    key or value is lost or altered.  Sorting a sorted value changes
    nothing. *)
Theorem sortObject_idempotent v :
  well_formed v = true ->
  reorder (without_proto v) (HashUtils.sortObject v)
  /\ HashUtils.sortObject (HashUtils.sortObject v) = HashUtils.sortObject v.
Proof.
  intros Hwf. split; [by apply sortObject_is_reorder|].
  rewrite <- (sortObject_without_proto v) at 2.
  symmetry. apply sortObject_reorder; [by apply well_formed_without_proto|].
  by apply sortObject_is_reorder.
Qed.

Lemma sortObject_idempotent_witness :
  let v := JObj [("b", JNum (Num "0.7")); ("__proto__", JObj [("x", JNull)]);
                 ("10", JArr [JObj [("z", JNull); ("y", JBool true)]]);
                 ("a", JStr "x"); ("9", JNull)] in
  HashUtils.sortObject v
  = JObj [("9", JNull); ("10", JArr [JObj [("y", JBool true); ("z", JNull)]]);
          ("a", JStr "x"); ("b", JNum (Num "0.7"))]
  /\ reorder (without_proto v) (HashUtils.sortObject v)
  /\ HashUtils.sortObject (HashUtils.sortObject v) = HashUtils.sortObject v.
Proof.
  intros v. split; [reflexivity|].
  apply (sortObject_idempotent v). reflexivity.
Defined.

Section HashFacts.
Context `{Host}.

Lemma stringify_sortObject_some data :
  data <> JUndefined -> exists text, stringify (HashUtils.sortObject data) = Some text.
Proof. destruct data as [| |[]| | | |]; intros Hd; try done; cbn; by eexists. Qed.

Lemma calculateHash_ok data :
  data <> JNull -> data <> JUndefined ->
  exists text, stringify (HashUtils.sortObject data) = Some text
               /\ HashUtils.calculateHash data = Ok (sha256_hex text).
Proof.
  intros Hn Hu. destruct (stringify_sortObject_some data Hu) as [text Ht].
  exists text. split; [done|]. unfold HashUtils.calculateHash. rewrite Ht.
  by destruct data.
Qed.

(** X4. [calculateHash] throws on exactly two inputs: on [undefined],
    which has no JSON text to digest, and on [null], whose digest is
    computed and then lost to the [Object.keys(data)] of the debug log.
    Every other value gets the digest of the JSON text of its sorted form. *)
Theorem calculateHash_nullish data :
  match data with
  | JNull =>
      HashUtils.calculateHash data
      = Err (Error ("Hash calculation failed: " +:+ HashUtils.object_keys_type_error))
  | JUndefined =>
      HashUtils.calculateHash data
      = Err (Error ("Hash calculation failed: " +:+ HashUtils.update_type_error))
  | _ =>
      exists text, stringify (HashUtils.sortObject data) = Some text
                   /\ HashUtils.calculateHash data = Ok (sha256_hex text)
  end.
Proof. destruct data; try done; by apply calculateHash_ok. Qed.

Lemma actionDataEntry_ok a : exists v, HashUtils.actionDataEntry a = Ok v.
Proof.
  unfold HashUtils.actionDataEntry. destruct (opt_truthy (act_spec a)).
  - destruct (calculateHash_ok (JObj [("spec", of_opt_string (act_spec a))]))
      as (text & _ & ->); try done.
    by eexists.
  - by eexists.
Qed.

Lemma actionDataEntry_fields a b :
  hashed_action_fields a = hashed_action_fields b ->
  HashUtils.actionDataEntry a = HashUtils.actionDataEntry b.
Proof.
  unfold hashed_action_fields, HashUtils.actionDataEntry. intros [= Hd Hs Ha].
  rewrite Hd, Ha.
  destruct (opt_truthy (act_spec a)) eqn:Hta, (opt_truthy (act_spec b)) eqn:Htb.
  - by rewrite Hs.
  - rewrite Hs in Hta. done.
  - rewrite <- Hs in Htb. done.
  - done.
Qed.

Lemma map_actions_ok l :
  exists vs, HashUtils.map_actions HashUtils.actionDataEntry l = Ok vs.
Proof.
  induction l as [|a l [vs IH]]; [by eexists|]. cbn.
  destruct (actionDataEntry_ok a) as (v & ->). rewrite IH. by eexists.
Qed.

(** X5. [calculateActionMetadataHash] reads only the domain, the inline
    spec and the auth type of each action: two lists that agree on these
    get the same hash, whatever their credentials, privacy policy or
    [specFile] (an action whose spec comes from a file contributes no spec
    hash at all). *)
Theorem calculateActionMetadataHash_fields l1 l2 :
  map hashed_action_fields l1 = map hashed_action_fields l2 ->
  HashUtils.calculateActionMetadataHash (Some l1)
  = HashUtils.calculateActionMetadataHash (Some l2).
Proof.
  intros Hm.
  assert (Hmap : HashUtils.map_actions HashUtils.actionDataEntry l1
                 = HashUtils.map_actions HashUtils.actionDataEntry l2).
  { revert l2 Hm. induction l1 as [|a l1 IH]; intros [|b l2] Hm; try done.
    cbn [map] in Hm.
    assert (Hab : hashed_action_fields a = hashed_action_fields b) by congruence.
    assert (Hm' : map hashed_action_fields l1 = map hashed_action_fields l2) by congruence.
    cbn [HashUtils.map_actions].
    rewrite (actionDataEntry_fields a b) by done. by rewrite (IH l2). }
  destruct l1 as [|a l1], l2 as [|b l2]; try done.
  unfold HashUtils.calculateActionMetadataHash. by rewrite Hmap.
Qed.

(** X6. [calculateActionMetadataHash] never throws, and the hash of an
    absent or empty action list is the empty string. *)
Theorem calculateActionMetadataHash_total actions :
  exists h, HashUtils.calculateActionMetadataHash actions = Ok h
            /\ (default [] actions = [] -> h = "").
Proof.
  destruct actions as [[|a l]|]; try (by exists "").
  unfold HashUtils.calculateActionMetadataHash.
  destruct (map_actions_ok (a :: l)) as [vs ->].
  destruct (calculateHash_ok (JArr vs)) as (text & _ & ->); try done.
  by eexists.
Qed.

End HashFacts.

Lemma calculateActionMetadataHash_fields_witness :
  let a1 := {| act_domain := Some "api.example.com"; act_spec := None;
               act_specFile := Some "specs/v1.yaml";
               act_auth := Some [("type", JStr "service_http"); ("api_key", JStr "sk-1")];
               act_privacy_policy_url := None |} in
  let a2 := {| act_domain := Some "api.example.com"; act_spec := Some "";
               act_specFile := Some "specs/v2.yaml";
               act_auth := Some [("type", JStr "service_http"); ("api_key", JStr "sk-2")];
               act_privacy_policy_url := Some "https://example.com/privacy" |} in
  a1 <> a2
  /\ @HashUtils.calculateActionMetadataHash Demo.host (Some [a1])
     = @HashUtils.calculateActionMetadataHash Demo.host (Some [a2]).
Proof.
  intros a1 a2. split; [discriminate|].
  apply (@calculateActionMetadataHash_fields Demo.host [a1] [a2]). reflexivity.
Defined.
(** ** loadConfigFile.js *)

Section LoadFacts.
Context `{Host}.

(** The path check of [loadConfigFile] never fires, so its body is the
    existence test followed by the read. *)
Lemma loadConfigFile_body_found filePath fileType :
  LoadConfigFile.loadConfigFile_body filePath fileType
  = let resolvedPath := LoadConfigFile.resolveConfigFilePath filePath in
    if negb (fs_access resolvedPath)
    then Err (Error ("File not found: " +:+ resolvedPath))
    else
      let detectedType := LoadConfigFile.detectType resolvedPath fileType in
      if String.eqb detectedType "binary" then
        match fs_readFile resolvedPath None with
        | Ok content => Ok (Buffer content)
        | Err e => Err e
        end
      else
        match fs_readFile resolvedPath (Some "utf-8") with
        | Err e => Err e
        | Ok fileContent =>
            if String.eqb detectedType "yaml" then
              match yaml_load fileContent with Ok v => Ok (Content v) | Err e => Err e end
            else if String.eqb detectedType "json" then
              match json_parse fileContent with Ok v => Ok (Content v) | Err e => Err e end
            else Ok (Content (JStr fileContent))
        end.
Proof.
  unfold LoadConfigFile.loadConfigFile_body.
  destruct (negb (PosixPath.isAbsolute filePath)); [|done].
  by rewrite validateFilePath_resolved_passes.
Qed.

(** X7. With the type ['text'], [loadConfigFile] returns the text of the
    file at the resolved path unparsed, whatever its extension.  It fails in
    two ways only: when [fs.access] rejects the resolved path, with the
    message "Failed to load config file <path>: File not found: <resolved
    path>", and when the read itself fails (on a directory, for one), with
    the message of the read error behind the same prefix. *)
Theorem loadConfigFile_text filePath :
  LoadConfigFile.loadConfigFile filePath "text"
  = let resolvedPath := LoadConfigFile.resolveConfigFilePath filePath in
    if fs_access resolvedPath then
      match fs_readFile resolvedPath (Some "utf-8") with
      | Ok fileContent => Ok (Content (JStr fileContent))
      | Err e =>
          Err (Error ("Failed to load config file " +:+ filePath +:+ ": " +:+ message e))
      end
    else Err (Error ("Failed to load config file " +:+ filePath +:+ ": File not found: "
                     +:+ resolvedPath)).
Proof.
  unfold LoadConfigFile.loadConfigFile. rewrite loadConfigFile_body_found. cbn zeta.
  destruct (fs_access _); [|done]. cbn.
  by destruct (fs_readFile _ _).
Qed.

(** X8. A file type other than ['auto'], ['binary'], ['yaml'] and ['json']
    is not rejected: the file is loaded as text. *)
Theorem loadConfigFile_unknown_type filePath fileType :
  fileType <> "auto" -> fileType <> "binary" -> fileType <> "yaml" -> fileType <> "json" ->
  LoadConfigFile.loadConfigFile filePath fileType
  = LoadConfigFile.loadConfigFile filePath "text".
Proof.
  intros Ha Hb Hy Hj. unfold LoadConfigFile.loadConfigFile.
  rewrite !loadConfigFile_body_found. cbn zeta. destruct (fs_access _); [|done].
  unfold LoadConfigFile.detectType.
  apply String.eqb_neq in Ha, Hb, Hy, Hj. by rewrite Ha, Hb, Hy, Hj.
Qed.

(** X9. With the type ['auto'], [loadConfigFile] never returns a [Buffer]:
    no extension is detected as binary. *)
Theorem loadConfigFile_auto_no_buffer filePath bytes :
  LoadConfigFile.loadConfigFile filePath "auto" <> Ok (Buffer bytes).
Proof.
  unfold LoadConfigFile.loadConfigFile. rewrite loadConfigFile_body_found. cbn zeta.
  destruct (fs_access _); [|done].
  unfold LoadConfigFile.detectType. rewrite String.eqb_refl.
  set (ext := PosixPath.toLowerCase _).
  destruct (String.eqb ext ".yaml" || String.eqb ext ".yml").
  { cbn. destruct (fs_readFile _ _) as [fileContent|]; [|done].
    by destruct (yaml_load fileContent). }
  destruct (String.eqb ext ".json").
  { cbn. destruct (fs_readFile _ _) as [fileContent|]; [|done].
    by destruct (json_parse fileContent). }
  destruct (String.eqb ext ".txt" || String.eqb ext ".md"); cbn;
    by destruct (fs_readFile _ _).
Qed.

End LoadFacts.

(** A directory passes the existence test and fails the read. *)
Example loadConfigFile_directory :
  @LoadConfigFile.loadConfigFile Demo.host "specs" "text"
  = Err (Error "Failed to load config file specs: EISDIR: illegal operation on a directory, read").
Proof. reflexivity. Qed.

Lemma loadConfigFile_unknown_type_witness :
  @LoadConfigFile.loadConfigFile Demo.host "/etc/passwd" "xml"
  = @LoadConfigFile.loadConfigFile Demo.host "/etc/passwd" "text"
  /\ @LoadConfigFile.loadConfigFile Demo.host "/etc/passwd" "xml"
     = Ok (Content (JStr "root:x:0:0")).
Proof.
  split; [|reflexivity].
  apply (@loadConfigFile_unknown_type Demo.host "/etc/passwd" "xml"); discriminate.
Defined.

(** ** validateConfigFile.js *)

Section ValidationCriteria.
Context `{Host}.

Lemma push_if_nil c e errs :
  is_nil (ValidateConfigFile.push_if c e errs) = negb c && is_nil errs.
Proof. unfold ValidateConfigFile.push_if. destruct c, errs; done. Qed.

Lemma validateAuth_nil auth errs :
  is_nil (ValidateConfigFile.validateAuth auth errs) = auth_accepted auth && is_nil errs.
Proof.
  unfold ValidateConfigFile.validateAuth, auth_accepted,
    ValidateConfigFile.includes_value, ValidateConfigFile.validAuthTypes.
  cbn [existsb]. rewrite orb_false_r.
  destruct (is_string (lookup_prop "type" auth) "oauth") eqn:Ho;
    rewrite ?push_if_nil;
    destruct (truthy (lookup_prop "type" auth)),
             (is_string (lookup_prop "type" auth) "service_http"),
             (is_string (lookup_prop "type" auth) "none"),
             (is_nil errs); cbn;
    try destruct (truthy (lookup_prop "client_url" auth));
    try destruct (truthy (lookup_prop "authorization_url" auth)); done.
Qed.

Lemma validateActionConfig_nil a :
  is_nil (errors (ValidateConfigFile.validateActionConfig a)) = action_accepted a.
Proof.
  unfold ValidateConfigFile.validateActionConfig, action_accepted. cbn [errors].
  destruct (act_auth a) as [auth|]; rewrite ?validateAuth_nil, !push_if_nil; cbn [is_nil];
    destruct (opt_truthy (act_domain a)), (opt_truthy (act_spec a)),
             (opt_truthy (act_specFile a)); cbn; rewrite ?andb_true_r, ?andb_false_r; done.
Qed.

Lemma validateActions_nil acts : forall n errs,
  is_nil (ValidateConfigFile.validateActions n acts errs)
  = forallb action_accepted acts && is_nil errs.
Proof.
  induction acts as [|a acts IH]; intros n errs; [done|].
  cbn [ValidateConfigFile.validateActions forallb]. rewrite IH, push_if_nil.
  change (cv_valid (ValidateConfigFile.validateActionConfig a))
    with (is_nil (errors (ValidateConfigFile.validateActionConfig a))).
  rewrite validateActionConfig_nil, negb_involutive.
  destruct (action_accepted a), (forallb action_accepted acts); done.
Qed.

Lemma validateAgentConfig_nil c :
  is_nil (errors (ValidateConfigFile.validateAgentConfig c)) = agent_accepted c.
Proof.
  unfold ValidateConfigFile.validateAgentConfig, agent_accepted. cbn [errors].
  unfold ValidateConfigFile.requiredFields. cbn [fold_left fst snd].
  destruct (cfg_actions c) as [acts|]; cbn [default];
    rewrite ?validateActions_nil, !push_if_nil; cbn [is_nil forallb];
    destruct (opt_truthy (cfg_id c)), (opt_truthy (cfg_name c)),
             (opt_truthy (cfg_provider c)), (opt_truthy (cfg_model c)),
             (opt_truthy (cfg_instructions c)), (opt_truthy (cfg_instructionsFile c));
    cbn; rewrite ?andb_true_r, ?andb_false_r; done.
Qed.

(** X10. [validateActionConfig] reports no error exactly on the action
    declarations with a domain, a spec or a spec file, and, when an auth
    block is given, one with a known type that has both URLs if it is
    OAuth.  Credentials are not looked at. *)
Theorem validateActionConfig_accepts a :
  cv_valid (ValidateConfigFile.validateActionConfig a) = action_accepted a.
Proof. exact (validateActionConfig_nil a). Qed.

(** X11. [validateAgentConfig] reports no error exactly on the
    declarations with an id, a name, a provider and a model, with inline
    instructions or an instructions file, and whose declared actions are
    all accepted by [validateActionConfig]. *)
Theorem validateAgentConfig_accepts c :
  cv_valid (ValidateConfigFile.validateAgentConfig c) = agent_accepted c.
Proof. exact (validateAgentConfig_nil c). Qed.

(** A declaration that passes validation has an id that is not empty and
    has instructions of one kind or the other. *)
Lemma valid_declaration c :
  cv_valid (ValidateConfigFile.validateAgentConfig c) = true ->
  (exists i, cfg_id c = Some i /\ i <> "")
  /\ opt_truthy (cfg_instructions c) || opt_truthy (cfg_instructionsFile c) = true.
Proof.
  intros Hv. change (is_nil (errors (ValidateConfigFile.validateAgentConfig c)) = true) in Hv.
  rewrite validateAgentConfig_nil in Hv. unfold agent_accepted in Hv.
  repeat (apply andb_prop in Hv as [Hv ?]). split; [|done].
  destruct (cfg_id c) as [i|]; [|done]. exists i. split; [done|]. by intros ->.
Qed.

End ValidationCriteria.
(** ** ActionService.js: the encoding of credentials *)

Section UriFacts.

Lemma hex_value_upper c :
  let n := N_of_ascii c in
  hex_value (upper_hex_digit (n / 16)) = Some (n / 16)%N
  /\ hex_value (upper_hex_digit (n mod 16)) = Some (n mod 16)%N.
Proof. destruct c as [[] [] [] [] [] [] [] []]; vm_compute; done. Qed.

Lemma upper_hex_unreserved c :
  let n := N_of_ascii c in
  uri_unreserved (upper_hex_digit (n / 16)) = true
  /\ uri_unreserved (upper_hex_digit (n mod 16)) = true.
Proof. destruct c as [[] [] [] [] [] [] [] []]; vm_compute; done. Qed.

Lemma unreserved_ascii c :
  uri_unreserved c = true ->
  leading_ones (N_of_ascii c) = 0 /\ Ascii.eqb c "%"%char = false.
Proof. destruct c as [[] [] [] [] [] [] [] []]; vm_compute; done. Qed.

Lemma high_reserved c :
  (128 <=? N_of_ascii c)%N = true -> uri_unreserved c = false.
Proof. destruct c as [[] [] [] [] [] [] [] []]; vm_compute; done. Qed.

(** The escape [%XX] that [encodeURIComponent] writes for a byte. *)
Lemma encode_reserved c rest :
  uri_unreserved c = false ->
  encodeURIComponent (String c rest)
  = String "%" (String (upper_hex_digit (N_of_ascii c / 16))
                  (String (upper_hex_digit (N_of_ascii c mod 16))
                     (encodeURIComponent rest))).
Proof. intros Hc. cbn [encodeURIComponent]. by rewrite Hc. Qed.

Lemma encode_unreserved c rest :
  uri_unreserved c = true ->
  encodeURIComponent (String c rest) = String c (encodeURIComponent rest).
Proof. intros Hc. cbn [encodeURIComponent]. by rewrite Hc. Qed.

(** How the scan reads such an escape back. *)
Lemma decode_escape pending need c rest :
  let n := N_of_ascii c in
  decode_from pending need
    (String "%" (String (upper_hex_digit (n / 16))
                   (String (upper_hex_digit (n mod 16)) rest)))
  = match need with
    | O =>
        match leading_ones n with
        | 0 => emit [n] (decode_from [] 0 rest)
        | 2 => decode_from [n] 1 rest
        | 3 => decode_from [n] 2 rest
        | 4 => decode_from [n] 3 rest
        | _ => Err uri_malformed
        end
    | 1 =>
        if utf8_code_point (pending ++ [n])
        then emit (pending ++ [n]) (decode_from [] 0 rest)
        else Err uri_malformed
    | S need' => decode_from (pending ++ [n]) need' rest
    end.
Proof.
  intros n. subst n. cbn [decode_from Ascii.eqb Bool.eqb].
  destruct (hex_value_upper c) as [-> ->].
  replace (16 * (N_of_ascii c / 16) + N_of_ascii c mod 16)%N with (N_of_ascii c)
    by (apply N.div_mod; done).
  reflexivity.
Qed.

Lemma utf8_code_point_high octets :
  utf8_code_point octets = true -> Forall (fun b => (128 <=? b)%N = true) octets.
Proof.
  destruct octets as [|b0 [|b1 [|b2 [|b3 [|b4 l]]]]]; try done; cbn [utf8_code_point];
    unfold continuation; intros Hv;
    repeat first [apply List.Forall_nil | apply List.Forall_cons];
    repeat match goal with
           | H : context [if ?c then _ else _] |- _ => destruct c eqn:?
           end;
    rewrite ?andb_true_iff, ?N.leb_le, ?N.eqb_eq, ?N.eqb_neq in *; lia.
Qed.

Lemma decode_encode_length n :
  forall s, String.length s <= n -> utf8 s = true ->
            decode_from [] 0 (encodeURIComponent s) = Ok s.
Proof.
  induction n as [|n IH]; intros s Hlen Hu.
  { destruct s; [reflexivity | simpl in Hlen; lia]. }
  destruct s as [|c0 rest]; [reflexivity|].
  cbn [utf8] in Hu. cbn [String.length] in Hlen.
  destruct (leading_ones (N_of_ascii c0)) as [|[|[|[|[|k]]]]] eqn:Hl; try discriminate.
  - destruct (uri_unreserved c0) eqn:Hun.
    + rewrite encode_unreserved by done. cbn [decode_from].
      destruct (unreserved_ascii c0 Hun) as [_ ->].
      rewrite IH by (done || lia). cbn. by rewrite ascii_N_embedding.
    + rewrite encode_reserved, decode_escape, Hl by done.
      rewrite IH by (done || lia). cbn. by rewrite ascii_N_embedding.
  - destruct rest as [|c1 rest']; [discriminate|].
    apply andb_prop in Hu as [Hcp Hu]. cbn [String.length] in Hlen.
    pose proof (utf8_code_point_high _ Hcp) as Hhigh.
    inversion Hhigh as [|? ? H0 Hhigh1]; subst. inversion Hhigh1 as [|? ? H1 _]; subst.
    rewrite (encode_reserved c0), decode_escape, Hl by (by apply high_reserved).
    rewrite (encode_reserved c1), decode_escape by (by apply high_reserved).
    cbn [app]. rewrite Hcp, IH by (done || lia). cbn. by rewrite !ascii_N_embedding.
  - destruct rest as [|c1 [|c2 rest']]; try discriminate.
    apply andb_prop in Hu as [Hcp Hu]. cbn [String.length] in Hlen.
    pose proof (utf8_code_point_high _ Hcp) as Hhigh.
    inversion Hhigh as [|? ? H0 Hhigh1]; subst. inversion Hhigh1 as [|? ? H1 Hhigh2]; subst.
    inversion Hhigh2 as [|? ? H2 _]; subst.
    rewrite (encode_reserved c0), decode_escape, Hl by (by apply high_reserved).
    rewrite (encode_reserved c1), decode_escape by (by apply high_reserved).
    rewrite (encode_reserved c2), decode_escape by (by apply high_reserved).
    cbn [app]. rewrite Hcp, IH by (done || lia). cbn. by rewrite !ascii_N_embedding.
  - destruct rest as [|c1 [|c2 [|c3 rest']]]; try discriminate.
    apply andb_prop in Hu as [Hcp Hu]. cbn [String.length] in Hlen.
    pose proof (utf8_code_point_high _ Hcp) as Hhigh.
    inversion Hhigh as [|? ? H0 Hhigh1]; subst. inversion Hhigh1 as [|? ? H1 Hhigh2]; subst.
    inversion Hhigh2 as [|? ? H2 Hhigh3]; subst. inversion Hhigh3 as [|? ? H3 _]; subst.
    rewrite (encode_reserved c0), decode_escape, Hl by (by apply high_reserved).
    rewrite (encode_reserved c1), decode_escape by (by apply high_reserved).
    rewrite (encode_reserved c2), decode_escape by (by apply high_reserved).
    rewrite (encode_reserved c3), decode_escape by (by apply high_reserved).
    cbn [app]. rewrite Hcp, IH by (done || lia). cbn. by rewrite !ascii_N_embedding.
Qed.

Lemma decode_encode s :
  utf8 s = true -> decodeURIComponent (encodeURIComponent s) = Ok s.
Proof. intros Hu. by apply (decode_encode_length (String.length s)). Qed.

End UriFacts.

(** X12. [decodeURIComponent] undoes [encodeURIComponent] on every string
    of well-formed UTF-8, that is, on every JavaScript string without a lone
    surrogate: this is what lets [decryptSensitiveValue] return the value
    that [encryptSensitiveValue] was given. *)
Theorem decodeURIComponent_encodeURIComponent s :
  utf8 s = true -> decodeURIComponent (encodeURIComponent s) = Ok s.
Proof. exact (decode_encode s). Qed.

Lemma decodeURIComponent_encodeURIComponent_witness :
  let s := "sk:1/" +:+ String "195"%char (String "169"%char "") in
  utf8 s = true
  /\ encodeURIComponent s = "sk%3A1%2F%C3%A9"
  /\ decodeURIComponent (encodeURIComponent s) = Ok s.
Proof.
  intros s. split; [reflexivity|]. split; [reflexivity|].
  apply (decodeURIComponent_encodeURIComponent s). reflexivity.
Defined.

(** X13. The text [encodeURIComponent] hands to the cipher is made of
    unreserved characters and of percent signs only; in particular it never
    contains a colon, the character the source encodes the value for. *)
Theorem encodeURIComponent_charset s :
  Forall (fun c => uri_unreserved c = true \/ c = "%"%char)
    (list_ascii_of_string (encodeURIComponent s))
  /\ ~ In ":"%char (list_ascii_of_string (encodeURIComponent s)).
Proof.
  assert (Hall : Forall (fun c => uri_unreserved c = true \/ c = "%"%char)
                   (list_ascii_of_string (encodeURIComponent s))).
  { induction s as [|c rest IH]; [constructor|].
    destruct (uri_unreserved c) eqn:Hc.
    - rewrite encode_unreserved by done. cbn [list_ascii_of_string].
      constructor; [by left | done].
    - rewrite encode_reserved by done. cbn [list_ascii_of_string].
      destruct (upper_hex_unreserved c) as [H1 H2].
      repeat (apply List.Forall_cons); auto. }
  split; [done|]. intros Hin.
  rewrite List.Forall_forall in Hall. destruct (Hall _ Hin) as [Hu|Hp]; discriminate.
Qed.

(** ** ActionService.js: [encryptMetadata] and [decryptMetadata] *)

Section ReplaceFacts.

Lemma truthy_has_key k props : truthy (lookup_prop k props) = true -> has_key k props = true.
Proof.
  intros Ht. destruct (has_key k props) eqn:Hk; [done|].
  by rewrite (has_key_false_lookup _ _ Hk) in Ht.
Qed.

Lemma has_key_keys k props : has_key k props = existsb (String.eqb k) (keys props).
Proof. unfold has_key, keys. induction props as [|p rest IH]; [done|]. cbn. by rewrite IH. Qed.

Lemma set_prop_present k v props :
  has_key k props = true -> set_prop props k v = replace_prop k v props.
Proof. intros Hk. unfold set_prop. by rewrite Hk. Qed.

Lemma keys_replace_prop k v props : keys (replace_prop k v props) = keys props.
Proof.
  induction props as [|[k' x] rest IH]; [done|]. cbn [replace_prop].
  destruct (String.eqb k k'); [done|]. unfold keys in *. cbn [map fst]. by rewrite IH.
Qed.

Lemma lookup_replace_prop_eq k v props :
  has_key k props = true -> lookup_prop k (replace_prop k v props) = v.
Proof.
  induction props as [|[k' v'] rest IH]; [done|]. cbn [has_key existsb fst].
  cbn [replace_prop lookup_prop]. destruct (String.eqb k k') eqn:Heq.
  - intros _. cbn [lookup_prop]. by rewrite Heq.
  - cbn [orb lookup_prop]. rewrite Heq. apply IH.
Qed.

Lemma replace_prop_twice k v v' props :
  replace_prop k v (replace_prop k v' props) = replace_prop k v props.
Proof.
  induction props as [|[k' x] rest IH]; [done|]. cbn [replace_prop].
  destruct (String.eqb k k') eqn:Heq; cbn [replace_prop]; rewrite Heq; [done|].
  by rewrite IH.
Qed.

Lemma replace_prop_same k props :
  replace_prop k (lookup_prop k props) props = props.
Proof.
  induction props as [|[k' x] rest IH]; [done|]. cbn [replace_prop lookup_prop].
  destruct (String.eqb k k') eqn:Heq; [done|]. by rewrite IH.
Qed.

Lemma replace_prop_comm k k' v v' props :
  k <> k' ->
  replace_prop k v (replace_prop k' v' props) = replace_prop k' v' (replace_prop k v props).
Proof.
  intros Hne. induction props as [|[k0 x] rest IH]; [done|]. cbn [replace_prop].
  destruct (String.eqb k' k0) eqn:H1, (String.eqb k k0) eqn:H2; cbn [replace_prop];
    rewrite ?H1, ?H2; try done.
  - apply String.eqb_eq in H1, H2. congruence.
  - by rewrite IH.
Qed.

End ReplaceFacts.

Section EncryptionFrame.
Context `{Host}.

Lemma encryptField_cases md k enc r :
  ActionService.encryptField md k enc = Ok r ->
  (truthy (lookup_prop k md) = false /\ r = enc)
  \/ (truthy (lookup_prop k md) = true
      /\ exists c, encryptV2 (encodeURIComponent (js_String (lookup_prop k md))) = Ok c
                   /\ r = set_prop enc k (JStr c)).
Proof.
  unfold ActionService.encryptField, ActionService.encryptSensitiveValue.
  destruct (truthy (lookup_prop k md)) eqn:Hk; [|intros [= <-]; by left].
  destruct (encryptV2 _) as [c|] eqn:Hc; [|done].
  intros [= <-]. right. split; [done|]. by exists c.
Qed.

Lemma encryptField_frame md k enc r :
  keys enc = keys md ->
  ActionService.encryptField md k enc = Ok r ->
  keys r = keys md /\ forall k', k' <> k -> lookup_prop k' r = lookup_prop k' enc.
Proof.
  intros Hkeys He.
  destruct (encryptField_cases _ _ _ _ He) as [[_ ->]|(Ht & c & _ & ->)]; [done|].
  split.
  - rewrite set_prop_present, keys_replace_prop; [done|].
    apply truthy_has_key in Ht. by rewrite has_key_keys, Hkeys, <- has_key_keys.
  - intros k' Hne. by apply lookup_set_prop_ne.
Qed.

Lemma encryptField_seals md k enc r :
  keys enc = keys md ->
  truthy (lookup_prop k md) = true ->
  ActionService.encryptField md k enc = Ok r ->
  exists c, encryptV2 (encodeURIComponent (js_String (lookup_prop k md))) = Ok c
            /\ lookup_prop k r = JStr c.
Proof.
  intros Hkeys Ht He.
  destruct (encryptField_cases _ _ _ _ He) as [[Hf _]|(_ & c & Hc & ->)]; [congruence|].
  exists c. split; [done|].
  assert (Hk : has_key k enc = true).
  { apply truthy_has_key in Ht. by rewrite has_key_keys, Hkeys, <- has_key_keys. }
  rewrite set_prop_present by done. by apply lookup_replace_prop_eq.
Qed.

(** X14. [encryptMetadata] returns an object with the keys of its argument,
    in the same order, and changes no field other than the credential
    fields of the auth type the metadata nests: everything else, the [auth]
    block included, is copied as it is. *)
Theorem encryptMetadata_frame md enc :
  ActionService.encryptMetadata md = Ok enc ->
  keys enc = keys md
  /\ forall k, ~ In k (sealed_fields md) -> lookup_prop k enc = lookup_prop k md.
Proof.
  unfold ActionService.encryptMetadata, sealed_fields.
  destruct (truthy _ && is_string _ ActionService.ServiceHttp).
  { intros He. destruct (encryptField_frame _ _ _ _ eq_refl He) as [Hk Hl].
    split; [done|]. intros k Hin. apply Hl. intros ->. apply Hin. by left. }
  destruct (truthy _ && is_string _ ActionService.OAuth); [|by intros [= <-]].
  destruct (ActionService.encryptField md "oauth_client_id" md) as [e1|] eqn:Ha; [|done].
  intros Hb. destruct (encryptField_frame _ _ _ _ eq_refl Ha) as [Hk1 Hl1].
  destruct (encryptField_frame _ _ _ _ Hk1 Hb) as [Hk2 Hl2].
  split; [done|]. intros k Hin. rewrite Hl2, Hl1; [done| |].
  - intros ->. apply Hin. by left.
  - intros ->. apply Hin. right. by left.
Qed.

(** X15. When the metadata nests its auth block, every credential field of
    that auth type that holds a truthy value comes out of [encryptMetadata]
    as the ciphertext of the URI-encoded value. *)
Theorem encryptMetadata_seals md enc k :
  ActionService.encryptMetadata md = Ok enc ->
  In k (sealed_fields md) ->
  truthy (lookup_prop k md) = true ->
  exists c, encryptV2 (encodeURIComponent (js_String (lookup_prop k md))) = Ok c
            /\ lookup_prop k enc = JStr c.
Proof.
  unfold ActionService.encryptMetadata, sealed_fields.
  destruct (truthy _ && is_string _ ActionService.ServiceHttp).
  { intros He [<-|[]] Ht. by apply (encryptField_seals md _ md). }
  destruct (truthy _ && is_string _ ActionService.OAuth); [|by intros _ []].
  destruct (ActionService.encryptField md "oauth_client_id" md) as [e1|] eqn:Ha; [|done].
  intros Hb Hin Ht. destruct (encryptField_frame _ _ _ _ eq_refl Ha) as [Hk1 _].
  destruct Hin as [<-|[<-|[]]].
  - destruct (encryptField_seals _ _ _ _ eq_refl Ht Ha) as (c & Hc & Hl).
    exists c. split; [done|].
    destruct (encryptField_frame _ _ _ _ Hk1 Hb) as [_ Hl2]. by rewrite Hl2.
  - by apply (encryptField_seals md _ e1).
Qed.

End EncryptionFrame.

Lemma encryptMetadata_frame_witness :
  let md := [("domain", JStr "api.example.com");
             ("auth", JObj [("type", JStr "service_http")]);
             ("api_key", JStr "sk:1"); ("oauth_client_secret", JStr "shh")] in
  let enc := [("domain", JStr "api.example.com");
              ("auth", JObj [("type", JStr "service_http")]);
              ("api_key", JStr "enc:sk%3A1"); ("oauth_client_secret", JStr "shh")] in
  @ActionService.encryptMetadata Demo.host md = Ok enc
  /\ keys enc = keys md
  /\ lookup_prop "oauth_client_secret" enc = lookup_prop "oauth_client_secret" md.
Proof.
  intros md enc. split; [reflexivity|].
  destruct (@encryptMetadata_frame Demo.host md enc eq_refl) as [Hk Hl].
  split; [exact Hk|]. apply Hl. vm_compute. intros [Heq|[]]. discriminate.
Defined.

Lemma encryptMetadata_seals_witness :
  let md := [("domain", JStr "api.example.com");
             ("auth", JObj [("type", JStr "oauth")]);
             ("oauth_client_id", JStr "cid"); ("oauth_client_secret", JStr "s/h")] in
  exists enc,
    @ActionService.encryptMetadata Demo.host md = Ok enc
    /\ exists c, @encryptV2 Demo.host (encodeURIComponent "s/h") = Ok c
                 /\ lookup_prop "oauth_client_secret" enc = JStr c.
Proof.
  intros md. eexists. split; [reflexivity|].
  apply (@encryptMetadata_seals Demo.host md _ "oauth_client_secret" eq_refl).
  - right. by left.
  - reflexivity.
Defined.

Section CredentialRoundTrip.
Context `{Host}.
Variable decryptV2 : json -> result string.
Hypothesis Hinv : forall p c, encryptV2 p = Ok c -> c <> "" /\ decryptV2 (JStr c) = Ok p.

Lemma encryptField_inv md k enc r :
  text_credential (lookup_prop k md) ->
  ActionService.encryptField md k enc = Ok r ->
  (truthy (lookup_prop k md) = false /\ r = enc)
  \/ (exists s c, lookup_prop k md = JStr s /\ has_key k md = true /\ utf8 s = true
                  /\ encryptV2 (encodeURIComponent s) = Ok c
                  /\ r = set_prop enc k (JStr c)).
Proof.
  intros Ht He.
  destruct (encryptField_cases _ _ _ _ He) as [|(Hk & c & Hc & ->)]; [by left|].
  destruct (Ht Hk) as (s & Hs & Hu). right. exists s, c. rewrite Hs in Hc.
  repeat split; try done. by apply truthy_has_key.
Qed.

Lemma decryptField_sealed enc k d s c :
  utf8 s = true ->
  encryptV2 (encodeURIComponent s) = Ok c ->
  lookup_prop k enc = JStr c ->
  ActionService.decryptField decryptV2 enc k d = Ok (set_prop d k (JStr s)).
Proof.
  intros Hu Hc Hk. destruct (Hinv _ _ Hc) as [Hne Hd].
  unfold ActionService.decryptField, ActionService.decryptSensitiveValue.
  rewrite Hk. cbn [truthy]. destruct (String.eqb c "") eqn:He.
  { apply String.eqb_eq in He. done. }
  cbn [negb]. rewrite Hd. by rewrite decode_encode.
Qed.

Lemma decryptField_plain enc k d :
  truthy (lookup_prop k enc) = false ->
  ActionService.decryptField decryptV2 enc k d = Ok d.
Proof. intros Hk. unfold ActionService.decryptField. by rewrite Hk. Qed.

(** X16. [decryptMetadata] undoes [encryptMetadata]: when the cipher can
    be inverted and never yields an empty ciphertext, and the credential
    fields that are set are strings, decrypting the encrypted metadata gives
    the metadata back, key for key. *)
Theorem decryptMetadata_encryptMetadata md enc :
  text_credential (lookup_prop "api_key" md) ->
  text_credential (lookup_prop "oauth_client_id" md) ->
  text_credential (lookup_prop "oauth_client_secret" md) ->
  ActionService.encryptMetadata md = Ok enc ->
  ActionService.decryptMetadata decryptV2 enc = Ok md.
Proof.
  intros H1 H2 H3. unfold ActionService.encryptMetadata, ActionService.decryptMetadata.
  set (auth := lookup_prop "auth" md).
  assert (Hauth : forall k v p, k <> "auth" -> lookup_prop "auth" p = auth ->
                    lookup_prop "auth" (set_prop p k v) = auth).
  { intros k v p Hk Hp. by rewrite lookup_set_prop_ne. }
  destruct (truthy auth && is_string (get "type" auth) ActionService.ServiceHttp) eqn:Hs.
  - intros He.
    destruct (encryptField_inv _ _ _ _ H1 He) as [[Hf ->]|(s & c & Hl & Hk & Hu & Hc & ->)].
    + fold auth. rewrite Hs. by apply decryptField_plain.
    + rewrite Hauth by done. rewrite Hs.
      rewrite (decryptField_sealed _ _ _ s c); try done.
      * f_equal. rewrite (set_prop_present _ _ md) by done.
        rewrite set_prop_present by (by rewrite has_key_replace_prop).
        by rewrite replace_prop_twice, <- Hl, replace_prop_same.
      * rewrite set_prop_present by done. by apply lookup_replace_prop_eq.
  - destruct (truthy auth && is_string (get "type" auth) ActionService.OAuth) eqn:Ho.
    2:{ intros [= <-]. fold auth. by rewrite Hs, Ho. }
    destruct (ActionService.encryptField md "oauth_client_id" md) as [e1|] eqn:Ha; [|done].
    intros Hb.
    destruct (encryptField_inv _ _ _ _ H2 Ha) as [[Hfa ->]|(sa & ca & Hla & Hka & Hua & Hca & ->)];
      destruct (encryptField_inv _ _ _ _ H3 Hb) as [[Hfb ->]|(sb & cb & Hlb & Hkb & Hub & Hcb & ->)].
    + fold auth. rewrite Hs, Ho. rewrite decryptField_plain by done.
      by apply decryptField_plain.
    + rewrite Hauth by done. rewrite Hs, Ho.
      rewrite decryptField_plain by (by rewrite lookup_set_prop_ne).
      rewrite (decryptField_sealed _ _ _ sb cb); try done.
      * f_equal. rewrite (set_prop_present _ _ md) by done.
        rewrite set_prop_present by (by rewrite has_key_replace_prop).
        by rewrite replace_prop_twice, <- Hlb, replace_prop_same.
      * rewrite set_prop_present by done. by apply lookup_replace_prop_eq.
    + rewrite Hauth by done. rewrite Hs, Ho.
      rewrite (decryptField_sealed _ _ _ sa ca); try done.
      2:{ rewrite set_prop_present by done. by apply lookup_replace_prop_eq. }
      rewrite (set_prop_present _ _ md) by done.
      rewrite set_prop_present by (by rewrite has_key_replace_prop).
      rewrite replace_prop_twice, <- Hla, replace_prop_same.
      by apply decryptField_plain; rewrite lookup_replace_prop_ne.
    + rewrite Hauth; [|done|by apply Hauth]. rewrite Hs, Ho.
      rewrite (set_prop_present _ _ md) by done.
      rewrite set_prop_present by (by rewrite has_key_replace_prop).
      rewrite (decryptField_sealed _ _ _ sa ca); try done.
      2:{ rewrite lookup_replace_prop_ne by done. by apply lookup_replace_prop_eq. }
      rewrite (decryptField_sealed _ _ _ sb cb); try done.
      2:{ by apply lookup_replace_prop_eq; rewrite has_key_replace_prop. }
      f_equal.
      rewrite (set_prop_present "oauth_client_id") by (by rewrite !has_key_replace_prop).
      rewrite set_prop_present by (by rewrite !has_key_replace_prop).
      rewrite (replace_prop_comm "oauth_client_id" "oauth_client_secret") by done.
      rewrite !replace_prop_twice.
      rewrite <- Hla, replace_prop_same. by rewrite <- Hlb, replace_prop_same.
Qed.

End CredentialRoundTrip.

Lemma demo_cipher_inverts p c :
  @encryptV2 Demo.host p = Ok c -> c <> "" /\ Demo.decryptV2 (JStr c) = Ok p.
Proof. cbn. intros [= <-]. split; [discriminate | reflexivity]. Qed.

Lemma decryptMetadata_encryptMetadata_witness :
  let md := [("domain", JStr "api.example.com");
             ("auth", JObj [("type", JStr "oauth"); ("scope", JStr "read")]);
             ("oauth_client_id", JStr "c:id");
             ("oauth_client_secret", JStr ("s/" +:+ String "195"%char (String "169"%char "")))] in
  let enc := [("domain", JStr "api.example.com");
              ("auth", JObj [("type", JStr "oauth"); ("scope", JStr "read")]);
              ("oauth_client_id", JStr "enc:c%3Aid");
              ("oauth_client_secret", JStr "enc:s%2F%C3%A9")] in
  @ActionService.encryptMetadata Demo.host md = Ok enc
  /\ ActionService.decryptMetadata Demo.decryptV2 enc = Ok md.
Proof.
  intros md enc. split; [reflexivity|].
  apply (@decryptMetadata_encryptMetadata Demo.host Demo.decryptV2 demo_cipher_inverts md enc).
  - intros Ht. discriminate Ht.
  - intros _. eexists. split; reflexivity.
  - intros _. eexists. split; reflexivity.
  - reflexivity.
Defined.
(** ** sync.js: what one agent's file content is *)

Section FileContentFacts.
Context `{Host}.

Lemma drop_white_space_blank l :
  existsb (fun p => negb (is_white_space (fst p))) l = false -> drop_white_space l = [].
Proof.
  induction l as [|[cp bytes] l IH]; [done|]. cbn [existsb drop_white_space fst].
  intros [Hcp Hl]%orb_false_elim. apply negb_false_iff in Hcp. rewrite Hcp. by apply IH.
Qed.

(** What [validateInstructions] accepts: a string with a code point that is
    not white space, of at most [maxLength] UTF-16 code units. *)
Lemma validateInstructions_valid v maxLength :
  ValidateConfigFile.validateInstructions v maxLength = Valid ->
  exists s, v = JStr s /\ not_blank s = true /\ (N.of_nat (js_length s) <= maxLength)%N.
Proof.
  unfold ValidateConfigFile.validateInstructions. destruct v as [| | | |s| |]; try done.
  destruct (Nat.eqb (js_length (trim s)) 0) eqn:Hblank; [done|].
  destruct (maxLength <? N.of_nat (js_length s))%N eqn:Hlong; [done|].
  intros _. exists s. split; [done|]. split; [|by apply N.ltb_ge].
  destruct (not_blank s) eqn:Hnb; [done|]. exfalso.
  unfold trim in Hblank. rewrite (drop_white_space_blank _ Hnb) in Hblank. done.
Qed.

(** X17. For a declaration that passed validation, [loadAgentFileContent]
    succeeds only with instructions that are a string, not blank (some
    character of it is not white space) and with a [length] of at most
    10000; without an instructions file they are the inline instructions,
    and without an icon file nothing is uploaded and the avatar is the
    inline icon, if any. *)
Theorem loadAgentFileContent_instructions c w instr av w' :
  cv_valid (ValidateConfigFile.validateAgentConfig c) = true ->
  Sync.loadAgentFileContent c w = (Ok (instr, av), w') ->
  (exists s, instr = Some s /\ not_blank s = true
             /\ (N.of_nat (js_length s) <= 10000)%N)
  /\ (opt_truthy (cfg_instructionsFile c) = false -> instr = cfg_instructions c)
  /\ (opt_truthy (cfg_iconFile c) = false ->
      w' = w
      /\ av = if opt_truthy (cfg_icon c)
              then Some {| filepath := Sync.show (cfg_icon c); source := "inline" |}
              else None).
Proof.
  intros Hv. destruct (valid_declaration c Hv) as [_ Hsome].
  unfold Sync.loadAgentFileContent. intros Hs.
  apply bind_ok_inv in Hs as (instr0 & w1 & Hi & Hs).
  apply bind_ok_inv in Hs as (av0 & w2 & Ha & Hs).
  injection Hs as <- <- <-.
  assert (Hinstr : (exists s, instr0 = Some s /\ not_blank s = true
                              /\ (N.of_nat (js_length s) <= 10000)%N)
                   /\ (opt_truthy (cfg_instructionsFile c) = false ->
                       instr0 = cfg_instructions c)
                   /\ w1 = w).
  { revert Hi. destruct (opt_truthy (cfg_instructionsFile c)) eqn:Hf.
    - intros Hi. apply bind_ok_inv in Hi as (content & w0 & Hl & Hi).
      apply lift_inv in Hl as [_ ->].
      destruct (ValidateConfigFile.validateInstructions _ _) eqn:Hval; [|done].
      injection Hi as <- <-.
      apply validateInstructions_valid in Hval as (s & -> & Hnb & Hlen).
      split; [|done]. by exists s.
    - rewrite orb_false_r in Hsome. rewrite Hsome.
      destruct (ValidateConfigFile.validateInstructions _ _) eqn:Hval; [|done].
      intros [= <- <-]. split; [|done].
      apply validateInstructions_valid in Hval as (s & Hs & Hnb & Hlen).
      destruct (cfg_instructions c) as [s'|]; [|done]. injection Hs as ->.
      by exists s. }
  destruct Hinstr as (Hi1 & Hi2 & ->). split; [done|]. split; [done|].
  intros Hicon. rewrite Hicon in Ha.
  destruct (opt_truthy (cfg_icon c)); by injection Ha as <- <-.
Qed.

End FileContentFacts.

Lemma loadAgentFileContent_instructions_witness :
  let c := Demo.agent "support" None in
  @Sync.loadAgentFileContent Demo.host c Demo.empty_world
  = (Ok (Some "Be kind.", None), Demo.empty_world)
  /\ exists s, Some "Be kind." = Some s /\ not_blank s = true
               /\ (N.of_nat (js_length s) <= 10000)%N.
Proof.
  intros c. split; [reflexivity|].
  destruct (@loadAgentFileContent_instructions Demo.host c Demo.empty_world
              (Some "Be kind.") None Demo.empty_world eq_refl eq_refl) as (Hs & _ & _).
  exact Hs.
Defined.

(** ** sync.js: the actions of one agent *)

Section SyncActionsFacts.
Context `{Host}.

Lemma updateAction_actions actionId usr data w r w' :
  Store.updateAction actionId usr data w = (r, w') ->
  match r with
  | Ok x => x = data /\ actions w' = <[(actionId, usr) := data]> (actions w)
  | Err _ => actions w' = actions w
  end.
Proof.
  intros Hc. by apply db_call_inv in Hc as [(msg & _ & -> & ->)|(_ & w1 & [= <- <-] & ->)].
Qed.

Lemma syncAction_actions agentId owner c w r w' :
  Sync.syncAction agentId owner c w = (r, w') ->
  agents w' = agents w
  /\ match r with
     | Ok x => action_record_of agentId owner c x
               /\ actions w' = <[(action_id x, owner) := x]> (actions w)
     | Err _ => actions w' = actions w
     end.
Proof.
  unfold Sync.syncAction. intros Hs.
  apply bind_inv in Hs as [(e & Hl & ->)|(spec & w1 & Hl & Hs)];
    apply lift_inv in Hl as [Hspec ->]; [done|].
  apply bind_inv in Hs as [(e & Hl & ->)|(enc & w2 & Hl & Hs)];
    apply lift_inv in Hl as [Henc ->]; [done|].
  pose proof (updateAction_inv _ _ _ _ _ _ Hs) as (Ha & _ & _).
  apply updateAction_actions in Hs. split; [done|].
  destruct r as [x|]; [|done]. destruct Hs as [-> Hw]. split; [|done].
  exists spec, enc. by rewrite Hspec, Henc.
Qed.

Lemma syncActions_loop_records agentId owner cs : forall synced w l w',
  Sync.syncActions_loop agentId owner cs synced w = (Ok l, w') ->
  exists news,
    l = synced ++ news
    /\ Forall2 (action_record_of agentId owner) cs news
    /\ (forall r, In r news -> is_Some (actions w' !! (action_id r, owner)))
    /\ (forall key, ~ In key (map (fun r => (action_id r, owner)) news) ->
                    actions w' !! key = actions w !! key).
Proof.
  induction cs as [|c cs IH]; intros synced w l w'; cbn [Sync.syncActions_loop].
  - intros [= <- <-]. exists []. rewrite app_nil_r. repeat split; try done.
  - intros Hs. apply bind_ok_inv in Hs as (x & w1 & Hx & Hs).
    apply syncAction_actions in Hx as (_ & Hrec & Hw1).
    apply IH in Hs as (news & -> & Hall & Hstored & Hframe).
    exists (x :: news). rewrite <- app_assoc. repeat split; try done.
    + by constructor.
    + intros r [<-|Hin]; [|by apply Hstored].
      destruct (decide ((action_id x, owner) ∈ map (fun r => (action_id r, owner)) news))
        as [Hk|Hk].
      * apply list_elem_of_In, in_map_iff in Hk as (r' & Heq & Hin').
        rewrite <- Heq. by apply Hstored.
      * rewrite Hframe by (by rewrite <- list_elem_of_In).
        by rewrite Hw1, lookup_insert_eq.
    + intros key Hnot. cbn [map] in Hnot.
      rewrite Hframe by (intros Hin; apply Hnot; by right).
      rewrite Hw1, lookup_insert_ne; [done|]. intros Heq. apply Hnot. by left.
Qed.

(** X18. When [syncActions] succeeds it returns one record per declared
    action, in the order of the declaration, each with the generated id, the
    system owner, the agent id, the type [action_prototype] and the
    encrypted metadata of its validated spec; every returned id has a record
    in the store, no other action key is touched, and no agent is. *)
Theorem syncActions_records agentId owner actionsConfig w l w' :
  Sync.syncActions agentId actionsConfig owner w = (Ok l, w') ->
  agents w' = agents w
  /\ Forall2 (action_record_of agentId owner) (default [] actionsConfig) l
  /\ (forall r, In r l -> is_Some (actions w' !! (action_id r, owner)))
  /\ (forall key, ~ In key (map (fun r => (action_id r, owner)) l) ->
                  actions w' !! key = actions w !! key).
Proof.
  intros Hs. pose proof (syncActions_inv _ _ _ _ _ _ Hs) as (Ha & _ & _).
  split; [done|]. revert Hs. unfold Sync.syncActions.
  destruct actionsConfig as [[|c cs]|]; cbn [default];
    try (intros [= <- <-]; repeat split; try done; constructor).
  intros Hs. apply syncActions_loop_records in Hs as (news & -> & H1 & H2 & H3). done.
Qed.

Lemma syncActions_loop_app agentId owner pre rest : forall synced w l1 w1,
  Sync.syncActions_loop agentId owner pre synced w = (Ok l1, w1) ->
  Sync.syncActions_loop agentId owner (pre ++ rest) synced w
  = Sync.syncActions_loop agentId owner rest l1 w1.
Proof.
  induction pre as [|c pre IH]; intros synced w l1 w1; cbn [Sync.syncActions_loop app].
  - by intros [= <- <-].
  - intros Hs. apply bind_ok_inv in Hs as (x & w0 & Hx & Hs).
    unfold bind at 1. rewrite Hx. by apply IH.
Qed.

(** X19. [syncActions] stops at the first action that fails: the error of
    that action is the error of the whole call, the actions declared after
    it are not looked at, and the actions stored before it stay stored
    (nothing is rolled back). *)
Theorem syncActions_fail_fast agentId owner pre bad post w l1 w1 e w2 :
  Sync.syncActions agentId (Some pre) owner w = (Ok l1, w1) ->
  Sync.syncAction agentId owner bad w1 = (Err e, w2) ->
  Sync.syncActions agentId (Some (pre ++ bad :: post)) owner w = (Err e, w2)
  /\ actions w2 = actions w1
  /\ agents w2 = agents w.
Proof.
  intros Hpre Hbad.
  assert (Hloop : Sync.syncActions_loop agentId owner pre [] w = (Ok l1, w1)).
  { revert Hpre. unfold Sync.syncActions. by destruct pre. }
  pose proof (syncActions_inv _ _ _ _ _ _ Hpre) as (Ha & _ & _).
  pose proof (syncAction_actions _ _ _ _ _ _ Hbad) as (Ha2 & Hact).
  split; [|split; [done|congruence]].
  unfold Sync.syncActions.
  assert (Hne : pre ++ bad :: post <> []) by (by destruct pre).
  destruct (pre ++ bad :: post) as [|c0 cs0] eqn:Heq; [done|]. rewrite <- Heq.
  rewrite (syncActions_loop_app _ _ _ _ _ _ _ _ Hloop).
  cbn [Sync.syncActions_loop]. unfold bind. by rewrite Hbad.
Qed.

End SyncActionsFacts.

Lemma syncActions_records_witness :
  exists l w',
    @Sync.syncActions Demo.host "support"
      (Some [Demo.action "a.example.com" None; Demo.action "b.example.com" None])
      Demo.system Demo.empty_world = (Ok l, w')
    /\ map action_id l = ["a.example.com_support"; "b.example.com_support"]
    /\ agents w' = agents Demo.empty_world
    /\ (forall r, In r l -> is_Some (actions w' !! (action_id r, Demo.system))).
Proof.
  destruct (@Sync.syncActions Demo.host "support"
              (Some [Demo.action "a.example.com" None; Demo.action "b.example.com" None])
              Demo.system Demo.empty_world) as [[l|e] w'] eqn:Hrun.
  - exists l, w'. split; [reflexivity|].
    destruct (@syncActions_records Demo.host _ _ _ _ _ _ Hrun) as (Ha & _ & Hst & _).
    split; [|split; [exact Ha | exact Hst]].
    vm_compute in Hrun. injection Hrun as <- _. reflexivity.
  - vm_compute in Hrun. discriminate.
Defined.

Lemma syncActions_fail_fast_witness :
  let pre := [Demo.action "a.example.com" None] in
  let bad := Demo.broken_action "bad.example.com" in
  let post := [Demo.action "b.example.com" None] in
  let run1 := @Sync.syncActions Demo.host "support" (Some pre) Demo.system
                Demo.empty_world in
  let run := @Sync.syncActions Demo.host "support" (Some (pre ++ bad :: post)) Demo.system
               Demo.empty_world in
  is_ok (fst run1) = true
  /\ is_ok (fst run) = false
  /\ actions (snd run) = actions (snd run1)
  /\ is_Some (actions (snd run) !! ("a.example.com_support", Demo.system))
  /\ actions (snd run) !! ("b.example.com_support", Demo.system) = None.
Proof.
  intros pre bad post run1 run.
  destruct run1 as [[l1|e1] w1] eqn:H1; [|vm_compute in H1; discriminate].
  destruct (@Sync.syncAction Demo.host "support" Demo.system bad w1) as [[x|e] w2] eqn:H2.
  { subst run1. vm_compute in H1. injection H1 as <- <-. vm_compute in H2. discriminate. }
  destruct (@syncActions_fail_fast Demo.host "support" Demo.system pre bad post
              Demo.empty_world l1 w1 e w2 H1 H2) as (Hrun & Hact & _).
  fold run in Hrun. rewrite Hrun. cbn [fst snd is_ok].
  split; [reflexivity|]. split; [reflexivity|]. split; [exact Hact|].
  rewrite Hact. subst run1. vm_compute in H1. injection H1 as _ <-.
  split; vm_compute; [by eexists | reflexivity].
Defined.

(** ** sync.js: one agent *)

Section SyncAgentHash.
Context `{Host}.

Lemma skip_condition ex h :
  opt_truthy (Sync.existingHash ex)
  && HashUtils.hashesEqual (Sync.show (Sync.existingHash ex)) h = true ->
  Sync.existingHash ex = Some h.
Proof.
  destruct (Sync.existingHash ex) as [s|]; [|done].
  intros [_ Heq]%andb_prop. unfold HashUtils.hashesEqual, Sync.show in Heq. cbn in Heq.
  by apply String.eqb_eq in Heq as ->.
Qed.

(** X20. After a successful [syncAgent] the record it returns is the one
    stored under the declared id, it belongs to the system owner, and its
    last version carries the hash of the declaration with the file content
    as loaded in this call, on each of the three paths (unchanged, updated,
    created). *)
Theorem syncAgent_stores_hash c owner w agent w' :
  keyed w ->
  Sync.syncAgent c owner w = (Ok agent, w') ->
  exists instr av h w1,
    Sync.loadAgentFileContent c w = (Ok (instr, av), w1)
    /\ HashUtils.calculateAgentConfigHash c instr av = Ok h
    /\ agents w' !! Sync.show (cfg_id c) = Some agent
    /\ ag_id agent = Sync.show (cfg_id c)
    /\ ag_author agent = owner
    /\ Sync.existingHash agent = Some h.
Proof.
  intros Hkeyed Hs.
  pose proof (syncAgent_inv _ _ _ _ _ Hkeyed Hs) as (Htouch & _ & Hok).
  destruct (Hok agent eq_refl) as (Hstored & Hauthor & _).
  pose proof (syncAgent_ok_valid _ _ _ _ _ Hs) as Hv.
  destruct (validateAgentConfig_id c Hv) as (i & Hid & Hshow).
  destruct Htouch as (Hk' & _ & _). specialize (Hk' Hkeyed).
  pose proof (Hk' _ _ Hstored) as Hagid.
  revert Hs. unfold Sync.syncAgent. rewrite Hv. cbn [negb]. rewrite Hshow in *. intros Hs.
  apply bind_ok_inv in Hs as ([instr av] & w1 & Hl & Hs).
  pose proof (loadAgentFileContent_inv _ _ _ _ Hl) as (Ha1 & _ & _).
  apply bind_ok_inv in Hs as (h & w2 & Hh & Hs). apply lift_inv in Hh as [Hh ->].
  exists instr, av, h, w1. repeat split; try done.
  apply bind_ok_inv in Hs as (existing & w2 & Hg & Hs).
  apply getAgent_inv in Hg as (Ha2 & _ & _ & Hex). specialize (Hex existing eq_refl).
  apply bind_ok_inv in Hs as (agent0 & w3 & Hb & Hs).
  assert (Hh0 : Sync.existingHash agent0 = Some h).
  { destruct existing as [ex|].
    - destruct (_ && _) eqn:Hskip.
      + injection Hb as <- <-. by apply skip_condition.
      + apply updateDefaultAgent_inv in Hb as [_ Hx].
        destruct (Hx agent0 eq_refl) as (a0 & h' & _ & Hh' & -> & _).
        rewrite Hh' in Hh. injection Hh as ->.
        by apply (existingHash_last (ag_versions a0)).
    - apply (createDefaultAgent_inv _ _ _ _ i) in Hb as [_ Hx]; [|done].
      destruct (Hx agent0 eq_refl) as (h' & _ & Hh' & -> & _).
      rewrite Hh' in Hh. injection Hh as ->. by apply (existingHash_last []). }
  apply bind_ok_inv in Hs as (acts & w4 & Hsa & Hs).
  destruct (0 <? length acts)%nat; [|by injection Hs as <- _].
  apply bind_ok_inv in Hs as (u & w5 & Hu & Hs).
  apply read_updated_inv in Hs as [-> Hx]. specialize (Hx agent eq_refl) as ->.
  apply updateAgent_inv in Hu as (_ & _ & a & Ha & -> & Hw).
  apply syncActions_inv in Hsa as (Ha4 & _ & _).
  assert (Hsame : a = agent0).
  { assert (Hst3 : agents w3 !! ag_id agent0 = Some agent0).
    { destruct existing as [ex|].
      - assert (Hexi : agents w !! i = Some ex /\ ag_id ex = i).
        { rewrite Ha1 in Hex. destruct (agents w !! i) as [a1|] eqn:Ea; [|done].
          destruct (String.eqb _ _); [|done]. injection Hex as ->. split; [done|].
          by apply Hkeyed. }
        destruct Hexi as [Hexi Hexid].
        destruct (_ && _).
        + injection Hb as <- <-. by rewrite Hexid, Ha2, Ha1.
        + apply updateDefaultAgent_inv in Hb as [_ Hx].
          destruct (Hx agent0 eq_refl) as (a0 & h' & Ha0 & _ & -> & Hw3).
          cbn [Store.apply_update ag_id]. rewrite Hw3.
          rewrite Ha2, Ha1 in Ha0. rewrite (Hkeyed _ _ Ha0).
          by rewrite lookup_insert_eq.
      - apply (createDefaultAgent_inv _ _ _ _ i) in Hb as [_ Hx]; [|done].
        destruct (Hx agent0 eq_refl) as (h' & _ & _ & -> & Hw3).
        cbn [ag_id]. by rewrite Hw3, lookup_insert_eq. }
    rewrite Ha4, Hst3 in Ha. by injection Ha as <-. }
  subst a. by destruct agent0.
Qed.

End SyncAgentHash.

Lemma syncAgent_stores_hash_witness :
  let c := Demo.agent "support" (Some [Demo.action "api.example.com" None]) in
  keyed Demo.empty_world
  /\ exists agent w',
       @Sync.syncAgent Demo.host c Demo.system Demo.empty_world = (Ok agent, w')
       /\ exists instr av h w1,
            @Sync.loadAgentFileContent Demo.host c Demo.empty_world = (Ok (instr, av), w1)
            /\ @HashUtils.calculateAgentConfigHash Demo.host c instr av = Ok h
            /\ agents w' !! Sync.show (cfg_id c) = Some agent
            /\ ag_id agent = Sync.show (cfg_id c)
            /\ ag_author agent = Demo.system
            /\ Sync.existingHash agent = Some h.
Proof.
  intros c. split; [exact keyed_empty|].
  destruct (@Sync.syncAgent Demo.host c Demo.system Demo.empty_world)
    as [[agent|e] w'] eqn:Hrun.
  - exists agent, w'. split; [reflexivity|].
    exact (@syncAgent_stores_hash Demo.host _ _ _ _ _ keyed_empty Hrun).
  - vm_compute in Hrun. discriminate.
Defined.

(** ** sync.js: what a pass leaves alone *)

Section ForeignRecords.
Context `{Host}.

Lemma removeAgents_foreign removedAgents owner : forall w r w' k a,
  agents w !! k = Some a -> ag_author a <> owner ->
  Sync.removeAgents removedAgents owner w = (r, w') ->
  agents w' !! k = Some a.
Proof.
  induction removedAgents as [|x rest IH]; intros w r w' k a Hk Hforeign;
    cbn [Sync.removeAgents].
  - by intros [= _ <-].
  - unfold bind, try_catch.
    destruct (Sync.removeAgent x owner w) as [r1 w1] eqn:Hr.
    assert (Hk1 : agents w1 !! k = Some a).
    { apply removeAgent_inv in Hr as [->|(_ & -> & a' & Ha' & Hau)]; [done|].
      rewrite lookup_delete_ne; [done|]. intros <-. congruence. }
    destruct r1 as [[]|e]; cbn; intros Hs; by eapply IH.
Qed.

Lemma cleanupRemovedAgents_foreign ids owner w r w' k a :
  agents w !! k = Some a -> ag_author a <> owner ->
  Sync.cleanupRemovedAgents ids owner w = (r, w') ->
  agents w' !! k = Some a.
Proof.
  intros Hk Hforeign. unfold Sync.cleanupRemovedAgents. intros Hs.
  apply bind_inv in Hs as [(e & Hf & ->)|(l & w1 & Hf & Hs)];
    apply findAgents_inv in Hf as (Ha & _ & _ & _); [by rewrite Ha|].
  rewrite <- Ha in Hk.
  destruct (List.filter _ l) as [|x rest]; [by injection Hs as _ <-|].
  apply bind_inv in Hs as [(e & Hr & ->)|(u & w2 & Hr & Hs)].
  - by eapply removeAgents_foreign.
  - injection Hs as _ <-. by eapply removeAgents_foreign.
Qed.

(** X21. A pass never changes or deletes an agent that belongs to another
    owner under an id that no declaration uses: such a record is in the
    store after the pass exactly as it was before, whatever fails.  The
    reconciliation of a declared agent only writes under the declared id,
    and the cleanup only removes records of the system owner. *)
Theorem sync_keeps_foreign_agents config w k a :
  keyed w -> agents w !! k = Some a -> ag_author a <> Sync.getDefaultObjectId ->
  Forall (fun c => cfg_id c <> Some k) (default [] config) ->
  agents (snd (Sync.syncDefaultAgents config w)) !! k = Some a.
Proof.
  intros Hkeyed Hk Hforeign Hfree. unfold Sync.syncDefaultAgents.
  destruct config as [[|c l]|]; try done. cbn [default] in Hfree.
  destruct (Sync.syncAgents (c :: l) Sync.getDefaultObjectId Sync.initialResults w)
    as [results w1] eqn:Hloop.
  destruct (syncAgents_inv (c :: l) Sync.getDefaultObjectId Sync.initialResults w Hkeyed)
    as (_ & _ & Hframe).
  pose proof (Hframe k Hfree) as Hk1.
  rewrite Hloop in Hk1. cbn [snd] in Hk1. rewrite Hk in Hk1.
  destruct (Sync.cleanupRemovedAgents _ _ w1) as [r w2] eqn:Hc.
  pose proof (cleanupRemovedAgents_foreign _ _ _ _ _ _ _ Hk1 Hforeign Hc) as Hk2.
  by destruct r.
Qed.

End ForeignRecords.

Lemma keyed_store_of a x : keyed (Demo.store_of a x).
Proof.
  intros k r Hl. cbn in Hl. by apply lookup_singleton_Some in Hl as [<- <-].
Qed.

Lemma sync_keeps_foreign_agents_witness :
  let mine := Demo.record "support" "user-1" [] in
  let w := Demo.store_of mine (Demo.stored_action "a_support" "user-1" "support") in
  let pass := @Sync.syncDefaultAgents Demo.host
                (Some [Demo.agent "helpdesk" None; Demo.agent "sales" None]) w in
  keyed w
  /\ syncedCount (fst pass) = 2
  /\ agents (snd pass) !! "support" = Some mine.
Proof.
  intros mine w pass. split; [apply keyed_store_of|]. split; [reflexivity|].
  apply (@sync_keeps_foreign_agents Demo.host _ w "support" mine).
  - apply keyed_store_of.
  - reflexivity.
  - discriminate.
  - repeat constructor; discriminate.
Defined.

Section ForeignActions.
Context `{Host}.

Lemma deleteAction_actions actionId usr w r w' :
  Store.deleteAction actionId usr w = (r, w') ->
  actions w' = actions w \/ actions w' = delete (actionId, usr) (actions w).
Proof.
  intros Hc. apply db_call_inv in Hc as [(msg & _ & -> & ->)|(_ & w1 & [= <- <-] & ->)];
    [by left|by right].
Qed.

Lemma createDefaultAgent_actions c instr av owner w r w' :
  Sync.createDefaultAgent c instr av owner w = (r, w') -> actions w' = actions w.
Proof.
  unfold Sync.createDefaultAgent. intros Hs.
  apply bind_inv in Hs as [(e & Hl & ->)|(h & w1 & Hl & Hs)];
    apply lift_inv in Hl as [_ ->]; [done|].
  by apply createAgent_inv in Hs as (Ha & _).
Qed.

Lemma updateDefaultAgent_actions ex c instr av owner w r w' :
  Sync.updateDefaultAgent ex c instr av owner w = (r, w') -> actions w' = actions w.
Proof.
  unfold Sync.updateDefaultAgent. intros Hs.
  apply bind_inv in Hs as [(e & Hl & ->)|(h & w1 & Hl & Hs)];
    apply lift_inv in Hl as [_ ->]; [done|].
  apply bind_inv in Hs as [(e & Hu & ->)|(u & w2 & Hu & Hs)];
    apply updateAgent_inv in Hu as (Ha & _); [done|].
  apply read_updated_inv in Hs as [-> _]. done.
Qed.

Lemma syncActions_loop_foreign agentId owner cs : forall synced w r w' key,
  snd key <> owner ->
  Sync.syncActions_loop agentId owner cs synced w = (r, w') ->
  actions w' !! key = actions w !! key.
Proof.
  induction cs as [|c cs IH]; intros synced w r w' key Hkey; cbn [Sync.syncActions_loop].
  - by intros [= _ <-].
  - intros Hs. apply bind_inv in Hs as [(e & Hx & ->)|(x & w1 & Hx & Hs)];
      apply syncAction_actions in Hx as (_ & Hx).
    + by rewrite Hx.
    + destruct Hx as (_ & Hw1). rewrite (IH _ _ _ _ _ Hkey Hs), Hw1.
      apply lookup_insert_ne. intros <-. by apply Hkey.
Qed.

Lemma syncActions_foreign agentId owner acts w r w' key :
  snd key <> owner ->
  Sync.syncActions agentId acts owner w = (r, w') ->
  actions w' !! key = actions w !! key.
Proof.
  intros Hkey. unfold Sync.syncActions.
  destruct acts as [[|c cs]|]; try by intros [= _ <-].
  by apply syncActions_loop_foreign.
Qed.

Lemma syncAgent_foreign_actions c owner w r w' key :
  snd key <> owner ->
  Sync.syncAgent c owner w = (r, w') ->
  actions w' !! key = actions w !! key.
Proof.
  intros Hkey. unfold Sync.syncAgent.
  destruct (cv_valid (ValidateConfigFile.validateAgentConfig c)); cbn [negb].
  2:{ by intros [= _ <-]. }
  intros Hs.
  apply bind_inv in Hs as [(e & Hl & ->)|([instr av] & w1 & Hl & Hs)];
    apply loadAgentFileContent_inv in Hl as (_ & Ha1 & _); [by rewrite Ha1|].
  apply bind_inv in Hs as [(e & Hl & ->)|(h & w2 & Hl & Hs)];
    apply lift_inv in Hl as [_ ->]; [by rewrite Ha1|].
  apply bind_inv in Hs as [(e & Hg & ->)|(existing & w2 & Hg & Hs)];
    apply getAgent_inv in Hg as (_ & Ha2 & _); [by rewrite Ha2, Ha1|].
  assert (Hstep : forall r3 w3,
            match existing with
            | Some existingAgent =>
                if opt_truthy (Sync.existingHash existingAgent)
                   && HashUtils.hashesEqual (Sync.show (Sync.existingHash existingAgent)) h
                then ret existingAgent
                else Sync.updateDefaultAgent existingAgent c instr av owner
            | None => Sync.createDefaultAgent c instr av owner
            end w2 = (r3, w3) -> actions w3 = actions w).
  { intros r3 w3. destruct existing as [ex|].
    - destruct (_ && _).
      + intros [= _ <-]. congruence.
      + intros Hu. apply updateDefaultAgent_actions in Hu. congruence.
    - intros Hc. apply createDefaultAgent_actions in Hc. congruence. }
  apply bind_inv in Hs as [(e & Hb & ->)|(agent0 & w3 & Hb & Hs)];
    apply Hstep in Hb; [by rewrite Hb|].
  apply bind_inv in Hs as [(e & Hsa & ->)|(acts & w4 & Hsa & Hs)];
    apply (syncActions_foreign _ _ _ _ _ _ key Hkey) in Hsa; [by rewrite Hsa, Hb|].
  destruct (0 <? length acts)%nat.
  - apply bind_inv in Hs as [(e & Hu & ->)|(u & w5 & Hu & Hs)];
      apply updateAgent_inv in Hu as (Ha5 & _); [by rewrite Ha5, Hsa, Hb|].
    apply read_updated_inv in Hs as [-> _]. by rewrite Ha5, Hsa, Hb.
  - injection Hs as _ <-. by rewrite Hsa, Hb.
Qed.

Lemma syncAgents_foreign_actions l owner : forall results w key,
  snd key <> owner ->
  actions (snd (Sync.syncAgents l owner results w)) !! key = actions w !! key.
Proof.
  induction l as [|c rest IH]; intros results w key Hkey; cbn [Sync.syncAgents]; [done|].
  destruct (Sync.syncAgent c owner w) as [r w1] eqn:Hs.
  apply (syncAgent_foreign_actions _ _ _ _ _ key Hkey) in Hs.
  destruct r; by rewrite IH.
Qed.

Lemma deleteActions_foreign ids owner : forall w r w' key,
  snd key <> owner ->
  Sync.deleteActions ids owner w = (r, w') ->
  actions w' !! key = actions w !! key.
Proof.
  induction ids as [|x ids IH]; intros w r w' key Hkey; cbn [Sync.deleteActions].
  - by intros [= _ <-].
  - intros Hs. apply bind_inv in Hs as [(e & Hd & ->)|(u & w1 & Hd & Hs)];
      apply deleteAction_actions in Hd.
    + destruct Hd as [->| ->]; [done|]. apply lookup_delete_ne. intros <-. by apply Hkey.
    + rewrite (IH _ _ _ _ Hkey Hs).
      destruct Hd as [->| ->]; [done|]. apply lookup_delete_ne. intros <-. by apply Hkey.
Qed.

Lemma removeAgents_foreign_actions removedAgents owner : forall w r w' key,
  snd key <> owner ->
  Sync.removeAgents removedAgents owner w = (r, w') ->
  actions w' !! key = actions w !! key.
Proof.
  induction removedAgents as [|x rest IH]; intros w r w' key Hkey; cbn [Sync.removeAgents].
  - by intros [= _ <-].
  - unfold bind, try_catch.
    destruct (Sync.removeAgent x owner w) as [r1 w1] eqn:Hr.
    assert (Hk1 : actions w1 !! key = actions w !! key).
    { revert Hr. unfold Sync.removeAgent. intros Hr.
      apply bind_inv in Hr as [(e & Hd & _)|(u & w0 & Hd & Hr)];
        apply (deleteActions_foreign _ _ _ _ _ key Hkey) in Hd; [done|].
      apply deleteAgent_inv in Hr as (Ha & _). by rewrite Ha. }
    destruct r1 as [[]|e]; cbn; intros Hs; by rewrite (IH _ _ _ _ Hkey Hs).
Qed.

(** X22. A pass only writes and deletes actions under the system owner:
    the action stored under any id for any other user is, after the pass,
    what it was before. *)
Theorem sync_keeps_foreign_actions config w key :
  snd key <> Sync.getDefaultObjectId ->
  actions (snd (Sync.syncDefaultAgents config w)) !! key = actions w !! key.
Proof.
  intros Hkey. unfold Sync.syncDefaultAgents.
  destruct config as [[|c l]|]; try done.
  destruct (Sync.syncAgents (c :: l) Sync.getDefaultObjectId Sync.initialResults w)
    as [results w1] eqn:Hloop.
  pose proof (syncAgents_foreign_actions (c :: l) Sync.getDefaultObjectId
                Sync.initialResults w key Hkey) as Hk1.
  rewrite Hloop in Hk1. cbn [snd] in Hk1.
  destruct (Sync.cleanupRemovedAgents _ _ w1) as [r w2] eqn:Hc.
  assert (Hk2 : actions w2 !! key = actions w1 !! key).
  { revert Hc. unfold Sync.cleanupRemovedAgents. intros Hs.
    apply bind_inv in Hs as [(e & Hf & _)|(found & w0 & Hf & Hs)];
      apply findAgents_inv in Hf as (_ & Ha & _ & _); [by rewrite Ha|].
    destruct (List.filter _ found) as [|x rest]; [injection Hs as _ <-; by rewrite Ha|].
    apply bind_inv in Hs as [(e & Hr & _)|(u & w3 & Hr & Hs)];
      apply (removeAgents_foreign_actions _ _ _ _ _ key Hkey) in Hr.
    - by rewrite Hr, Ha.
    - injection Hs as _ <-. by rewrite Hr, Ha. }
  destruct r; cbn [snd]; by rewrite Hk2.
Qed.

End ForeignActions.

Lemma sync_keeps_foreign_actions_witness :
  let theirs := Demo.stored_action "api.example.com_support" "user-1" "support" in
  let w := Demo.store_of (Demo.record "other" "user-1" []) theirs in
  let pass := @Sync.syncDefaultAgents Demo.host
                (Some [Demo.agent "support" (Some [Demo.action "api.example.com" None])]) w in
  is_Some (actions (snd pass) !! ("api.example.com_support", Demo.system))
  /\ actions (snd pass) !! ("api.example.com_support", "user-1") = Some theirs.
Proof.
  intros theirs w pass. split; [vm_compute; by eexists|]. subst pass.
  rewrite (@sync_keeps_foreign_actions Demo.host _ w ("api.example.com_support", "user-1")).
  - reflexivity.
  - discriminate.
Defined.

(** ** sync.js: the result of a pass *)

Section Accounting.
Context `{Host}.

Lemma syncAgents_accounting l owner : forall results w,
  let results' := fst (Sync.syncAgents l owner results w) in
  syncedCount results' + length (agent_errors results')
  = syncedCount results + length (agent_errors results) + length l
  /\ (forall known, Forall (error_of known) (agent_errors results) ->
                    Forall (error_of (known ++ l)) (agent_errors results')).
Proof.
  induction l as [|c rest IH]; intros results w; cbn [Sync.syncAgents fst length].
  - split; [lia|]. intros known. by rewrite app_nil_r.
  - assert (Hweak : forall known e, error_of known e -> error_of (known ++ [c]) e).
    { intros known e (c0 & msg & Hin & ->). exists c0, msg. split; [|done].
      apply in_or_app. by left. }
    destruct (Sync.syncAgent c owner w) as [[agent|error] w1].
    + destruct (IH (Sync.recordSynced results) w1) as [Hcount Herr]. split.
      * rewrite Hcount. cbn. unfold agent_errors. cbn. lia.
      * intros known Hk. replace (known ++ c :: rest) with ((known ++ [c]) ++ rest)
          by (by rewrite <- app_assoc).
        apply Herr. unfold agent_errors in *. cbn.
        eapply List.Forall_impl; [apply Hweak|done].
    + destruct (IH (Sync.recordError (AgentError (cfg_id c) (cfg_name c) (message error))
                      results) w1) as [Hcount Herr]. split.
      * rewrite Hcount. unfold agent_errors. cbn.
        rewrite List.filter_app, length_app. cbn. lia.
      * intros known Hk. replace (known ++ c :: rest) with ((known ++ [c]) ++ rest)
          by (by rewrite <- app_assoc).
        apply Herr. unfold agent_errors in *. cbn. rewrite List.filter_app. cbn.
        apply List.Forall_app. split.
        -- eapply List.Forall_impl; [apply Hweak|done].
        -- constructor; [|done]. exists c, (message error). split; [|done].
           apply in_or_app. right. by left.
Qed.

(** X23. Every declared agent is accounted for exactly once in the result
    of a pass: the number of synced agents plus the number of per-agent
    error entries is the number of declarations, and each such entry carries
    the id and the name of a declared agent.  A failure of the cleanup does
    not change this count. *)
Theorem sync_accounting l w :
  let results := fst (Sync.syncDefaultAgents (Some l) w) in
  syncedCount results + length (agent_errors results) = length l
  /\ Forall (error_of l) (agent_errors results).
Proof.
  unfold Sync.syncDefaultAgents. destruct l as [|c l]; [by split|].
  destruct (syncAgents_accounting (c :: l) Sync.getDefaultObjectId Sync.initialResults w)
    as [Hcount Herr].
  specialize (Herr [] (List.Forall_nil _)). cbn [app] in Herr.
  destruct (Sync.syncAgents (c :: l) _ _ w) as [results w1]. cbn [fst] in *.
  destruct (Sync.cleanupRemovedAgents _ _ w1) as [[n|error] w2]; cbn [fst].
  - split; [exact Hcount | exact Herr].
  - unfold agent_errors in *. cbn. rewrite List.filter_app. cbn. rewrite app_nil_r.
    split; [exact Hcount | exact Herr].
Qed.

End Accounting.

Section CleanupEffect.
Context `{Host}.
Hypothesis Hff : fault_free.

Lemma deleteActions_ff_gone ids owner : forall w,
  exists w', Sync.deleteActions ids owner w = (Ok tt, w')
    /\ (forall x, In x ids -> actions w' !! (x, owner) = None)
    /\ (forall key, actions w' !! key = None \/ actions w' !! key = actions w !! key).
Proof.
  induction ids as [|x ids IH]; intros w; cbn [Sync.deleteActions].
  { exists w. repeat split; [done|]. intros key. by right. }
  unfold bind, Store.deleteAction. rewrite (db_call_ff Hff). cbn [fst snd is_ok].
  set (w1 := Store.log _ _ _).
  destruct (IH w1) as (w' & -> & Hgone & Hmono). exists w'. split; [done|]. split.
  - intros y [<-|Hin]; [|by apply Hgone].
    destruct (Hmono (x, owner)) as [Hn|He]; [done|]. rewrite He.
    subst w1. cbn. apply lookup_delete_eq.
  - intros key. destruct (Hmono key) as [Hn|He]; [by left|]. rewrite He.
    subst w1. cbn. destruct (decide (key = (x, owner))) as [->|Hne].
    + left. apply lookup_delete_eq.
    + right. by apply lookup_delete_ne.
Qed.

Lemma removeAgents_ff_gone removed owner : forall w,
  exists w', Sync.removeAgents removed owner w = (Ok tt, w')
    /\ (forall a x, In a removed -> In x (ag_actions a) -> actions w' !! (x, owner) = None)
    /\ (forall key, actions w' !! key = None \/ actions w' !! key = actions w !! key).
Proof.
  induction removed as [|a rest IH]; intros w; cbn [Sync.removeAgents].
  { exists w. repeat split; [done|]. intros key. by right. }
  unfold bind at 1. unfold try_catch.
  destruct (Sync.removeAgent a owner w) as [r1 w1] eqn:Hr.
  assert (Hw1 : (forall x, In x (ag_actions a) -> actions w1 !! (x, owner) = None)
                /\ (forall key, actions w1 !! key = None
                                \/ actions w1 !! key = actions w !! key)).
  { revert Hr. unfold Sync.removeAgent, bind.
    destruct (deleteActions_ff_gone (ag_actions a) owner w) as (w0 & -> & Hgone & Hmono).
    intros Hd. apply deleteAgent_inv in Hd as (Ha & _). rewrite Ha. done. }
  destruct Hw1 as [Hgone1 Hmono1].
  destruct (IH w1) as (w' & Hs & Hgone & Hmono).
  exists w'. split.
  { destruct r1 as [[]|e]; cbn; exact Hs. }
  split.
  - intros a' x [<-|Hin] Hx; [|by eapply Hgone].
    destruct (Hmono (x, owner)) as [Hn|He]; [done|]. rewrite He. by apply Hgone1.
  - intros key. destruct (Hmono key) as [Hn|He]; [by left|]. rewrite He. apply Hmono1.
Qed.

(** X24. When no call to the persistence layer fails, a pass over a
    configuration that declares at least one agent removes every record of
    the system owner whose id is not declared: [removedCount] is the number
    of such records found after the agents were synced, none of them is left
    in the store, and the actions they listed are deleted with them.  (With
    an empty list of declarations the pass returns at once and removes
    nothing.) *)
Theorem sync_removes_orphans l w :
  keyed w -> l <> [] ->
  let owner := Sync.getDefaultObjectId in
  let w1 := snd (Sync.syncAgents l owner Sync.initialResults w) in
  let pass := Sync.syncDefaultAgents (Some l) w in
  removedCount (fst pass) = length (orphans (map cfg_id l) owner w1)
  /\ (forall k a, agents (snd pass) !! k = Some a -> ag_author a = owner ->
                  Sync.includes_id (map cfg_id l) (ag_id a) = true)
  /\ (forall a x, In a (orphans (map cfg_id l) owner w1) -> In x (ag_actions a) ->
                  actions (snd pass) !! (x, owner) = None).
Proof.
  intros Hkeyed Hne owner w1 pass. subst pass. rewrite syncDefaultAgents_nonempty by done.
  fold owner.
  destruct (syncAgents_inv l owner Sync.initialResults w Hkeyed) as (Hkeyed1 & _).
  fold w1 in Hkeyed1.
  destruct (Sync.syncAgents l owner Sync.initialResults w) as [results w1'] eqn:Hloop.
  cbn [snd] in w1. subst w1.
  destruct (cleanupRemovedAgents_ff Hff (map cfg_id l) owner w1' Hkeyed1)
    as (n & w2 & Hc & Hnone & Hkeyed2).
  pose proof (cleanupRemovedAgents_result (map cfg_id l) owner w1') as Hres.
  rewrite Hff in Hres. destruct Hres as (w2' & Hc'). rewrite Hc in Hc'.
  injection Hc' as -> <-. rewrite Hc. cbn [fst snd Sync.recordRemoved removedCount].
  split; [done|]. split.
  - intros k a Hk Hau.
    destruct (Sync.includes_id (map cfg_id l) (ag_id a)) eqn:Hinc; [done|]. exfalso.
    assert (Hin : In a (orphans (map cfg_id l) owner w2)) by (apply in_orphans; eauto).
    by rewrite Hnone in Hin.
  - intros a x Hin Hx. revert Hc. unfold Sync.cleanupRemovedAgents, bind, Store.findAgents.
    rewrite (db_call_ff Hff). cbn [fst snd is_ok].
    fold (orphans (map cfg_id l) owner w1').
    destruct (orphans (map cfg_id l) owner w1') as [|a0 rest] eqn:Eo; [done|].
    destruct (removeAgents_ff_gone (a0 :: rest) owner (Store.log CFindAgents true w1'))
      as (w3 & -> & Hgone & _).
    intros [= <-]. by eapply Hgone.
Qed.

End CleanupEffect.

Lemma sync_removes_orphans_witness :
  let old := Demo.record "old" Demo.system ["x_old"] in
  let w := Demo.store_of old (Demo.stored_action "x_old" Demo.system "old") in
  let pass := @Sync.syncDefaultAgents Demo.host (Some [Demo.agent "new" None]) w in
  @fault_free Demo.host
  /\ keyed w
  /\ removedCount (fst pass) = 1
  /\ agents (snd pass) !! "old" = None
  /\ actions (snd pass) !! ("x_old", Demo.system) = None.
Proof.
  intros old w pass. subst pass.
  destruct (@sync_removes_orphans Demo.host demo_fault_free [Demo.agent "new" None] w
              (keyed_store_of _ _)) as (Hn & _ & Hgone); [discriminate|].
  split; [exact demo_fault_free|]. split; [apply keyed_store_of|].
  split; [rewrite Hn; reflexivity|]. split; [reflexivity|].
  apply (Hgone old "x_old").
  - vm_compute. by left.
  - by left.
Defined.

Example empty_configuration_removes_nothing :
  let old := Demo.record "old" Demo.system ["x_old"] in
  let w := Demo.store_of old (Demo.stored_action "x_old" Demo.system "old") in
  @Sync.syncDefaultAgents Demo.host (Some []) w = (Sync.initialResults, w)
  /\ @Sync.syncDefaultAgents Demo.host None w = (Sync.initialResults, w)
  /\ orphans [] Demo.system w = [old].
Proof. vm_compute. repeat split. Qed.

(** ** The access middleware *)

Section MiddlewareFacts.
Context `{Host}.

Lemma getAgentById_run id w :
  Store.getAgentById id w
  = match db_fault (trace w) (CGetAgent id) with
    | Some msg => (Err (Error msg), Store.log (CGetAgent id) false w)
    | None => (Ok (agents w !! id), Store.log (CGetAgent id) true w)
    end.
Proof. unfold Store.getAgentById, Store.db_call. by destruct (db_fault _ _). Qed.

Lemma truthy_id id : id <> "" -> opt_truthy (Some id) = true.
Proof. intros Hne. unfold opt_truthy. cbn. apply String.eqb_neq in Hne. by rewrite Hne. Qed.

Lemma canAccessAgentResource_default requiredPermission resourceIdParam req id agent w :
  requiredPermission <> 0%Z ->
  params req !! resourceIdParam = Some id -> id <> "" ->
  db_fault (trace w) (CGetAgent id) = None ->
  agents w !! id = Some agent -> ag_author agent = Sync.getDefaultObjectId ->
  exists mw,
    Middleware.canAccessAgentResource requiredPermission resourceIdParam = Ok mw
    /\ fst (mw req w)
       = Ok (if ((requiredPermission =? 1) || (requiredPermission =? 16))%Z
             then match req_user req with
                  | Some u => Next (Middleware.grantDefaultAgent req agent id
                                      requiredPermission u)
                  | None => Json 500 "Internal Server Error" "Failed to check agent access"
                  end
             else Json 403 "Forbidden" "Default agents cannot be modified or deleted").
Proof.
  intros Hp Hid Hne Hdb Hag Hau. unfold Middleware.canAccessAgentResource.
  apply Z.eqb_neq in Hp. rewrite Hp. eexists. split; [reflexivity|].
  unfold try_catch, bind. rewrite Hid, (truthy_id id Hne). cbn [negb].
  change (Sync.show (Some id)) with id.
  rewrite getAgentById_run, Hdb, Hag, Hau, String.eqb_refl.
  destruct ((requiredPermission =? 1) || (requiredPermission =? 16))%Z; [|done].
  by destruct (req_user req).
Qed.

(** X25. An agent that [syncAgent] has just stored is read-only through
    [canAccessAgentResource]: when the route parameter names the declared
    id and the lookup does not fail, the middleware answers 403 for every
    permission other than 1 (view) and 16 (use), whoever the user is; for
    those two it calls [next()] with the stored record on the request, or
    answers 500 when the request has no user. *)
Theorem synced_agent_is_read_only c w agent w1 requiredPermission resourceIdParam req :
  keyed w ->
  Sync.syncAgent c Sync.getDefaultObjectId w = (Ok agent, w1) ->
  params req !! resourceIdParam = cfg_id c ->
  db_fault (trace w1) (CGetAgent (Sync.show (cfg_id c))) = None ->
  requiredPermission <> 0%Z ->
  exists mw,
    Middleware.canAccessAgentResource requiredPermission resourceIdParam = Ok mw
    /\ fst (mw req w1)
       = Ok (if ((requiredPermission =? 1) || (requiredPermission =? 16))%Z
             then match req_user req with
                  | Some u => Next (Middleware.grantDefaultAgent req agent
                                      (Sync.show (cfg_id c)) requiredPermission u)
                  | None => Json 500 "Internal Server Error" "Failed to check agent access"
                  end
             else Json 403 "Forbidden" "Default agents cannot be modified or deleted").
Proof.
  intros Hkeyed Hs Hparam Hdb Hp.
  pose proof (syncAgent_inv _ _ _ _ _ Hkeyed Hs) as (_ & _ & Hok).
  destruct (Hok agent eq_refl) as (Hstored & Hauthor & _).
  pose proof (syncAgent_ok_valid _ _ _ _ _ Hs) as Hv.
  destruct (valid_declaration c Hv) as [(i & Hid & Hne) _].
  rewrite Hid in *. change (Sync.show (Some i)) with i in *.
  by apply canAccessAgentResource_default.
Qed.


(** X27. The guard of the update and delete routes,
    [checkDefaultAgentAccess] followed by [preventDefaultAgentModification],
    answers 403 for a stored agent of the system owner when the lookup
    succeeds.  When the lookup fails the first middleware swallows the error
    and the second lets the unmarked request through: the guard fails open. *)
Theorem default_agent_guard_fails_open req id agent w :
  requested_agent req = Some id -> id <> "" ->
  agents w !! id = Some agent -> ag_author agent = Sync.getDefaultObjectId ->
  isDefaultAgent req = false ->
  exists req',
    fst (Middleware.checkDefaultAgentAccess req w) = Ok (Next req')
    /\ Middleware.preventDefaultAgentModification req'
       = match db_fault (trace w) (CGetAgent id) with
         | None =>
             Json 403 "Cannot modify default agents"
               "Default agents defined in configuration cannot be edited or deleted through the API"
         | Some _ => Next req
         end.
Proof.
  intros Hreq Hne Hag Hau Hmark.
  unfold Middleware.checkDefaultAgentAccess, try_catch, bind.
  fold (requested_agent req). rewrite Hreq, (truthy_id id Hne). cbn [negb].
  change (Sync.show (Some id)) with id. rewrite getAgentById_run.
  destruct (db_fault (trace w) (CGetAgent id)); cbn.
  - exists req. split; [done|]. unfold Middleware.preventDefaultAgentModification.
    by rewrite Hmark.
  - rewrite Hag. cbn. rewrite Hau, String.eqb_refl. cbn. by eexists.
Qed.

End MiddlewareFacts.

Lemma synced_agent_is_read_only_witness :
  let c := Demo.agent "support" None in
  let admin := {| user_id := Some "u1"; user_role := Some "ADMIN" |} in
  let req := Demo.request "support" (Some admin) in
  exists agent w1 mw,
    @Sync.syncAgent Demo.host c (@Sync.getDefaultObjectId Demo.host) Demo.empty_world
    = (Ok agent, w1)
    /\ @Middleware.canAccessAgentResource Demo.host 2 "id" = Ok mw
    /\ fst (mw req w1)
       = Ok (Json 403 "Forbidden" "Default agents cannot be modified or deleted").
Proof.
  intros c admin req.
  destruct (@Sync.syncAgent Demo.host c (@Sync.getDefaultObjectId Demo.host)
              Demo.empty_world) as [[agent|e] w1] eqn:Hrun.
  - destruct (@synced_agent_is_read_only Demo.host c Demo.empty_world agent w1 2 "id" req
                keyed_empty Hrun) as (mw & Hmw & Hreply);
      [reflexivity | reflexivity | discriminate |].
    exists agent, w1, mw. split; [reflexivity|]. split; [exact Hmw | exact Hreply].
  - vm_compute in Hrun. discriminate.
Defined.

Lemma default_agent_guard_fails_open_witness :
  let down := Demo.faulty (fun c => match c with CGetAgent _ => true | _ => false end) in
  let stored := Demo.record "support" Demo.system [] in
  let w := Demo.store_of stored (Demo.stored_action "x" Demo.system "support") in
  let req := Demo.request "support" None in
  (exists req',
     fst (@Middleware.checkDefaultAgentAccess Demo.host req w) = Ok (Next req')
     /\ Middleware.preventDefaultAgentModification req'
        = Json 403 "Cannot modify default agents"
            "Default agents defined in configuration cannot be edited or deleted through the API")
  /\ (exists req',
        fst (@Middleware.checkDefaultAgentAccess down req w) = Ok (Next req')
        /\ Middleware.preventDefaultAgentModification req' = Next req).
Proof.
  intros down stored w req. split.
  - apply (@default_agent_guard_fails_open Demo.host req "support" stored w);
      [reflexivity | discriminate | reflexivity | reflexivity | reflexivity].
  - apply (@default_agent_guard_fails_open down req "support" stored w);
      [reflexivity | discriminate | reflexivity | reflexivity | reflexivity].
Defined.
